(** * pylisp: the node classifier, the tree-walking evaluator and the
      instruction compiler of [pylisp/nodes.py], embedded in Rocq.

    The development follows the source file top-down: the token trees of the
    reader, Python's [Decimal] numbers under the default context, the node
    classes, [Node.parse], the [__call__] methods (evaluation against a
    store of frames) and the [__iter__] methods (opcode emission). *)

From Stdlib Require Import QArith Qabs Qpower Lqa.
Close Scope Q_scope.
From Stdlib Require Import ZArith NArith Ascii String List Bool Lia.
From stdpp Require Import base option list strings gmap.

#[local] Set Warnings "-register-all".
Local Open Scope string_scope.

(** ** Python's [decimal.Decimal] under the default context

    [nodes.py] builds every number with [Decimal(token)] and hands them to
    [operator.add], [operator.truediv], ... . The default context has 28
    significant digits, rounds half-even, and traps [InvalidOperation],
    [DivisionByZero] and [Overflow]; no other context is ever installed by
    the module. Only finite numbers arise: the numeric token grammar has no
    spelling for infinities or NaNs and the operations that would create
    them are trapped. *)
Module Decimal.

Record t := mk { sign : bool; coeff : N; exp : Z }.

Inductive signal := InvalidOperation | DivisionByZero | Overflow.

Inductive result := Finite (d : t) | Trap (s : signal).

Definition prec : Z := 28.
Definition Emax : Z := 999999.
Definition Emin : Z := -999999.
Definition Etiny : Z := Emin - prec + 1.
Definition Etop : Z := Emax - prec + 1.

Definition pow10 (k : Z) : N := (10 ^ Z.to_N k)%N.

Fixpoint ndigits_aux (fuel : nat) (n : N) : Z :=
  match fuel with
  | O => 1
  | S f => if (n <? 10)%N then 1 else (1 + ndigits_aux f (n / 10)%N)%Z
  end.

(** [len(str(n))]: the number of decimal digits of the coefficient. *)
Definition ndigits (n : N) : Z := ndigits_aux (N.to_nat (N.size n)) n.

(** Drop the [k] low digits of [c] rounding half-even; the flag tells
    whether the kept digits were incremented. *)
Definition round_half_even (c : N) (k : Z) : N * bool :=
  let q := (c / pow10 k)%N in
  let r := (c mod pow10 k)%N in
  let half := (5 * pow10 (k - 1))%N in
  if ((half <? r) || ((r =? half) && N.odd q))%N
  then ((q + 1)%N, true) else (q, false).

(** [Decimal._fix]: round to the context's precision and exponent range. *)
Definition fix_ (d : t) : result :=
  if (coeff d =? 0)%N then
    Finite (mk (sign d) 0 (Z.min (Z.max (exp d) Etiny) Emax))
  else
    let exp_min := (ndigits (coeff d) + exp d - prec)%Z in
    if (exp_min >? Etop)%Z then Trap Overflow else
    let exp_min := if (exp_min <? Etiny)%Z then Etiny else exp_min in
    if (exp d <? exp_min)%Z then
      let '(c, changed) := round_half_even (coeff d) (exp_min - exp d) in
      let '(c, exp_min) :=
        if changed && (ndigits c >? prec)%Z
        then ((c / 10)%N, (exp_min + 1)%Z) else (c, exp_min) in
      if (exp_min >? Etop)%Z then Trap Overflow
      else Finite (mk (sign d) c exp_min)
    else Finite d.

(** The integer [±coeff * 10^(exp - e)], for [e <= exp]. *)
Definition scaled (d : t) (e : Z) : Z :=
  let m := Z.of_N (coeff d * pow10 (exp d - e))%N in
  if sign d then (- m)%Z else m.

Definition copy_negate (d : t) : t := mk (negb (sign d)) (coeff d) (exp d).
Definition copy_abs (d : t) : t := mk false (coeff d) (exp d).

(** [__add__]: the exact sum at the smaller exponent, then [_fix]. A zero
    sum is negative only when both operands are negative zeros. *)
Definition add (a b : t) : result :=
  let e := Z.min (exp a) (exp b) in
  let s := (scaled a e + scaled b e)%Z in
  fix_ (mk (if (s =? 0)%Z then sign a && sign b else (s <? 0)%Z)
           (Z.to_N (Z.abs s)) e).

Definition sub (a b : t) : result := add a (copy_negate b).

Definition mul (a b : t) : result :=
  fix_ (mk (xorb (sign a) (sign b)) (coeff a * coeff b)%N (exp a + exp b)%Z).

Fixpoint strip_zeros (fuel : nat) (c : N) (e ideal : Z) : N * Z :=
  match fuel with
  | O => (c, e)
  | S f => if (e <? ideal)%Z && (c mod 10 =? 0)%N
           then strip_zeros f (c / 10)%N (e + 1)%Z ideal else (c, e)
  end.

(** [__truediv__]: [prec + 1] digits of quotient, a sticky last digit when
    the division is inexact, trailing zeros removed when it is exact. *)
Definition truediv (a b : t) : result :=
  let sg := xorb (sign a) (sign b) in
  if (coeff b =? 0)%N then
    Trap (if (coeff a =? 0)%N then InvalidOperation else DivisionByZero)
  else if (coeff a =? 0)%N then fix_ (mk sg 0 (exp a - exp b)%Z)
  else
    let shift := (ndigits (coeff b) - ndigits (coeff a) + prec + 1)%Z in
    let e := (exp a - exp b - shift)%Z in
    let num := if (shift >=? 0)%Z then (coeff a * pow10 shift)%N else coeff a in
    let den := if (shift >=? 0)%Z then coeff b else (coeff b * pow10 (- shift))%N in
    let q := (num / den)%N in
    let r := (num mod den)%N in
    if (r =? 0)%N then
      let '(c, e') := strip_zeros (Z.to_nat (ndigits q)) q e (exp a - exp b)%Z in
      fix_ (mk sg c e')
    else fix_ (mk sg (if (q mod 5 =? 0)%N then (q + 1)%N else q) e).

Definition neg (a : t) : result :=
  fix_ (if (coeff a =? 0)%N then copy_abs a else copy_negate a).

Definition pos (a : t) : result :=
  fix_ (if (coeff a =? 0)%N then copy_abs a else a).

(** [_cmp]: comparison of the numeric values. *)
Definition cmp (a b : t) : comparison :=
  let e := Z.min (exp a) (exp b) in
  (scaled a e ?= scaled b e)%Z.

Definition eqb (a b : t) : bool :=
  match cmp a b with Eq => true | _ => false end.
Definition ltb (a b : t) : bool :=
  match cmp a b with Lt => true | _ => false end.
Definition leb (a b : t) : bool :=
  match cmp a b with Gt => false | _ => true end.

Definition is_zero (a : t) : bool := (coeff a =? 0)%N.

(** *** [Decimal(str)] on the tokens the classifier hands it *)

Definition is_digit (c : ascii) : bool :=
  let n := nat_of_ascii c in (48 <=? n)%nat && (n <=? 57)%nat.

Definition digit_val (c : ascii) : N := N.of_nat (nat_of_ascii c - 48).

(** Longest prefix of digits, as [(value, count, rest)]. *)
Fixpoint take_digits (acc : N) (cnt : Z) (s : string) : N * Z * string :=
  match s with
  | String c r =>
      if is_digit c then take_digits (10 * acc + digit_val c)%N (cnt + 1)%Z r
      else (acc, cnt, s)
  | EmptyString => (acc, cnt, s)
  end.

Definition split_sign (s : string) : bool * string :=
  match s with
  | String "+" r => (false, r)
  | String "-" r => (true, r)
  | _ => (false, s)
  end.

Definition skip_dot (s : string) : string :=
  match s with String "." r => r | _ => s end.

(** [NUM_RE.fullmatch(s)] for [NUM_RE = (?:\+|-)?\d*\.?\d*]: the parts of
    a match, or [None]. Tokens are strings of code points below 256,
    among which [\d] is the ten ASCII digits. *)
Definition num_parts (s : string) : option (bool * (N * Z) * (N * Z)) :=
  let '(sg, s1) := split_sign s in
  let '(i, ni, s2) := take_digits 0 0 s1 in
  let '(f, nf, s3) := take_digits 0 0 (skip_dot s2) in
  match s3 with
  | EmptyString => Some (sg, (i, ni), (f, nf))
  | _ => None
  end.

Definition NUM_RE_fullmatch (s : string) : bool :=
  match num_parts s with Some _ => true | None => false end.

(** [Decimal(s)] for a string matched by [NUM_RE]: exact, no rounding;
    a string without any digit is a conversion syntax error. *)
Definition of_string (s : string) : result :=
  match num_parts s with
  | Some (sg, (i, ni), (f, nf)) =>
      if ((ni + nf)%Z =? 0)%Z then Trap InvalidOperation
      else Finite (mk sg (i * pow10 nf + f)%N (- nf)%Z)
  | None => Trap InvalidOperation
  end.

End Decimal.

(** ** Token trees, nodes and Python values *)

(** What the external reader hands to [Node.parse]: a leaf is a [str], an
    internal node a Python [list]. *)
Inductive tree :=
| TStr (s : string)
| TList (ts : list tree).

(** A mapping object as the evaluator sees it: a plain [dict], named by its
    index in the store of frames, or a [collections.ChainMap] over a
    non-empty [maps] list. The evaluator never changes a [maps] list, only
    the dicts, so a ChainMap is an immutable list of references. *)
Inductive env :=
| EDict (f : nat)
| EChain (first : env) (rest : list env).

(** The operator tables: [create_unop], [create_binop] and [create_pyfunc]
    synthesise one class per row. *)
Module Op.
Inductive unary := Pos | Neg.
Inductive binary :=
| Eq | Ne | Lt | Gt | Le | Ge
| Add | Sub | Mul | Div | Mod | Pow
| And | Or | Not | Xor | Is.
Inductive pyfunc := Print | Format | Printf | Printfs.
End Op.

Inductive Scoping := DYNAMIC | LEXICAL.

(** One constructor per class of [nodes.py]; the fields are the
    [children]. [UfuncClass] is the class object that [Lambda.__call__]
    returns, [Ufunc] an instance of it, and [Mapping] a dict or ChainMap
    object sitting where a node is expected (the argument of the instance
    that [Var.__call__] creates from a class). *)
Inductive node :=
| NotImplemented (t : tree)
| Comment
| Suite (children : list node)
| Set_ (name value : node)
| Setg (name value : node)
| Setc (name value : node)
| Ret (value : node)
| List (values : list node)
| Params (params : list tree)
| Cons (car cdr : node)
| Car (cons : node)
| Cdr (cons : node)
| Cell (car cdr : node)
| Assert (cond msg : node)
| Unop (op : Op.unary) (arg : node)
| Binop (op : Op.binary) (left right : node)
| Pyfunc (func : Op.pyfunc) (args : list node)
| Name (name : tree)
| Var (name : string)
| Atom (value : pyval)
| Nil
| True_
| False_
| While (cond body : node)
| IfElse (cond ifbody : node) (elsebody : option node)
| Call (name : node) (args : list node)
| TailCall (name : node) (args : list node)
| UfuncClass (params body : node) (closures : list env)
| Ufunc (params body : node) (closures : list env) (args : list node)
| Lambda (params body : node)
| Read
| Parse (expr : node)
| Eval (expr : node)
| Mapping (e : env)
with pyval :=
| PDec (d : Decimal.t)
| PStr (s : string)
| PBool (b : bool)
| PNone
| PPair (a b : pyval)          (* [Cell.value]: a 2-tuple *)
| PNode (n : node)             (* a node as a value: [Atom(node)], [Ufunc.value] *)
| PList (ts : list tree)       (* [Name.value] of a list token *)
| PParams (ts : list tree)     (* [Params.value]: the tuple of parameter tokens *)
| PProperty.                   (* [value] read on the Ufunc class itself *)

(** The argument of [ProgramError]: the f-string
    [f'unknown name {name!r}'] kept symbolic, or the asserted message. *)
Inductive message :=
| UnknownName (name : pyval)
| Message (v : pyval).

Inductive exn :=
| ProgramError (msg : message)
| KeyError
| AttributeError
| TypeError
| ValueError
| IndexError
| SyntaxError
| StopIteration
| NotImplementedError
| DecimalException (s : Decimal.signal).

(** How a call ends: a value, a raised exception, behaviour of the Python
    runtime that this embedding leaves undetermined ([Unmodelled]), or an
    exhausted step budget ([NoFuel], evaluation only). *)
Inductive res (A : Type) :=
| Ok (a : A)
| Raise (e : exn)
| Unmodelled
| NoFuel.
Arguments Ok {A} a.
Arguments Raise {A} e.
Arguments Unmodelled {A}.
Arguments NoFuel {A}.

Definition res_bind {A B} (r : res A) (k : A -> res B) : res B :=
  match r with
  | Ok a => k a
  | Raise e => Raise e
  | Unmodelled => Unmodelled
  | NoFuel => NoFuel
  end.

Definition of_decimal (r : Decimal.result) : res pyval :=
  match r with
  | Decimal.Finite d => Ok (PDec d)
  | Decimal.Trap s => Raise (DecimalException s)
  end.

(** ** The classifier: [Node.parse]

    [Node.parse] strips the tail-call marker by assigning to [tree[0]], so
    classification is a function from the token tree to the tree it leaves
    behind and the outcome. A token tree coming from the reader shares no
    sub-list between two positions, which is what lets the mutated tree be
    rebuilt position by position. *)

Definition dquote : ascii := "034"%char.

Definition startswith (c : ascii) (s : string) : bool :=
  match s with
  | String a _ => Ascii.eqb a c
  | EmptyString => false
  end.

Fixpoint endswith (c : ascii) (s : string) : bool :=
  match s with
  | EmptyString => false
  | String a EmptyString => Ascii.eqb a c
  | String _ r => endswith c r
  end.

Fixpoint drop_last (s : string) : string :=
  match s with
  | EmptyString => EmptyString
  | String _ EmptyString => EmptyString
  | String a r => String a (drop_last r)
  end.

(** [s[1:]] *)
Definition tail (s : string) : string :=
  match s with
  | String _ r => r
  | EmptyString => EmptyString
  end.

Definition plain_char (c : ascii) : bool :=
  let n := nat_of_ascii c in
  (32 <=? n)%nat && (n <=? 126)%nat && negb (Ascii.eqb c dquote) && negb (Ascii.eqb c "\"%char).

Fixpoint all_chars (p : ascii -> bool) (s : string) : bool :=
  match s with
  | EmptyString => true
  | String a r => p a && all_chars p r
  end.

(** [ast.literal_eval] on a token that starts and ends with a double quote.
    A lone quote is not a literal; a body of printable ASCII characters
    without quote or backslash denotes itself. Escapes, embedded quotes and
    other characters are left undetermined. *)
Definition literal_eval (s : string) : res pyval :=
  match s with
  | String _ EmptyString => Raise SyntaxError
  | _ =>
      let body := drop_last (tail s) in
      if all_chars plain_char body then Ok (PStr body) else Unmodelled
  end.

(** The leaf branch of [Node.parse]. The source returns [Var(tree)] before
    it compares the token with ['false']. *)
Definition parse_leaf (s : string) : res node :=
  if Decimal.NUM_RE_fullmatch s then
    match Decimal.of_string s with
    | Decimal.Finite d => Ok (Atom (PDec d))
    | Decimal.Trap sg => Raise (DecimalException sg)
    end
  else if startswith dquote s && endswith dquote s then
    res_bind (literal_eval s) (fun v => Ok (Atom v))
  else if String.eqb s "nil" then Ok Nil
  else if String.eqb s "true" then Ok True_
  else Ok (Var s).

Definition is_list (t : tree) : bool :=
  match t with TList _ => true | TStr _ => false end.

(** [comparisons] and [ops], the two dispatch dicts of [Node.parse]. *)
Definition comparisons (s : string) : option Op.binary :=
  if String.eqb s "==" then Some Op.Eq
  else if String.eqb s "<>" then Some Op.Ne
  else if String.eqb s "<" then Some Op.Lt
  else if String.eqb s ">" then Some Op.Gt
  else if String.eqb s "<=" then Some Op.Le
  else if String.eqb s ">=" then Some Op.Ge
  else None.

(** A class made by [create_unop] or by [create_binop]. *)
Inductive opclass := UnopClass (op : Op.unary) | BinopClass (op : Op.binary).

Definition Pos := UnopClass Op.Pos.
Definition Neg := UnopClass Op.Neg.
Definition Add := BinopClass Op.Add.
Definition Sub := BinopClass Op.Sub.
Definition Mul := BinopClass Op.Mul.
Definition Div := BinopClass Op.Div.
Definition Mod := BinopClass Op.Mod.
Definition Pow := BinopClass Op.Pow.
Definition And := BinopClass Op.And.
Definition Or := BinopClass Op.Or.
Definition Not := BinopClass Op.Not.   (* [Not = create_binop('Not', not_)] *)
Definition Xor := BinopClass Op.Xor.

Definition ops (s : string) : option (list (nat * opclass)) :=
  if String.eqb s "+" then Some [(1, Pos); (2, Add)]
  else if String.eqb s "-" then Some [(1, Neg); (2, Sub)]
  else if String.eqb s "*" then Some [(2, Mul)]
  else if String.eqb s "/" then Some [(2, Div)]
  else if String.eqb s "%" then Some [(2, Mod)]
  else if String.eqb s "**" then Some [(2, Pow)]
  else if String.eqb s "and" then Some [(2, And)]
  else if String.eqb s "or" then Some [(2, Or)]
  else if String.eqb s "not" then Some [(1, Not)]
  else if String.eqb s "xor" then Some [(2, Xor)]
  else None.

Fixpoint dict_get {A} (d : list (nat * A)) (k : nat) : option A :=
  match d with
  | [] => None
  | (k', v) :: r => if Nat.eqb k k' then Some v else dict_get r k
  end.

Definition pyfuncs (s : string) : option Op.pyfunc :=
  if String.eqb s "print" then Some Op.Print
  else if String.eqb s "printf" then Some Op.Printf
  else if String.eqb s "printfs" then Some Op.Printfs
  else if String.eqb s "format" then Some Op.Format
  else None.

Section Forms.
(** The recursive call [Node.parse]. *)
Variable p : tree -> tree * res node.

(** [[Node.parse(x) for x in args]]: left to right, stopping at the first
    exception; elements already visited keep their mutation. *)
Fixpoint parse_each (args : list tree) : list tree * res (list node) :=
  match args with
  | [] => ([], Ok [])
  | x :: r =>
      match p x with
      | (x', Ok n) =>
          let '(r', ns) := parse_each r in
          (x' :: r', res_bind ns (fun ns => Ok (n :: ns)))
      | (x', Raise e) => (x' :: r, Raise e)
      | (x', Unmodelled) => (x' :: r, Unmodelled)
      | (x', NoFuel) => (x' :: r, NoFuel)
      end
  end.

(** [_, x = tree; return cls(Node.parse(x))] *)
Definition parse1 (cls : node -> node) (args : list tree)
  : list tree * res node :=
  match args with
  | [x] => let '(x', r) := p x in ([x'], res_bind r (fun n => Ok (cls n)))
  | _ => (args, Raise ValueError)
  end.

(** [_, l, r = tree; return cls(Node.parse(l), Node.parse(r))] *)
Definition parse2 (cls : node -> node -> node) (args : list tree)
  : list tree * res node :=
  match args with
  | [_; _] =>
      let '(args', r) := parse_each args in
      (args', res_bind r (fun ns =>
                match ns with [a; b] => Ok (cls a b) | _ => Unmodelled end))
  | _ => (args, Raise ValueError)
  end.

(** [_, name, value = tree; return cls(Name(name), Node.parse(value))] *)
Definition parse_binding (cls : node -> node -> node) (args : list tree)
  : list tree * res node :=
  match args with
  | [name; value] =>
      let '(value', r) := p value in
      ([name; value'], res_bind r (fun v => Ok (cls (Name name) v)))
  | _ => (args, Raise ValueError)
  end.

(** [opclass.parse(tree)] *)
Definition parse_op (c : opclass) (args : list tree) : list tree * res node :=
  match c with
  | UnopClass op => parse1 (Unop op) args
  | BinopClass op => parse2 (Binop op) args
  end.

(** [Params.parse(tree)] is [cls( *tree)]: the elements of a list, the
    characters of a string. *)
Definition Params_parse (t : tree) : node :=
  match t with
  | TList ps => Params ps
  | TStr s => Params (map (fun c => TStr (String c EmptyString)) (list_ascii_of_string s))
  end.

Definition Lambda_parse (args : list tree) : list tree * res node :=
  match args with
  | [params; body] =>
      let '(body', r) := p body in
      ([params; body'], res_bind r (fun b => Ok (Lambda (Params_parse params) b)))
  | _ => (args, Raise ValueError)
  end.

(** [List.__init__(self, car, *cdr)] needs one value at least. *)
Definition List_parse (args : list tree) : list tree * res node :=
  let '(args', r) := parse_each args in
  (args', res_bind r (fun ns =>
            match ns with [] => Raise TypeError | _ => Ok (List ns) end)).

Definition IfElse_parse (args : list tree) : list tree * res node :=
  match args with
  | cond :: ifbody :: elsebody =>
      match elsebody with
      | [] =>
          let '(args', r) := parse_each args in
          (args', res_bind r (fun ns =>
                    match ns with
                    | [c; i] => Ok (IfElse c i None)
                    | _ => Unmodelled
                    end))
      | [_] =>
          let '(args', r) := parse_each args in
          (args', res_bind r (fun ns =>
                    match ns with
                    | [c; i; e] => Ok (IfElse c i (Some e))
                    | _ => Unmodelled
                    end))
      | _ =>
          (* [Node.parse( *elsebody)] with two or more arguments, called
             after the first two have been classified *)
          let '(ci', r) := parse_each [cond; ifbody] in
          ((ci' ++ elsebody)%list, res_bind r (fun _ => Raise TypeError))
      end
  | _ => (args, Raise ValueError)
  end.

Definition While_parse (args : list tree) : list tree * res node :=
  match args with
  | cond :: body =>
      let '(cond', rc) := p cond in
      match rc with
      | Ok c =>
          match body with
          | [] => ([cond'], Raise TypeError)       (* [Node.parse()] *)
          | [b] =>
              let '(b', rb) := p b in
              ([cond'; b'], res_bind rb (fun b => Ok (While c b)))
          | _ =>
              let '(body', rb) := parse_each body in
              (cond' :: body', res_bind rb (fun bs => Ok (While c (Suite bs))))
          end
      | Raise e => (cond' :: body, Raise e)
      | Unmodelled => (cond' :: body, Unmodelled)
      | NoFuel => (cond' :: body, NoFuel)
      end
  | [] => (args, Raise ValueError)
  end.

(** [Atom(Node.parse(tree[1]))] *)
Definition quoted_parse (args : list tree) : list tree * res node :=
  match args with
  | [] => (args, Raise IndexError)
  | x :: r => let '(x', rx) := p x in
              (x' :: r, res_bind rx (fun n => Ok (Atom (PNode n))))
  end.

(** [Call.parse], inherited by [TailCall]:
    [name, *args = tree; return cls(Name(name), *[Node.parse(x) for x in args])] *)
Definition Call_parse (cls : node -> list node -> node) (name : tree)
    (args : list tree) : list tree * res node :=
  let '(args', r) := parse_each args in
  (name :: args', res_bind r (fun ns => Ok (cls (Name name) ns))).

(** The two places where the marker is tested: when it is there,
    [tree[0] = tree[0][1:]] and the tree is classified as a tail call. *)
Definition call_or_tailcall (hd : string) (args : list tree)
  : list tree * res node :=
  if startswith "^" hd then Call_parse TailCall (TStr (tail hd)) args
  else Call_parse Call (TStr hd) args.
End Forms.

Definition keep (hd : tree) (r : list tree * res node) : tree * res node :=
  (TList (hd :: fst r), snd r).

Fixpoint parse (t : tree) : tree * res node :=
  match t with
  | TStr s => (t, parse_leaf s)
  | TList ts =>
      if forallb is_list ts then
        (* [Suite.parse(tree)] *)
        let '(ts', r) := parse_each parse ts in
        (TList ts', res_bind r (fun ns => Ok (Suite ns)))
      else
        match ts with
        | [] => (t, Unmodelled)      (* not reached: [all] of nothing holds *)
        | TList _ :: _ =>
            (* the five [==] tests are false, then [tree[0] in comparisons]
               hashes a list *)
            (t, Raise TypeError)
        | TStr hd as h :: args =>
            if String.eqb hd "set" then keep h (parse_binding parse Set_ args)
            else if String.eqb hd "setg" then keep h (parse_binding parse Setg args)
            else if String.eqb hd "setc" then keep h (parse_binding parse Setc args)
            else if String.eqb hd "ret" then keep h (parse1 parse Ret args)
            else if String.eqb hd "lambda" then keep h (Lambda_parse parse args)
            else match comparisons hd with
            | Some op => keep h (parse2 parse (Binop op) args)
            | None =>
            match ops hd with
            | Some arities =>
                match dict_get arities (length args) with
                | Some c => keep h (parse_op parse c args)
                | None => (t, Raise KeyError)
                end
            | None =>
            match pyfuncs hd with
            | Some f =>
                let '(args', r) := parse_each parse args in
                (TList (h :: args'), res_bind r (fun ns => Ok (Pyfunc f ns)))
            | None =>
            if String.eqb hd "assert" then keep h (parse2 parse Assert args)
            else if String.eqb hd "list" then keep h (List_parse parse args)
            else if String.eqb hd "cons" then keep h (parse2 parse Cons args)
            else if String.eqb hd "car" then keep h (parse1 parse Car args)
            else if String.eqb hd "cdr" then keep h (parse1 parse Cdr args)
            else if String.eqb hd "if" then keep h (IfElse_parse parse args)
            else if String.eqb hd "while" then keep h (While_parse parse args)
            else if String.eqb hd "parse" then keep h (parse1 parse Parse args)
            else if String.eqb hd "quoted" then keep h (quoted_parse parse args)
            else if String.eqb hd "eval" then keep h (parse1 parse Eval args)
            else if String.eqb hd "read" then (t, Ok Read)
            else
              match args with
              | [] =>            (* [len(tree) == 1] *)
                  let '(ts', r) := call_or_tailcall parse hd [] in (TList ts', r)
              | _ =>             (* [isinstance(tree[0], str)], [len(tree) > 1] *)
                  let '(ts', r) := call_or_tailcall parse hd args in (TList ts', r)
              end
            end end end
        end
  end.

(** ** Values: [.value], truth and the native operations *)

(** The [value] attribute. Classes without one raise [AttributeError]. *)
Fixpoint value_of (n : node) : res pyval :=
  match n with
  | Atom v => Ok v
  | Nil => Ok PNone
  | True_ => Ok (PBool true)
  | False_ => Ok (PBool false)
  | Cell a b =>
      res_bind (value_of a) (fun va =>
      res_bind (value_of b) (fun vb => Ok (PPair va vb)))
  | Name (TStr s) => Ok (PStr s)
  | Name (TList ts) => Ok (PList ts)
  | Params ps => Ok (PParams ps)
  | Set_ _ v | Setg _ v | Setc _ v | Ret v => Ok (PNode v)
  | Ufunc _ _ _ _ => Ok (PNode n)
  | UfuncClass _ _ _ => Ok PProperty
  | _ => Raise AttributeError
  end.

(** Python's truth test. Node objects define neither [__bool__] nor
    [__len__], so they are true. *)
Definition truthy (v : pyval) : bool :=
  match v with
  | PDec d => negb (Decimal.is_zero d)
  | PStr s => negb (String.eqb s "")
  | PBool b => b
  | PNone => false
  | PPair _ _ => true
  | PNode _ => true
  | PList ts | PParams ts => match ts with [] => false | _ => true end
  | PProperty => true
  end.

Definition bool_decimal (b : bool) : Decimal.t :=
  Decimal.mk false (if b then 1%N else 0%N) 0.

(** [a == b]. [bool] is an [int] and compares with a [Decimal] by value;
    numbers, strings and [None] are never equal to one another; tuples
    compare element by element. Comparisons that would fall back on object
    identity are left undetermined ([None]). *)
Fixpoint py_eq (a b : pyval) : option bool :=
  match a, b with
  | PDec x, PDec y => Some (Decimal.eqb x y)
  | PDec x, PBool y => Some (Decimal.eqb x (bool_decimal y))
  | PBool x, PDec y => Some (Decimal.eqb (bool_decimal x) y)
  | PBool x, PBool y => Some (Bool.eqb x y)
  | PStr x, PStr y => Some (String.eqb x y)
  | PNone, PNone => Some true
  | PPair a1 a2, PPair b1 b2 =>
      match py_eq a1 b1 with
      | Some true => py_eq a2 b2
      | r => r
      end
  | (PNode _ | PList _ | PParams _ | PProperty), _ => None
  | _, (PNode _ | PList _ | PParams _ | PProperty) => None
  | _, _ => Some false
  end.

(** [a < b] on numbers and on strings; [None] and mixed operands raise
    [TypeError]. *)
Definition py_lt (a b : pyval) : res bool :=
  match a, b with
  | PDec x, PDec y => Ok (Decimal.ltb x y)
  | PDec x, PBool y => Ok (Decimal.ltb x (bool_decimal y))
  | PBool x, PDec y => Ok (Decimal.ltb (bool_decimal x) y)
  | PBool x, PBool y => Ok (Decimal.ltb (bool_decimal x) (bool_decimal y))
  | PStr x, PStr y => Ok (String.ltb x y)
  | (PPair _ _ | PNode _ | PList _ | PParams _ | PProperty), _ => Unmodelled
  | _, (PPair _ _ | PNode _ | PList _ | PParams _ | PProperty) => Unmodelled
  | _, _ => Raise TypeError
  end.

Definition py_le (a b : pyval) : res bool :=
  match a, b with
  | PDec x, PDec y => Ok (Decimal.leb x y)
  | PDec x, PBool y => Ok (Decimal.leb x (bool_decimal y))
  | PBool x, PDec y => Ok (Decimal.leb (bool_decimal x) y)
  | PBool x, PBool y => Ok (Decimal.leb (bool_decimal x) (bool_decimal y))
  | PStr x, PStr y => Ok (String.leb x y)
  | (PPair _ _ | PNode _ | PList _ | PParams _ | PProperty), _ => Unmodelled
  | _, (PPair _ _ | PNode _ | PList _ | PParams _ | PProperty) => Unmodelled
  | _, _ => Raise TypeError
  end.

Definition wrap_bool (r : res bool) : res pyval :=
  res_bind r (fun b => Ok (PBool b)).

Definition of_option {A} (o : option A) : res A :=
  match o with Some a => Ok a | None => Unmodelled end.

(** The [Decimal] arithmetic of the table; other operand types are left
    undetermined. *)
Definition arith (f : Decimal.t -> Decimal.t -> Decimal.result) (a b : pyval)
  : res pyval :=
  match a, b with
  | PDec x, PDec y => of_decimal (f x y)
  | _, _ => Unmodelled
  end.

(** [&], [|] and [^]: defined on [bool], not on [Decimal]. *)
Definition bitwise (f : bool -> bool -> bool) (a b : pyval) : res pyval :=
  match a, b with
  | PBool x, PBool y => Ok (PBool (f x y))
  | PDec _, PDec _ => Raise TypeError
  | _, _ => Unmodelled
  end.

(** [op(left, right)] for the second argument of [create_binop]. *)
Definition binop (op : Op.binary) (a b : pyval) : res pyval :=
  match op with
  | Op.Eq => wrap_bool (of_option (py_eq a b))
  | Op.Ne => wrap_bool (res_bind (of_option (py_eq a b)) (fun r => Ok (negb r)))
  | Op.Lt => wrap_bool (py_lt a b)
  | Op.Gt => wrap_bool (py_lt b a)
  | Op.Le => wrap_bool (py_le a b)
  | Op.Ge => wrap_bool (py_le b a)
  | Op.Add =>
      match a, b with
      | PStr x, PStr y => Ok (PStr (x +:+ y))
      | _, _ => arith Decimal.add a b
      end
  | Op.Sub => arith Decimal.sub a b
  | Op.Mul => arith Decimal.mul a b
  | Op.Div => arith Decimal.truediv a b
  | Op.Mod => Unmodelled
  | Op.Pow => Unmodelled
  | Op.And => bitwise andb a b
  | Op.Or => bitwise orb a b
  | Op.Xor => bitwise xorb a b
  | Op.Not => Raise TypeError      (* [operator.not_] takes one argument *)
  | Op.Is =>
      match a, b with
      | PBool x, PBool y => Ok (PBool (Bool.eqb x y))
      | PNone, PNone => Ok (PBool true)
      | PBool _, PNone | PNone, PBool _ => Ok (PBool false)
      | _, _ => Unmodelled
      end
  end.

(** [op(arg)] for the second argument of [create_unop]. *)
Definition unop (op : Op.unary) (a : pyval) : res pyval :=
  match a with
  | PDec x =>
      of_decimal (match op with Op.Pos => Decimal.pos x | Op.Neg => Decimal.neg x end)
  | PStr _ | PNone => Raise TypeError
  | _ => Unmodelled
  end.

(** ** Environments over a store of frames *)

(** The mutable state an evaluation runs against: the dicts (frames), by
    index, and the two standard streams. *)
Record state := mkstate {
  frames : list (gmap string node);
  stdin : list string;
  stdout : list string;
}.

(** [env[k]] *)
Fixpoint getitem (fs : list (gmap string node)) (e : env) (k : string) : res node :=
  match e with
  | EDict f =>
      match fs !! f with
      | Some m => match m !! k with Some v => Ok v | None => Raise KeyError end
      | None => Unmodelled
      end
  | EChain first rest =>
      let fix go (ms : list env) : res node :=
        match ms with
        | [] => Raise KeyError
        | m :: r => match getitem fs m k with Raise KeyError => go r | x => x end
        end in
      match getitem fs first k with Raise KeyError => go rest | x => x end
  end.

(** The dict that [env[k] = v] writes: a ChainMap writes its first map. *)
Fixpoint target (e : env) : nat :=
  match e with
  | EDict f => f
  | EChain first _ => target first
  end.

(** [env[k] = v] *)
Definition setitem (fs : list (gmap string node)) (e : env) (k : string) (v : node)
  : res (list (gmap string node)) :=
  match fs !! target e with
  | Some m => Ok (<[target e := <[k := v]> m]> fs)
  | None => Unmodelled
  end.

(** [k in env] *)
Fixpoint contains (fs : list (gmap string node)) (e : env) (k : string) : res bool :=
  match e with
  | EDict f =>
      match fs !! f with
      | Some m => Ok (bool_decide (is_Some (m !! k)))
      | None => Unmodelled
      end
  | EChain first rest =>
      let fix go (ms : list env) : res bool :=
        match ms with
        | [] => Ok false
        | m :: r => res_bind (contains fs m k) (fun b => if b then Ok true else go r)
        end in
      res_bind (contains fs first k) (fun b => if b then Ok true else go rest)
  end.

(** [env.maps] when [isinstance(env, ChainMap)] *)
Definition maps (e : env) : option (list env) :=
  match e with
  | EChain first rest => Some (first :: rest)
  | EDict _ => None
  end.

(** A dict key: the evaluator stores under strings; a list is unhashable;
    other hashable keys are left undetermined. *)
Definition key_of (v : pyval) : res string :=
  match v with
  | PStr s => Ok s
  | PList _ => Raise TypeError
  | _ => Unmodelled
  end.

(** [dict(zip(params, args))] *)
Fixpoint dict_zip (params : list tree) (args : list node) (d : gmap string node)
  : res (gmap string node) :=
  match params, args with
  | TStr k :: ps, a :: r => dict_zip ps r (<[k := a]> d)
  | TList _ :: _, _ :: _ => Raise TypeError
  | _, _ => Ok d
  end.

(** ** The tree-walking evaluator: the [__call__] methods

    A computation threads the [state] and ends in a [res]; an exception
    keeps the mutations made before it. The [debug] decorator's log lines
    and call statistics are not part of the state. *)
Definition M (A : Type) : Type := state -> state * res A.

Definition ret {A} (a : A) : M A := fun s => (s, Ok a).

Definition bind {A B} (m : M A) (k : A -> M B) : M B :=
  fun s =>
    match m s with
    | (s', Ok a) => k a s'
    | (s', Raise e) => (s', Raise e)
    | (s', Unmodelled) => (s', Unmodelled)
    | (s', NoFuel) => (s', NoFuel)
    end.

Definition lift {A} (r : res A) : M A := fun s => (s, r).

Definition raise {A} (e : exn) : M A := lift (Raise e).

Notation "'let*' x ':=' m 'in' k" := (bind m (fun x => k))
  (at level 10, x name, m at level 100, k at level 200).

(** [try: m  except KeyError as e: raise ProgramError(msg) from e] *)
Definition except_KeyError {A} (m : M A) (msg : message) : M A :=
  fun s =>
    match m s with
    | (s', Raise KeyError) => (s', Raise (ProgramError msg))
    | r => r
    end.

Definition lookup (e : env) (k : string) : M node :=
  fun s => (s, getitem (frames s) e k).

Definition store (e : env) (k : string) (v : node) : M unit :=
  fun s =>
    match setitem (frames s) e k v with
    | Ok fs => (mkstate fs (stdin s) (stdout s), Ok tt)
    | Raise x => (s, Raise x)
    | Unmodelled => (s, Unmodelled)
    | NoFuel => (s, NoFuel)
    end.

Definition has_key (e : env) (k : string) : M bool :=
  fun s => (s, contains (frames s) e k).

(** A new dict: its index is the next free one. *)
Definition alloc (d : gmap string node) : M nat :=
  fun s => (mkstate (frames s ++ [d]) (stdin s) (stdout s), Ok (length (frames s))).

(** [next(stdin)] *)
Definition next_line : M string :=
  fun s =>
    match stdin s with
    | l :: r => (mkstate (frames s) r (stdout s), Ok l)
    | [] => (s, Raise StopIteration)
    end.

Definition write (text : string) : M unit :=
  fun s => (mkstate (frames s) (stdin s) (stdout s ++ [text]), Ok tt).

(** What the module takes from outside: the reader ([parse] of
    [pylisp.parser]) and the three Python built-ins behind the I/O forms. *)
Record host := mkhost {
  py_str : pyval -> res string;                    (* [str(x)] *)
  py_format : list pyval -> res pyval;             (* [format( *args)] *)
  str_format : string -> list pyval -> res string; (* [fmt.format( *args)] *)
  reader : pyval -> res pyval;                     (* [parse(code)] *)
}.

Fixpoint join (sep : string) (l : list string) : string :=
  match l with
  | [] => ""
  | [x] => x
  | x :: r => x +:+ sep +:+ join sep r
  end.

Definition newline : string := String "010"%char EmptyString.

Section Evaluator.
Variable H : host.
(** The module-level switch [__scoping__]. *)
Variable scoping : Scoping.

(** [fmt.format( *args)]: only [str] has the method. *)
Definition format_method (fmt : pyval) (args : list pyval) : res string :=
  match fmt with
  | PStr s => str_format H s args
  | _ => Raise AttributeError
  end.

(** [str(x)] of every argument, as [print] takes them. *)
Fixpoint strs (args : list pyval) : res (list string) :=
  match args with
  | [] => Ok []
  | a :: r =>
      res_bind (py_str H a) (fun x =>
      res_bind (strs r) (fun xs => Ok (x :: xs)))
  end.

(** [func( *args)] for the four rows of [create_pyfunc]. *)
Definition pyfunc (f : Op.pyfunc) (args : list pyval) : M pyval :=
  match f with
  | Op.Print =>
      let* texts := lift (strs args) in
      let* _ := write (join " " texts +:+ newline) in
      ret PNone
  | Op.Format => lift (py_format H args)
  | Op.Printf =>
      match args with
      | fmt :: args =>
          let* text := lift (format_method fmt args) in
          let* _ := write text in
          ret PNone
      | [] => raise TypeError
      end
  | Op.Printfs =>
      match args with
      | fmt :: sep :: args =>
          let* text := lift (format_method fmt args) in
          match sep with
          | PStr _ | PNone => let* _ := write text in ret PNone
          | _ => raise TypeError
          end
      | _ => raise TypeError
      end
  end.

(** [[f(x) for x in l]] *)
Fixpoint for_each {A B} (f : A -> M B) (l : list A) : M (list B) :=
  match l with
  | [] => ret []
  | x :: r =>
      let* y := f x in
      let* ys := for_each f r in
      ret (y :: ys)
  end.

(** [Suite.__call__]: the value of the last child, [Nil] for none. *)
Fixpoint suite (ev : node -> M node) (rv : node) (children : list node) : M node :=
  match children with
  | [] => ret rv
  | c :: r => let* v := ev c in suite ev v r
  end.

(** [List.__call__] on the evaluated values. *)
Definition build_list (values : list node) : M node :=
  match rev values with
  | [] => raise IndexError
  | x :: r => ret (fold_left (fun rv v => Cell v rv) r (Cell x Nil))
  end.

(** [.car] and [.cdr]: properties of [Cell] and of [Cons]. *)
Definition getattr_car (n : node) : res node :=
  match n with
  | Cell a _ | Cons a _ => Ok a
  | _ => Raise AttributeError
  end.

Definition getattr_cdr (n : node) : res node :=
  match n with
  | Cell _ b | Cons _ b => Ok b
  | _ => Raise AttributeError
  end.

(** [Lambda.__call__]: [env.maps[:-1]] of a ChainMap, [[]] otherwise. *)
Definition captured (e : env) : list env :=
  match maps e with
  | Some ms => removelast ms
  | None => []
  end.

(** The environment of a call: [ChainMap(args, *closures, env.maps[-1])]
    for a ChainMap under lexical scoping, [ChainMap(args, *closures, env)]
    otherwise. *)
Definition local_env (args : nat) (closures : list env) (e : env) : env :=
  match maps e, scoping with
  | Some ms, LEXICAL => EChain (EDict args) (closures ++ [List.last ms e])
  | _, _ => EChain (EDict args) (closures ++ [e])
  end.

(** [while self.cond(env).value: rv = self.body(env)] *)
Fixpoint while_loop (ev : node -> M node) (n : nat) (cond body rv : node) : M node :=
  match n with
  | O => lift NoFuel
  | S n' =>
      let* c := ev cond in
      let* v := lift (value_of c) in
      if truthy v then
        let* rv' := ev body in while_loop ev n' cond body rv'
      else ret rv
  end.

(** [n(env)] for every object [n] that can stand where a node is called:
    a node instance runs its [__call__], the Ufunc class is instantiated
    on the environment, a mapping is not callable. *)
Fixpoint eval (fuel : nat) (n : node) (e : env) {struct fuel} : M node :=
  match fuel with
  | O => lift NoFuel
  | S f =>
      (** [b( *args)] for the object bound to a called name. A node
          instance takes its one argument for an environment; classes
          whose [__call__] returns without reading it are covered, the
          [debug] wrapper of a Ufunc instance iterates [env.items()]. *)
      let apply (b : node) (args : list node) : M node :=
        match b with
        | UfuncClass ps body cl => ret (Ufunc ps body cl args)
        | Mapping _ => raise TypeError
        | _ =>
            match args with
            | [Mapping e'] => eval f b e'
            | [_] =>
                match b with
                | Atom _ | Nil | True_ | False_ | Cell _ _ | Name _ | Params _ => ret b
                | Comment => ret Nil
                | NotImplemented _ => raise NotImplementedError
                | Ufunc _ _ _ _ => raise AttributeError
                | _ => lift Unmodelled
                end
            | _ => raise TypeError
            end
        end in
      (** [Call.__call__], inherited unchanged by [TailCall]. *)
      let Call__call__ (name : node) (args : list node) : M node :=
        let* args := for_each (fun a => eval f a e) args in
        let* nv := lift (value_of name) in
        let* nd :=
          except_KeyError
            (let* k := lift (key_of nv) in
             let* b := lookup e k in
             apply b args)
            (UnknownName nv) in
        eval f nd e in
      match n with
      | NotImplemented _ => raise NotImplementedError
      | Comment => ret Nil
      | Suite children => suite (fun c => eval f c e) Nil children
      | Set_ name value =>
          let* nm := eval f name e in
          let* v := eval f value e in
          let* nv := lift (value_of nm) in
          let* k := lift (key_of nv) in
          let* _ := store e k v in
          ret v
      | Setg name value =>
          let* nm := eval f name e in
          let* v := eval f value e in
          match maps e with
          | Some ms =>
              let* nv := lift (value_of nm) in
              let* k := lift (key_of nv) in
              let* _ := store (List.last ms e) k v in
              ret v
          | None =>
              let* nv := lift (value_of nm) in
              let* k := lift (key_of nv) in
              let* _ := store e k v in
              ret v
          end
      | Setc name value =>
          let* nm := eval f name e in
          let* v := eval f value e in
          match maps e with
          | Some ms =>
              match ms !! 1%nat with
              | Some m =>
                  let* nv := lift (value_of nm) in
                  let* k := lift (key_of nv) in
                  let* _ := store m k v in
                  ret v
              | None => raise IndexError
              end
          | None =>
              let* nv := lift (value_of nm) in
              let* k := lift (key_of nv) in
              let* _ := store e k v in
              ret v
          end
      | Ret value => eval f value e
      | List values =>
          let* vs := for_each (fun v => eval f v e) values in
          build_list vs
      | Params _ => ret n
      | Cons car cdr =>
          let* a := eval f car e in
          let* d := eval f cdr e in
          ret (Cell a d)
      | Car operand => let* c := eval f operand e in lift (getattr_car c)
      | Cdr operand => let* c := eval f operand e in lift (getattr_cdr c)
      | Cell _ _ => ret n
      | Assert cond msg =>
          let* c := eval f cond e in
          let* cv := lift (value_of c) in
          if truthy cv then ret Nil
          else
            let* m := eval f msg e in
            let* mv := lift (value_of m) in
            raise (ProgramError (Message mv))
      | Unop op arg =>
          let* a := eval f arg e in
          let* av := lift (value_of a) in
          let* r := lift (unop op av) in
          ret (Atom r)
      | Binop op lhs rhs =>
          let* l := eval f lhs e in
          let* r := eval f rhs e in
          let* lv := lift (value_of l) in
          let* rv := lift (value_of r) in
          let* x := lift (binop op lv rv) in
          ret (Atom x)
      | Pyfunc func args =>
          let* args := for_each (fun a => eval f a e) args in
          let* vals := for_each (fun a => lift (value_of a)) args in
          let* rv := pyfunc func vals in
          ret (Atom rv)
      | Name _ => ret n
      | Var name =>
          except_KeyError
            (let* b := lookup e name in eval f b e)
            (UnknownName (PStr name))
      | Atom _ | Nil | True_ | False_ => ret n
      | While cond body => while_loop (fun c => eval f c e) f cond body Nil
      | IfElse cond ifbody elsebody =>
          let* c := eval f cond e in
          let* cv := lift (value_of c) in
          if truthy cv then eval f ifbody e
          else
            match elsebody with
            | Some b => eval f b e
            | None => ret Nil
            end
      | Call name args => Call__call__ name args
      | TailCall name args => Call__call__ name args
      | UfuncClass ps body cl => ret (Ufunc ps body cl [Mapping e])
      | Ufunc ps body cl args =>
          let* pv := lift (value_of ps) in
          match pv with
          | PParams names =>
              let* d := lift (dict_zip names args ∅) in
              let* a := alloc d in
              eval f body (local_env a cl e)
          | _ => lift Unmodelled
          end
      | Lambda ps body => ret (UfuncClass ps body (captured e))
      | Read =>
          let* b := has_key e "--stdin" in
          if b then let* x := lookup e "--stdin" in eval f x e
          else let* line := next_line in ret (Atom (PStr line))
      | Parse expr =>
          let* c := eval f expr e in
          let* code := lift (value_of c) in
          let* nd := lift (reader H code) in
          ret (Atom nd)
      | Eval expr =>
          let* c := eval f expr e in
          let* v := lift (value_of c) in
          match v with
          | PNode nd => eval f nd e
          | _ => raise TypeError
          end
      | Mapping _ => raise TypeError
      end
  end.
End Evaluator.

(** ** The instruction compiler: the [__iter__] methods *)

(** The native callable that a [CallPyFunc] carries. *)
Inductive native :=
| List_build                    (* [List.build] *)
| cons_pair                     (* [lambda car, cdr: (car, cdr)] *)
| item0                         (* [lambda x: x[0]] *)
| item1                         (* [lambda x: x[1]] *)
| check_assert
| unary (op : Op.unary)
| binary (op : Op.binary)
| builtin (f : Op.pyfunc)
| reader_parse.                 (* [parse] of [pylisp.parser] *)

(** Modelled from the spec: the opcode classes of [pylisp/insts.py], one
    constructor per row of the opcode contract, with the operands that
    [nodes.py] passes. *)
Inductive inst :=
| Label (name : string)
| PushImm (v : pyval)
| PushVar (name : pyval)
| PopVar (name : pyval)
| PushGlobalVar (name : pyval)
| PopGlobalVar (name : pyval)
| PushClosureVar (name : pyval)
| PopClosureVar (name : pyval)
| JumpIfFalse (label : string)
| JumpAlways (label : string)
| PushFunc (name : pyval)
| PushTailFunc (name : pyval)
| PopFunc
| CreateFunc (params : pyval) (body : node)
| CallPyFunc (f : native) (arity : nat)
| ReadInput
| Evaluate
| Noop
| Missing (n : node).

(** [hex(n)] *)
Definition hex_digit (n : N) : ascii :=
  match n with
  | 0 => "0" | 1 => "1" | 2 => "2" | 3 => "3" | 4 => "4" | 5 => "5"
  | 6 => "6" | 7 => "7" | 8 => "8" | 9 => "9" | 10 => "a" | 11 => "b"
  | 12 => "c" | 13 => "d" | 14 => "e" | _ => "f"
  end%N%char.

Fixpoint hex_digits (fuel : nat) (n : N) (acc : string) : string :=
  match fuel with
  | O => acc
  | S f =>
      let acc' := String (hex_digit (n mod 16)) acc in
      if (n <? 16)%N then acc' else hex_digits f (n / 16)%N acc'
  end.

Definition hex (n : N) : string :=
  "0x" +:+ hex_digits (S (N.to_nat (N.size n))) n "".

(** What iterating a node produces: the opcodes yielded, and how the
    generator ends. *)
Definition emitted : Type := list inst * res unit.

Definition yield (i : inst) : emitted := ([i], Ok tt).

Definition then_ (a b : emitted) : emitted :=
  match a with
  | (l, Ok _) => ((l ++ fst b)%list, snd b)
  | _ => a
  end.

Definition yield_all (l : list emitted) : emitted :=
  fold_right then_ ([], Ok tt) l.

(** An opcode whose operand is an attribute read that may fail. *)
Definition yield_with {A} (r : res A) (k : A -> emitted) : emitted :=
  match r with
  | Ok a => k a
  | Raise e => ([], Raise e)
  | Unmodelled => ([], Unmodelled)
  | NoFuel => ([], NoFuel)
  end.

(** The label names of [While.__iter__] and [IfElse.__iter__]: a prefix
    that tells the kind, then [hex(id(self))]. ([IfElse.__iter__] also
    builds an [ifbody-] name and never emits it.) *)
Inductive label_kind := LoopStart | LoopEnd | ElseBody | IfEnd.

Definition label_prefix (k : label_kind) : string :=
  match k with
  | LoopStart => "loop-start-"
  | LoopEnd => "loop-end-"
  | ElseBody => "elsebody-"
  | IfEnd => "end-"
  end.

Definition label_name (k : label_kind) (a : N) : string := label_prefix k +:+ hex a.

Section Compiler.
(** [id]: the address of the node object at a position of the tree, a
    position being the path of [children] indices from the root. The
    node type has no identity of its own; the placement in memory is this
    parameter. *)
Variable id : list nat -> N.

Section Children.
Variable iter : list nat -> node -> emitted.
Variable pos : list nat.

(** [iter] of the children from index [i] on, in order. *)
Fixpoint each_from (i : nat) (children : list node) : list emitted :=
  match children with
  | [] => []
  | c :: r => iter (pos ++ [i])%list c :: each_from (S i) r
  end.
End Children.

(** [iter(n)] for the node at position [pos]. *)
Fixpoint iter (pos : list nat) (n : node) : emitted :=
  let child (i : nat) (c : node) := iter (pos ++ [i])%list c in
  match n with
  | Comment => yield Noop
  | Suite children => yield_all (each_from iter pos 0 children)
  | Set_ name value =>
      then_ (child 1 value)
        (yield_with (value_of name) (fun v =>
           then_ (yield (PopVar v))
             (yield_with (value_of name) (fun v => yield (PushVar v)))))
  | Setg name value =>
      then_ (child 1 value)
        (yield_with (value_of name) (fun v =>
           then_ (yield (PopGlobalVar v))
             (yield_with (value_of name) (fun v => yield (PushGlobalVar v)))))
  | Setc name value =>
      then_ (child 1 value)
        (yield_with (value_of name) (fun v =>
           then_ (yield (PopClosureVar v))
             (yield_with (value_of name) (fun v => yield (PushClosureVar v)))))
  | Ret value => then_ (child 0 value) (yield PopFunc)
  | List values =>
      then_ (yield_all (rev (each_from iter pos 0 values)))
        (yield (CallPyFunc List_build (length values)))
  | Cons car cdr =>
      then_ (child 1 cdr) (then_ (child 0 car) (yield (CallPyFunc cons_pair 2)))
  | Car operand => then_ (child 0 operand) (yield (CallPyFunc item0 1))
  | Cdr operand => then_ (child 0 operand) (yield (CallPyFunc item1 1))
  | Assert cond msg =>
      then_ (child 1 msg) (then_ (child 0 cond) (yield (CallPyFunc check_assert 2)))
  | Unop op arg => then_ (child 0 arg) (yield (CallPyFunc (unary op) 1))
  | Binop op lhs rhs =>
      then_ (child 1 rhs) (then_ (child 0 lhs) (yield (CallPyFunc (binary op) 2)))
  | Pyfunc f args =>
      then_ (yield_all (rev (each_from iter pos 0 args)))
        (yield (CallPyFunc (builtin f) (length args)))
  | Var name => yield (PushVar (PStr name))
  | Atom v => yield (PushImm v)
  | Nil => yield (PushImm PNone)
  | True_ => yield (PushImm (PBool true))
  | False_ => yield (PushImm (PBool false))
  | While cond body =>
      then_ (yield (Label (label_name LoopStart (id pos))))
        (then_ (child 0 cond)
           (then_ (yield (JumpIfFalse (label_name LoopEnd (id pos))))
              (then_ (child 1 body)
                 (then_ (yield (JumpAlways (label_name LoopStart (id pos))))
                    (yield (Label (label_name LoopEnd (id pos))))))))
  | IfElse cond ifbody elsebody =>
      then_ (child 0 cond)
        (match elsebody with
         | Some eb =>
             then_ (yield (JumpIfFalse (label_name ElseBody (id pos))))
               (then_ (child 1 ifbody)
                  (then_ (yield (JumpAlways (label_name IfEnd (id pos))))
                     (then_ (yield (Label (label_name ElseBody (id pos))))
                        (then_ (child 2 eb)
                           (yield (Label (label_name IfEnd (id pos))))))))
         | None =>
             then_ (yield (JumpIfFalse (label_name IfEnd (id pos))))
               (then_ (child 1 ifbody) (yield (Label (label_name IfEnd (id pos)))))
         end)
  | Call name args =>
      then_ (yield_all (rev (each_from iter pos 1 args)))
        (yield_with (value_of name) (fun v => yield (PushFunc v)))
  | TailCall name args =>
      then_ (yield_all (rev (each_from iter pos 1 args)))
        (yield_with (value_of name) (fun v => yield (PushTailFunc v)))
  | Lambda ps body => yield_with (value_of ps) (fun v => yield (CreateFunc v body))
  | Read => yield ReadInput
  | Parse expr => then_ (child 0 expr) (yield (CallPyFunc reader_parse 1))
  | Eval expr => then_ (child 0 expr) (yield Evaluate)
  | NotImplemented _ | Params _ | Cell _ _ | Name _ | Ufunc _ _ _ _ =>
      yield (Missing n)            (* [Node.__iter__] *)
  | UfuncClass _ _ _ => ([], Raise TypeError)   (* a class is not iterable *)
  | Mapping _ => ([], Unmodelled)              (* iterating a dict yields its keys *)
  end.
End Compiler.

(** * The vocabulary of the properties *)

(** A host about which nothing is assumed: every call into the reader or
    into Python's formatting is left undetermined. *)
Definition bare_host : host :=
  mkhost (fun _ => Unmodelled) (fun _ => Unmodelled)
         (fun _ _ => Unmodelled) (fun _ => Unmodelled).

(** Classify a token tree, then evaluate the node. *)
Definition run (H : host) (scoping : Scoping) (fuel : nat) (t : tree)
    (e : env) (s : state) : state * res node :=
  match snd (parse t) with
  | Ok n => eval H scoping fuel n e s
  | Raise x => (s, Raise x)
  | Unmodelled => (s, Unmodelled)
  | NoFuel => (s, NoFuel)
  end.

(** The integer [z] as [Decimal(str(z))]. *)
Definition int (z : Z) : Decimal.t := Decimal.mk (z <? 0)%Z (Z.abs_N z) 0.

(** The token of a double-quoted string literal. *)
Definition quoted (s : string) : tree :=
  TStr (String dquote (s +:+ String dquote EmptyString)).

Definition is_some {A} (o : option A) : bool :=
  match o with Some _ => true | None => false end.

(** The head tokens that a rule of [Node.parse] before the call rules
    claims. *)
Definition reserved (hd : string) : bool :=
  String.eqb hd "set" || String.eqb hd "setg" || String.eqb hd "setc"
  || String.eqb hd "ret" || String.eqb hd "lambda"
  || is_some (comparisons hd) || is_some (ops hd) || is_some (pyfuncs hd)
  || String.eqb hd "assert" || String.eqb hd "list" || String.eqb hd "cons"
  || String.eqb hd "car" || String.eqb hd "cdr" || String.eqb hd "if"
  || String.eqb hd "while" || String.eqb hd "parse" || String.eqb hd "quoted"
  || String.eqb hd "eval" || String.eqb hd "read".

(** The objects that have [car] and [cdr] attributes. *)
Definition pair_like (n : node) : bool :=
  match n with
  | Cell _ _ | Cons _ _ => true
  | _ => false
  end.

(** The rational value of [d] equals [m / 2^k] for some integers: it is a
    number that a binary floating-point format can hold. *)
Definition dyadic (d : Decimal.t) : Prop :=
  exists m k : N,
    (Decimal.coeff d * Decimal.pow10 (Decimal.exp d) * 2 ^ k
     = m * Decimal.pow10 (- Decimal.exp d))%N.

(** The coefficient of a [Decimal] with its sign. *)
Definition signed (d : Decimal.t) : Z :=
  if Decimal.sign d then (- Z.of_N (Decimal.coeff d))%Z else Z.of_N (Decimal.coeff d).

(** The number that a finite [Decimal] denotes:
    [(-1)^sign * coeff * 10^exp]. *)
Definition exact (d : Decimal.t) : Q := (inject_Z (signed d) * 10 ^ Decimal.exp d)%Q.

(** The decimals that the context can hold: at most 28 digits of
    coefficient, at an exponent not below the smallest one. *)
Definition representable (d : Decimal.t) : Prop :=
  (Decimal.coeff d < 10 ^ 28)%N /\ (Decimal.Etiny <= Decimal.exp d)%Z.

(** [r] is the number [q] rounded half-even to the precision of the
    context: a representable decimal, as near to [q] as any representable
    decimal is, and of even coefficient when another one is as near. *)
Definition rounded (q : Q) (r : Decimal.t) : Prop :=
  representable r
  /\ (forall r', representable r' -> (Qabs (exact r - q) <= Qabs (exact r' - q))%Q)
  /\ (forall r', representable r' -> ~ (exact r' == exact r)%Q ->
        (Qabs (exact r' - q) == Qabs (exact r - q))%Q ->
        N.even (Decimal.coeff r) = true).

(** What an arithmetic node computes for the number [q]: the atom of [q]
    rounded, in the state [s] it started from, or the decimal [Overflow]
    when [q] is too large for the exponent range. *)
Definition computes (s : state) (q : Q) (out : state * res node) : Prop :=
  (exists r, out = (s, Ok (Atom (PDec r))) /\ rounded q r)
  \/ (out = (s, Raise (DecimalException Decimal.Overflow))
      /\ (10 ^ Decimal.Emax <= Qabs q)%Q).

(** [Decimal('0.3333333333333333333333333333')] *)
Definition third : Decimal.t := Decimal.mk false 3333333333333333333333333333 (-28).

(** The value of a hexadecimal digit. *)
Definition hex_val (c : ascii) : N :=
  (if Ascii.eqb c "0" then 0 else if Ascii.eqb c "1" then 1
   else if Ascii.eqb c "2" then 2 else if Ascii.eqb c "3" then 3
   else if Ascii.eqb c "4" then 4 else if Ascii.eqb c "5" then 5
   else if Ascii.eqb c "6" then 6 else if Ascii.eqb c "7" then 7
   else if Ascii.eqb c "8" then 8 else if Ascii.eqb c "9" then 9
   else if Ascii.eqb c "a" then 10 else if Ascii.eqb c "b" then 11
   else if Ascii.eqb c "c" then 12 else if Ascii.eqb c "d" then 13
   else if Ascii.eqb c "e" then 14 else 15)%N.

(** The number that a string of hexadecimal digits denotes. *)
Fixpoint hex_value (s : string) : N :=
  match s with
  | EmptyString => 0
  | String c r => (hex_val c * 16 ^ N.of_nat (String.length r) + hex_value r)%N
  end.

(** The names of the [Label] opcodes of an emission, in order. *)
Definition labels (out : emitted) : list string :=
  omap (fun i => match i with Label s => Some s | _ => None end) (fst out).

(** The children nodes that [iter] descends into. *)
Fixpoint height (n : node) : nat :=
  match n with
  | Suite cs | List cs | Pyfunc _ cs | Call _ cs | TailCall _ cs =>
      S (fold_right (fun c m => Nat.max (height c) m) 0 cs)
  | Set_ _ v | Setg _ v | Setc _ v | Ret v | Car v | Cdr v | Unop _ v
  | Parse v | Eval v => S (height v)
  | Cons a b | Assert a b | Binop _ a b | While a b => S (Nat.max (height a) (height b))
  | IfElse c i e =>
      S (Nat.max (height c)
           (Nat.max (height i) (match e with Some x => height x | None => 0 end)))
  | _ => 0
  end.

(** [owned pos R out]: the labels of [out] are pairwise distinct, and each
    is the name of a kind [k] for the node at a position [pos ++ q], with
    [R k q]. *)
Definition owned (id : list nat -> N) (pos : list nat) (R : label_kind -> list nat -> Prop)
    (out : emitted) : Prop :=
  NoDup (labels out)
  /\ forall s, s ∈ labels out ->
       exists k q, R k q /\ s = label_name k (id (pos ++ q)%list).

(** Owner sets: the node itself for one kind of label, the subtree of the
    child at index [i], nothing, a union. *)
Definition own (k0 : label_kind) : label_kind -> list nat -> Prop :=
  fun k q => k = k0 /\ q = [].

Definition below (i : nat) : label_kind -> list nat -> Prop :=
  fun _ q => head q = Some i.

Definition nowhere : label_kind -> list nat -> Prop := fun _ _ => False.

Definition either (R R' : label_kind -> list nat -> Prop) :=
  fun k q => R k q \/ R' k q.

(** An injective placement: every position gets its own address. *)
Definition spread (p : list nat) : N := Npos (encode p).

(** ** The vocabulary of the further properties *)

(** The nodes whose [__call__] returns [self]. *)
Definition self_evaluating (n : node) : bool :=
  match n with
  | Atom _ | Nil | True_ | False_ | Cell _ _ | Name _ | Params _ => true
  | _ => false
  end.

(** ** The native helpers of the compiled path

    The two module-level callables that [__iter__] hands to [CallPyFunc]
    and that have a counterpart in a [__call__] method. *)
Module Native.
(** [check_assert(cond, msg)] *)
Definition check_assert (cond msg : pyval) : res node :=
  if truthy cond then Ok Nil else Raise (ProgramError (Message msg)).

(** [List.build( *vals)]: 2-tuples nested to the right, ended by [None]. *)
Definition build (vals : list pyval) : res pyval :=
  match rev vals with
  | [] => Raise IndexError
  | x :: r => Ok (fold_left (fun rv v => PPair v rv) r (PPair x PNone))
  end.
End Native.

(** The nodes that [Node.parse] can return: the operands are themselves
    classified, a binding form or a call holds a [Name], a lambda holds its
    [Params], an atom holds a number, a string or a quoted node. *)
Fixpoint classified (n : node) : bool :=
  match n with
  | Atom (PDec _) | Atom (PStr _) => true
  | Atom (PNode q) => classified q
  | Nil | True_ | Var _ | Read => true
  | Suite cs | Pyfunc _ cs => forallb classified cs
  | List cs => negb (Nat.eqb (length cs) 0) && forallb classified cs
  | Set_ (Name _) v | Setg (Name _) v | Setc (Name _) v => classified v
  | Ret v | Car v | Cdr v | Unop _ v | Parse v | Eval v => classified v
  | Cons a b | Assert a b | Binop _ a b | While a b => classified a && classified b
  | IfElse c i e =>
      classified c && classified i
      && match e with Some x => classified x | None => true end
  | Call (Name (TStr _)) args | TailCall (Name (TStr _)) args => forallb classified args
  | Lambda (Params _) body => classified body
  | _ => false
  end.

(** The exceptions that classification raises: Python's own, from
    unpacking, dict and list access, calls, [literal_eval] and [Decimal]. *)
Definition parse_raises (e : exn) : bool :=
  match e with
  | ValueError | KeyError | TypeError | IndexError | SyntaxError
  | DecimalException Decimal.InvalidOperation => true
  | _ => false
  end.

(** An outcome of classification: a result accepted by [ok], one of the
    exceptions above, or a string literal that the embedding leaves
    undetermined. *)
Definition outcome {A} (ok : A -> bool) (r : res A) : bool :=
  match r with
  | Ok a => ok a
  | Raise e => parse_raises e
  | Unmodelled => true
  | NoFuel => false
  end.

(** The token trees on which [literal_eval] is determined here: every
    token that starts and ends with a double quote holds, between the two,
    only printable ASCII characters other than the quote and the
    backslash. *)
Fixpoint plain_literals (t : tree) : bool :=
  match t with
  | TStr s =>
      negb (startswith dquote s && endswith dquote s)
      || all_chars plain_char (drop_last (tail s))
  | TList ts => forallb plain_literals ts
  end.

(** Classification ended: in a result accepted by [ok] or in one of the
    exceptions of [parse_raises]. *)
Definition classifies {A} (ok : A -> bool) (r : res A) : bool :=
  match r with
  | Ok a => ok a
  | Raise e => parse_raises e
  | Unmodelled | NoFuel => false
  end.

(** What the cases of the classifier assume of its recursive calls. *)
Definition sound (p : tree -> tree * res node) (x : tree) : Prop :=
  outcome classified (snd (p x)) = true.


(** The targets of the jump opcodes of an emission, in order. *)
Definition jumps (out : emitted) : list string :=
  omap (fun i => match i with
                 | JumpIfFalse s | JumpAlways s => Some s
                 | _ => None
                 end) (fst out).

(** An emission that ran to its end and holds no [Missing] placeholder. *)
Definition complete (out : emitted) : Prop :=
  snd out = Ok tt
  /\ forallb (fun i => match i with Missing _ => false | _ => true end) (fst out) = true.

(** Every jump of the emission has its label in the emission. *)
Definition closed (out : emitted) : Prop := forall l, l ∈ jumps out -> l ∈ labels out.

(** No list of the tree has a head token that starts with the tail-call
    marker. *)
Fixpoint unmarked (t : tree) : bool :=
  match t with
  | TStr _ => true
  | TList ts =>
      match ts with
      | TStr hd :: _ => negb (startswith "^" hd)
      | _ => true
      end && forallb unmarked ts
  end.

(** The head tokens whose [parse] unpacks the list into a fixed number of
    names ([_, name, value = tree] and the like), with the number of
    operands that the unpacking demands. *)
Definition unpacked (hd : string) : option nat :=
  if String.eqb hd "set" || String.eqb hd "setg" || String.eqb hd "setc"
     || String.eqb hd "lambda" || is_some (comparisons hd)
     || String.eqb hd "assert" || String.eqb hd "cons" then Some 2
  else if String.eqb hd "ret" || String.eqb hd "car" || String.eqb hd "cdr"
          || String.eqb hd "parse" || String.eqb hd "eval" then Some 1
  else None.

(** The binding of [k] in the first of the frames [ids] that has one. *)
Definition first_binding (fs : list (gmap string node)) (ids : list nat) (k : string)
  : option node :=
  head (omap (fun f => fs !! f ≫= (.!! k)) ids).

(** The frames of the caller's chain that the body of a callee without
    captured frames can read: [env.maps[-1]] under lexical scoping, the
    whole chain otherwise. *)
Definition visible (sc : Scoping) (l : nat) (rest : list nat) : list nat :=
  match sc with
  | LEXICAL => [List.last rest l]
  | DYNAMIC => l :: rest
  end.

(** * Properties *)

(** ** Decimal numbers *)

Example Decimal_of_string_1_50 :
  Decimal.of_string "-1.50" = Decimal.Finite (Decimal.mk true 150 (-2)).
Proof. reflexivity. Qed.

Example Decimal_of_string_empty :
  Decimal.of_string "" = Decimal.Trap Decimal.InvalidOperation.
Proof. reflexivity. Qed.

Example Decimal_div_1_3 :
  Decimal.truediv (Decimal.mk false 1 0) (Decimal.mk false 3 0)
  = Decimal.Finite (Decimal.mk false 3333333333333333333333333333 (-28)).
Proof. vm_compute. reflexivity. Qed.

Example Decimal_div_6_3 :
  Decimal.truediv (Decimal.mk false 6 0) (Decimal.mk false 3 0)
  = Decimal.Finite (Decimal.mk false 2 0).
Proof. vm_compute. reflexivity. Qed.

Example Decimal_div_2_3 :
  Decimal.truediv (Decimal.mk false 2 0) (Decimal.mk false 3 0)
  = Decimal.Finite (Decimal.mk false 6666666666666666666666666667 (-28)).
Proof. vm_compute. reflexivity. Qed.

(** ** The classifier *)

Lemma parse_nil : parse (TStr "nil") = (TStr "nil", Ok Nil).
Proof. reflexivity. Qed.

Lemma parse_true : parse (TStr "true") = (TStr "true", Ok True_).
Proof. reflexivity. Qed.

(** C1: the leaf [false] should give the singleton [False_] node. The
    source returns [Var(tree)] before it reaches the test for ['false'], so
    the leaf is classified as a reference to a variable named [false]. *)
Theorem parse_false_is_Var :
  parse (TStr "false") = (TStr "false", Ok (Var "false"))
  /\ snd (parse (TStr "false")) <> Ok False_.
Proof. split; [reflexivity | discriminate]. Qed.

(** Every row of [ops] except [not] holds classes whose [parse] takes the
    number of operands the row is filed under. *)
Lemma parse_pos (x : tree) :
  snd (parse (TList [TStr "+"; x])) = res_bind (snd (parse x)) (fun n => Ok (Unop Op.Pos n)).
Proof. cbn. destruct (parse x) as [x' []]; reflexivity. Qed.

Lemma parse_neg (x : tree) :
  snd (parse (TList [TStr "-"; x])) = res_bind (snd (parse x)) (fun n => Ok (Unop Op.Neg n)).
Proof. cbn. destruct (parse x) as [x' []]; reflexivity. Qed.

(** C7: [(not x)] should classify as a unary negation node. The [ops] table
    files [Not] under one operand, but [Not] is made by [create_binop]: its
    [parse] unpacks three elements from the two-element list and raises
    [ValueError], whatever the operand. *)
Theorem parse_not_raises (x : tree) :
  parse (TList [TStr "not"; x]) = (TList [TStr "not"; x], Raise ValueError).
Proof. reflexivity. Qed.

(** A [Not] node built directly fares no better: [operator.not_] is called
    with two arguments. *)
Lemma binop_Not_TypeError (a b : pyval) : binop Op.Not a b = Raise TypeError.
Proof. reflexivity. Qed.

Lemma parse_plain_head (hd : string) (args : list tree) :
  reserved hd = false ->
  parse (TList (TStr hd :: args)) =
  (TList (fst (call_or_tailcall parse hd args)), snd (call_or_tailcall parse hd args)).
Proof.
  unfold reserved. intros HR.
  repeat (apply orb_false_iff in HR; destruct HR as [HR ?]).
  cbn [parse forallb is_list andb].
  repeat match goal with E : String.eqb hd _ = false |- _ => rewrite E; clear E end.
  destruct (comparisons hd); [discriminate|].
  destruct (ops hd); [discriminate|].
  destruct (pyfuncs hd); [discriminate|].
  destruct args; destruct (call_or_tailcall parse hd _); reflexivity.
Qed.

Lemma marked_not_reserved (hd : string) : startswith "^" hd = true -> reserved hd = false.
Proof.
  destruct hd as [|a r]; [discriminate|]. cbn [startswith]. intros E.
  apply Ascii.eqb_eq in E. subst a. reflexivity.
Qed.

(** C10, counterexample: a head with two markers loses one per
    classification, so the second classification of the same tree is again
    a tail call. *)
Lemma parse_twice_double_marker :
  startswith "^" "^^f" = true
  /\ parse (TList [TStr "^^f"]) = (TList [TStr "^f"], Ok (TailCall (Name (TStr "^f")) []))
  /\ snd (parse (fst (parse (TList [TStr "^^f"])))) = Ok (TailCall (Name (TStr "f")) []).
Proof. repeat split; reflexivity. Qed.

(** C10, amended: classifying a list whose head starts with the marker
    strips one marker character from the head in place and yields a
    tail-call node; when the stripped head neither starts with the marker
    nor is a reserved head token, classifying the tree again yields an
    ordinary call node (over the re-classified arguments). *)
Theorem parse_strips_marker (hd : string) (args : list tree) :
  startswith "^" hd = true ->
  let first := parse (TList (TStr hd :: args)) in
  fst first = TList (TStr (tail hd) :: fst (parse_each parse args))
  /\ snd first =
       res_bind (snd (parse_each parse args))
                (fun ns => Ok (TailCall (Name (TStr (tail hd))) ns))
  /\ (startswith "^" (tail hd) = false -> reserved (tail hd) = false ->
       snd (parse (fst first)) =
       res_bind (snd (parse_each parse (fst (parse_each parse args))))
                (fun ns => Ok (Call (Name (TStr (tail hd))) ns))).
Proof.
  intros Hm. cbn zeta.
  rewrite (parse_plain_head hd args (marked_not_reserved hd Hm)).
  unfold call_or_tailcall. rewrite Hm. unfold Call_parse.
  destruct (parse_each parse args) as [args' r]. cbn [fst snd].
  split; [reflexivity | split; [reflexivity |]].
  intros Hn Hr. rewrite (parse_plain_head _ _ Hr).
  unfold call_or_tailcall. rewrite Hn. unfold Call_parse.
  destruct (parse_each parse args') as [args'' r']. reflexivity.
Qed.

(** The marker on [(^f nil)]: a tail call first, a call the second time. *)
Lemma parse_strips_marker_witness :
  snd (parse (TList [TStr "^f"; TStr "nil"])) = Ok (TailCall (Name (TStr "f")) [Nil])
  /\ snd (parse (fst (parse (TList [TStr "^f"; TStr "nil"])))) = Ok (Call (Name (TStr "f")) [Nil]).
Proof.
  destruct (parse_strips_marker "^f" [TStr "nil"] eq_refl) as (_ & H1 & H2).
  split; [exact H1 | exact (H2 eq_refl eq_refl)].
Defined.

(** ** Errors *)

(** A reference to a name that no frame of the environment binds raises
    [ProgramError]. *)
Lemma Var_unbound (H : host) (sc : Scoping) (fuel : nat) (name : string)
    (e : env) (s : state) :
  getitem (frames s) e name = Raise KeyError ->
  eval H sc (S fuel) (Var name) e s = (s, Raise (ProgramError (UnknownName (PStr name)))).
Proof.
  intros Hk. cbn [eval]. unfold except_KeyError, bind, lookup. rewrite Hk. reflexivity.
Qed.

(** C2: [(assert false "boom")] should raise [ProgramError] carrying
    ["boom"]. The token [false] is classified as a variable reference, not
    as the [False_] node, so where no frame binds that name the condition
    itself raises [ProgramError], carrying the unknown-name message, and the
    message operand is never evaluated. *)
Theorem assert_false_boom (H : host) (sc : Scoping) (fuel : nat) :
  let program := TList [TStr "assert"; TStr "false"; quoted "boom"] in
  let s := mkstate [∅] [] [] in
  snd (parse program) = Ok (Assert (Var "false") (Atom (PStr "boom")))
  /\ run H sc (S (S fuel)) program (EDict 0) s
     = (s, Raise (ProgramError (UnknownName (PStr "false"))))
  /\ snd (run H sc (S (S fuel)) program (EDict 0) s)
     <> Raise (ProgramError (Message (PStr "boom"))).
Proof.
  cbn zeta. split; [reflexivity|].
  assert (E : run H sc (S (S fuel)) (TList [TStr "assert"; TStr "false"; quoted "boom"])
                (EDict 0) (mkstate [∅] [] [])
              = (mkstate [∅] [] [], Raise (ProgramError (UnknownName (PStr "false")))))
    by reflexivity.
  rewrite E. split; [reflexivity | discriminate].
Qed.

(** With the condition written as the node the claim intends, the
    assertion does carry its message. *)
Lemma Assert_False_message (H : host) (sc : Scoping) (fuel : nat) (e : env)
    (s : state) (v : pyval) :
  eval H sc (S (S fuel)) (Assert False_ (Atom v)) e s
  = (s, Raise (ProgramError (Message v))).
Proof. reflexivity. Qed.

(** C5, counterexample: [(car 1)] ends in [AttributeError], which is not a
    [ProgramError]. *)
Lemma car_of_number :
  let s := mkstate [∅] [] [] in
  run bare_host LEXICAL 2 (TList [TStr "car"; TStr "1"]) (EDict 0) s
  = (s, Raise AttributeError).
Proof. reflexivity. Qed.

(** C5, amended: a [car] or [cdr] node whose operand evaluates to something
    other than a pair fails with Python's [AttributeError], an error kind
    different from [ProgramError]; on a pair cell they return its first and
    second element. *)
Theorem car_cdr_operand (H : host) (sc : Scoping) (fuel : nat) (operand : node)
    (e : env) (s s' : state) (v : node) :
  eval H sc fuel operand e s = (s', Ok v) ->
  (pair_like v = false ->
     eval H sc (S fuel) (Car operand) e s = (s', Raise AttributeError)
     /\ eval H sc (S fuel) (Cdr operand) e s = (s', Raise AttributeError))
  /\ (forall a b, v = Cell a b ->
     eval H sc (S fuel) (Car operand) e s = (s', Ok a)
     /\ eval H sc (S fuel) (Cdr operand) e s = (s', Ok b)).
Proof.
  intros Hv. split.
  - intros Hp. cbn [eval]. unfold bind. rewrite Hv.
    destruct v; try discriminate Hp; split; reflexivity.
  - intros a b ->. cbn [eval]. unfold bind. rewrite Hv. split; reflexivity.
Qed.

(** [nil] is not a pair. *)
Lemma car_cdr_operand_witness :
  let s := mkstate [∅] [] [] in
  eval bare_host LEXICAL 2 (Car Nil) (EDict 0) s = (s, Raise AttributeError)
  /\ eval bare_host LEXICAL 2 (Cdr Nil) (EDict 0) s = (s, Raise AttributeError).
Proof.
  exact (proj1 (car_cdr_operand bare_host LEXICAL 1 Nil (EDict 0)
                  (mkstate [∅] [] []) (mkstate [∅] [] []) Nil eq_refl) eq_refl).
Defined.

(** ** Arithmetic on exact decimal numbers *)

Lemma double_mod5 (n : N) : ((2 * n) mod 5 = 0 -> n mod 5 = 0)%N.
Proof.
  intros E.
  pose proof (N.Div0.div_mod n 5) as D0.
  pose proof (N.mod_upper_bound n 5 ltac:(discriminate)) as B0.
  pose proof (N.Div0.div_mod (2 * n) 5) as D1.
  rewrite E in D1. clear E.
  generalize dependent (n mod 5)%N. generalize dependent (n / 5)%N.
  generalize dependent (2 * n / 5)%N. intros; lia.
Qed.

Lemma triple_mod5 (n : N) : ((3 * n) mod 5 = 0 -> n mod 5 = 0)%N.
Proof.
  intros E.
  pose proof (N.Div0.div_mod n 5) as D0.
  pose proof (N.mod_upper_bound n 5 ltac:(discriminate)) as B0.
  pose proof (N.Div0.div_mod (3 * n) 5) as D1.
  rewrite E in D1. clear E.
  generalize dependent (n mod 5)%N. generalize dependent (n / 5)%N.
  generalize dependent (3 * n / 5)%N. intros; lia.
Qed.

Lemma pow2_mod5 (k : N) : ((2 ^ k) mod 5 <> 0)%N.
Proof.
  induction k as [|k IH] using N.peano_ind; [discriminate|].
  rewrite N.pow_succ_r'. intros E. apply IH, double_mod5, E.
Qed.

Lemma third_not_dyadic : ~ dyadic third.
Proof.
  intros (m & k & E).
  change (3333333333333333333333333333 * 1 * 2 ^ k
          = m * 10000000000000000000000000000)%N in E.
  apply (pow2_mod5 k), triple_mod5.
  transitivity ((3333333333333333333333333333 * 1 * 2 ^ k) mod 5)%N.
  - rewrite N.mul_1_r, <- (N.Div0.mul_mod_idemp_l 3333333333333333333333333333).
    reflexivity.
  - rewrite E.
    replace (m * 10000000000000000000000000000)%N
      with (m * 2000000000000000000000000000 * 5)%N by lia.
    apply N.Div0.mod_mul.
Qed.

(** *** What the arithmetic computes *)

Section DecimalDigits.
Local Open Scope Z_scope.

Lemma pow10_Z (k : Z) : 0 <= k -> Z.of_N (Decimal.pow10 k) = 10 ^ k.
Proof.
  intros Hk. unfold Decimal.pow10. rewrite N2Z.inj_pow, Z2N.id by exact Hk. reflexivity.
Qed.

Lemma pow10_succ (k : Z) : 1 <= k -> 10 ^ k = 10 * 10 ^ (k - 1).
Proof.
  intros Hk. replace k with (Z.succ (k - 1)) at 1 by lia. apply Z.pow_succ_r. lia.
Qed.

Lemma pow10_pos (k : Z) : 0 < 10 ^ k \/ k < 0.
Proof. destruct (Z_lt_le_dec k 0); [right; assumption | left; apply Z.pow_pos_nonneg; lia]. Qed.

Lemma ndigits_aux_spec (fuel : nat) (n : N) :
  0 < Z.of_N n -> Z.of_N n < 2 ^ Z.of_nat fuel ->
  1 <= Decimal.ndigits_aux fuel n
  /\ 10 ^ (Decimal.ndigits_aux fuel n - 1) <= Z.of_N n < 10 ^ Decimal.ndigits_aux fuel n.
Proof.
  revert n. induction fuel as [|f IH]; intros n Hp Hb.
  - change (2 ^ Z.of_nat 0) with 1 in Hb. lia.
  - cbn [Decimal.ndigits_aux]. destruct (N.ltb_spec n 10) as [Hn | Hn].
    + change (10 ^ (1 - 1)) with 1. change (10 ^ 1) with 10. lia.
    + rewrite Nat2Z.inj_succ, Z.pow_succ_r in Hb by lia.
      assert (Hd : Z.of_N (n / 10) = Z.of_N n / 10) by apply N2Z.inj_div.
      pose proof (Z.div_mod (Z.of_N n) 10 ltac:(lia)) as Hm.
      pose proof (Z.mod_pos_bound (Z.of_N n) 10 ltac:(lia)) as Hr.
      generalize dependent (Z.of_N n / 10). generalize dependent (Z.of_N n mod 10).
      intros r Hr q Hq Hm.
      destruct (IH (n / 10)%N) as (H1 & H2 & H3); [lia | lia |].
      generalize dependent (Decimal.ndigits_aux f (n / 10)). intros d H1 H2 H3.
      replace (1 + d - 1) with d by lia.
      rewrite (pow10_succ (1 + d)) by lia. replace (1 + d - 1) with d by lia.
      rewrite (pow10_succ d) in * by lia.
      generalize dependent (10 ^ (d - 1)). intros; lia.
Qed.

(** [len(str(n))] is the number of decimal digits of [n]. *)
Lemma ndigits_spec (n : N) :
  (0 < n)%N ->
  1 <= Decimal.ndigits n
  /\ 10 ^ (Decimal.ndigits n - 1) <= Z.of_N n < 10 ^ Decimal.ndigits n.
Proof.
  intros Hn. apply ndigits_aux_spec; [lia|].
  rewrite N_nat_Z. pose proof (N.size_gt n) as Hs.
  apply N2Z.inj_lt in Hs. rewrite N2Z.inj_pow in Hs. exact Hs.
Qed.

Lemma ndigits_pos (n : N) : 1 <= Decimal.ndigits n.
Proof.
  destruct (N.eq_dec n 0%N) as [-> | Hn]; [discriminate|].
  apply ndigits_spec. lia.
Qed.

Lemma ndigits_le (n : N) (k : Z) : 1 <= k -> Z.of_N n < 10 ^ k -> Decimal.ndigits n <= k.
Proof.
  intros Hk Hn. destruct (N.eq_dec n 0%N) as [-> | Hz]; [exact Hk|].
  destruct (ndigits_spec n ltac:(lia)) as (H1 & H2 & _).
  destruct (Z_le_gt_dec (Decimal.ndigits n) k) as [|Hgt]; [assumption|].
  assert (10 ^ k <= 10 ^ (Decimal.ndigits n - 1)) by (apply Z.pow_le_mono_r; lia).
  lia.
Qed.

Lemma ndigits_lt (n : N) (k : Z) : Decimal.ndigits n <= k -> Z.of_N n < 10 ^ k.
Proof.
  intros Hk. destruct (N.eq_dec n 0%N) as [-> | Hz].
  - pose proof (ndigits_pos 0%N). change (Z.of_N 0) with 0. apply Z.pow_pos_nonneg; lia.
  - destruct (ndigits_spec n ltac:(lia)) as (H1 & _ & H3).
    assert (10 ^ Decimal.ndigits n <= 10 ^ k) by (apply Z.pow_le_mono_r; lia). lia.
Qed.

End DecimalDigits.

Section DecimalRounding.
Local Open Scope Z_scope.

(** Dropping [k] digits half-even: the kept digits are within half a unit
    of the coefficient, a tie goes to the even neighbour, and the flag tells
    whether the quotient was incremented. *)
Lemma round_half_even_spec (c : N) (k : Z) (c' : N) (ch : bool) :
  1 <= k ->
  Decimal.round_half_even c k = (c', ch) ->
  2 * Z.abs (Z.of_N c' * 10 ^ k - Z.of_N c) <= 10 ^ k
  /\ (2 * Z.abs (Z.of_N c' * 10 ^ k - Z.of_N c) = 10 ^ k -> Z.even (Z.of_N c') = true)
  /\ Z.of_N c / 10 ^ k <= Z.of_N c'
  /\ Z.of_N c' <= Z.of_N c / 10 ^ k + 1
  /\ (ch = false -> Z.of_N c' = Z.of_N c / 10 ^ k).
Proof.
  intros Hk. unfold Decimal.round_half_even.
  assert (Hm : Z.of_N (Decimal.pow10 k) = 10 ^ k) by (apply pow10_Z; lia).
  assert (Hh : Z.of_N (Decimal.pow10 (k - 1)) = 10 ^ (k - 1)) by (apply pow10_Z; lia).
  pose proof (pow10_succ k Hk) as Hs.
  assert (Hp : 0 < 10 ^ (k - 1)) by (apply Z.pow_pos_nonneg; lia).
  assert (Hq : Z.of_N (c / Decimal.pow10 k) = Z.of_N c / 10 ^ k)
    by (rewrite N2Z.inj_div, Hm; reflexivity).
  assert (Hr : Z.of_N (c mod Decimal.pow10 k) = Z.of_N c mod 10 ^ k)
    by (rewrite N2Z.inj_mod, Hm; reflexivity).
  pose proof (Z.div_mod (Z.of_N c) (10 ^ k) ltac:(lia)) as Hdm.
  pose proof (Z.mod_pos_bound (Z.of_N c) (10 ^ k) ltac:(lia)) as Hrb.
  assert (Ho : N.odd (c / Decimal.pow10 k) = Z.odd (Z.of_N c / 10 ^ k)).
  { rewrite <- Hq. destruct (c / Decimal.pow10 k)%N as [|[p|p|]]; reflexivity. }
  rewrite Ho. clear Ho.
  destruct (N.ltb_spec (5 * Decimal.pow10 (k - 1)) (c mod Decimal.pow10 k)) as [Hlt | Hge];
    cbn [orb].
  - intros E. injection E as <- <-. rewrite N2Z.inj_add, Hq. change (Z.of_N 1) with 1.
    generalize dependent (Z.of_N c / 10 ^ k). generalize dependent (Z.of_N c mod 10 ^ k).
    generalize dependent (10 ^ k). generalize dependent (10 ^ (k - 1)).
    intros h Hh Hp m Hm Hs r Hr Hrb q Hq Hdm. subst m. repeat split; try lia; discriminate.
  - destruct (N.eqb_spec (c mod Decimal.pow10 k) (5 * Decimal.pow10 (k - 1))) as [Heq | Hne];
      cbn [andb].
    + destruct (Z.odd (Z.of_N c / 10 ^ k)) eqn:Hodd.
      * intros E. injection E as <- <-. rewrite N2Z.inj_add, Hq. change (Z.of_N 1) with 1.
        split; [|split; [|repeat split; try lia; discriminate]].
        -- generalize dependent (Z.of_N c / 10 ^ k).
           generalize dependent (Z.of_N c mod 10 ^ k).
           generalize dependent (10 ^ k). generalize dependent (10 ^ (k - 1)).
           intros h Hh Hp m Hm Hs r Hr Hrb q Hq Hodd Hdm. subst m. lia.
        -- intros _. rewrite Z.even_add, <- Z.negb_odd, Hodd. reflexivity.
      * intros E. injection E as <- <-. rewrite Hq.
        split; [|split; [|repeat split; try lia; discriminate]].
        -- generalize dependent (Z.of_N c / 10 ^ k).
           generalize dependent (Z.of_N c mod 10 ^ k).
           generalize dependent (10 ^ k). generalize dependent (10 ^ (k - 1)).
           intros h Hh Hp m Hm Hs r Hr Hrb q Hq Hodd Hdm. subst m. lia.
        -- intros _. rewrite <- Z.negb_odd, Hodd. reflexivity.
    + intros E. injection E as <- <-. rewrite Hq.
      assert (Hne' : Z.of_N c mod 10 ^ k <> 5 * 10 ^ (k - 1)) by lia.
      generalize dependent (Z.of_N c / 10 ^ k). generalize dependent (Z.of_N c mod 10 ^ k).
      generalize dependent (10 ^ k). generalize dependent (10 ^ (k - 1)).
      intros h Hh Hp m Hm Hs r Hr Hrb Hne' q Hq Hdm. subst m. repeat split; try lia.
Qed.

(** [_fix]: the result is its argument, or its argument rounded at an
    exponent [g] above its own. [c1] is the rounded coefficient at [g]; a
    carry into a 29th digit moves the result one exponent up. Unless [g] is
    the smallest exponent, the coefficient had [prec] digits above [g]. *)
Lemma fix_Finite (d r : Decimal.t) :
  Decimal.fix_ d = Decimal.Finite r ->
  Decimal.sign r = Decimal.sign d
  /\ Z.of_N (Decimal.coeff r) < 10 ^ Decimal.prec
  /\ Decimal.Etiny <= Decimal.exp r
  /\ ((Decimal.coeff d = 0%N /\ Decimal.coeff r = 0%N)
      \/ r = d
      \/ exists k c1,
           1 <= k /\ Decimal.exp d + k <= Decimal.exp r
           /\ Z.of_N (Decimal.coeff r) * 10 ^ (Decimal.exp r - (Decimal.exp d + k)) = c1
           /\ 2 * Z.abs (c1 * 10 ^ k - Z.of_N (Decimal.coeff d)) <= 10 ^ k
           /\ (2 * Z.abs (c1 * 10 ^ k - Z.of_N (Decimal.coeff d)) = 10 ^ k ->
               Z.even (Z.of_N (Decimal.coeff r)) = true)
           /\ (Decimal.exp d + k = Decimal.Etiny
               \/ (10 ^ (Decimal.prec - 1) * 10 ^ k <= Z.of_N (Decimal.coeff d)
                   /\ 10 ^ (Decimal.prec - 1) <= c1))).
Proof.
  unfold Decimal.fix_. destruct d as [sg c E]. cbn [Decimal.coeff Decimal.exp Decimal.sign].
  destruct (N.eqb_spec c 0) as [-> | Hc].
  - intros E0. injection E0 as <-. cbn [Decimal.coeff Decimal.sign Decimal.exp].
    split; [reflexivity|]. split; [reflexivity|].
    split; [unfold Decimal.Etiny, Decimal.Emin, Decimal.Emax, Decimal.prec; lia|].
    left. split; reflexivity.
  - destruct (ndigits_spec c ltac:(lia)) as (Hn1 & Hn2 & Hn3).
    set (nd := Decimal.ndigits c) in *.
    destruct (Z.gtb_spec (nd + E - Decimal.prec) Decimal.Etop) as [|Htop]; [discriminate|].
    set (em := if (nd + E - Decimal.prec <? Decimal.Etiny) then Decimal.Etiny
               else nd + E - Decimal.prec).
    assert (Hem : nd + E - Decimal.prec <= em /\ Decimal.Etiny <= em
                  /\ (em = nd + E - Decimal.prec \/ em = Decimal.Etiny)).
    { subst em. destruct (Z.ltb_spec (nd + E - Decimal.prec) Decimal.Etiny); lia. }
    destruct (Z.ltb_spec E em) as [Hlt | Hge].
    2:{ intros E0. injection E0 as <-. cbn [Decimal.coeff Decimal.sign Decimal.exp].
        split; [reflexivity|]. split; [|split; [lia | right; left; reflexivity]].
        eapply Z.lt_le_trans; [exact Hn3|]. apply Z.pow_le_mono_r; lia. }
    destruct (Decimal.round_half_even c (em - E)) as [c1 ch] eqn:Er.
    destruct (round_half_even_spec c (em - E) c1 ch ltac:(lia) Er)
      as (Hb & Ht & Hlo & Hhi & Hch).
    assert (Hm : 0 < 10 ^ (em - E)) by (apply Z.pow_pos_nonneg; lia).
    assert (Hq : Z.of_N c / 10 ^ (em - E) < 10 ^ Decimal.prec).
    { apply Z.div_lt_upper_bound; [exact Hm|].
      rewrite <- Z.pow_add_r by (unfold Decimal.prec; lia).
      eapply Z.lt_le_trans; [exact Hn3|]. apply Z.pow_le_mono_r; lia. }
    assert (Hfull : E + (em - E) = Decimal.Etiny
                    \/ (10 ^ (Decimal.prec - 1) * 10 ^ (em - E) <= Z.of_N c
                        /\ 10 ^ (Decimal.prec - 1) <= Z.of_N c1)).
    { destruct Hem as (_ & _ & [Hem | Hem]); [right | left; lia].
      assert (Hc27 : 10 ^ (Decimal.prec - 1) * 10 ^ (em - E) <= Z.of_N c).
      { rewrite <- Z.pow_add_r by (unfold Decimal.prec; lia).
        eapply Z.le_trans; [|exact Hn2]. apply Z.pow_le_mono_r; lia. }
      split; [exact Hc27|].
      eapply Z.le_trans; [|exact Hlo]. apply Z.div_le_lower_bound; [exact Hm|].
      rewrite Z.mul_comm. exact Hc27. }
    destruct (ch && (Decimal.ndigits c1 >? Decimal.prec)) eqn:Ecarry.
    + apply andb_true_iff in Ecarry as [-> Hnd]. apply Z.gtb_lt in Hnd.
      assert (Hc1 : Z.of_N c1 = 10 ^ Decimal.prec).
      { assert (c1 <> 0%N) by (intros ->; vm_compute in Hnd; discriminate).
        destruct (ndigits_spec c1 ltac:(lia)) as (_ & Hl & _).
        assert (10 ^ Decimal.prec <= 10 ^ (Decimal.ndigits c1 - 1))
          by (apply Z.pow_le_mono_r; lia).
        lia. }
      destruct (Z.gtb_spec (em + 1) Decimal.Etop); [discriminate|].
      intros E0. injection E0 as <-. cbn [Decimal.coeff Decimal.sign Decimal.exp].
      assert (Hc10 : Z.of_N (c1 / 10) = 10 ^ (Decimal.prec - 1)).
      { rewrite N2Z.inj_div, Hc1. reflexivity. }
      rewrite Hc10. split; [reflexivity|]. split; [reflexivity|]. split; [lia|].
      right; right. exists (em - E), (Z.of_N c1). split; [lia|]. split; [lia|].
      split; [|split; [exact Hb | split; [reflexivity | exact Hfull]]].
      replace (em + 1 - (E + (em - E))) with 1 by lia. rewrite Hc1. reflexivity.
    + destruct (Z.gtb_spec em Decimal.Etop); [discriminate|].
      intros E0. injection E0 as <-. cbn [Decimal.coeff Decimal.sign Decimal.exp].
      split; [reflexivity|].
      assert (Hlt1 : Z.of_N c1 < 10 ^ Decimal.prec).
      { apply andb_false_iff in Ecarry as [-> | Hnd]; [rewrite Hch by reflexivity; exact Hq|].
        apply ndigits_lt. destruct (Z.gtb_spec (Decimal.ndigits c1) Decimal.prec);
          [discriminate | assumption]. }
      split; [exact Hlt1|]. split; [lia|]. right; right. exists (em - E), (Z.of_N c1).
      split; [lia|]. split; [lia|].
      split; [|split; [exact Hb | split; [exact Ht | exact Hfull]]].
      replace (em - (E + (em - E))) with 0 by lia. change (10 ^ 0) with 1. lia.
Qed.

Lemma fix_Trap (d : Decimal.t) (sg : Decimal.signal) :
  Decimal.fix_ d = Decimal.Trap sg ->
  sg = Decimal.Overflow /\ Decimal.coeff d <> 0%N
  /\ Decimal.Emax + 1 <= Decimal.ndigits (Decimal.coeff d) + Decimal.exp d.
Proof.
  unfold Decimal.fix_. destruct d as [s c E]. cbn [Decimal.coeff Decimal.exp Decimal.sign].
  destruct (N.eqb_spec c 0) as [-> | Hc]; [discriminate|].
  set (nd := Decimal.ndigits c).
  destruct (Z.gtb_spec (nd + E - Decimal.prec) Decimal.Etop) as [Htop | Htop].
  { intros E0. injection E0 as <-. unfold Decimal.Etop, Decimal.prec in *. repeat split; [exact Hc | lia]. }
  set (em := if (nd + E - Decimal.prec <? Decimal.Etiny) then Decimal.Etiny
             else nd + E - Decimal.prec).
  assert (Hem : em = nd + E - Decimal.prec \/ em = Decimal.Etiny).
  { subst em. destruct (Z.ltb_spec (nd + E - Decimal.prec) Decimal.Etiny); lia. }
  destruct (Z.ltb_spec E em); [|discriminate].
  destruct (Decimal.round_half_even c (em - E)) as [c1 ch].
  destruct (ch && (Decimal.ndigits c1 >? Decimal.prec)).
  - destruct (Z.gtb_spec (em + 1) Decimal.Etop) as [Hgt|]; [|discriminate].
    intros E0. injection E0 as <-. repeat split; [exact Hc|].
    unfold Decimal.Etop, Decimal.Etiny, Decimal.Emin, Decimal.Emax, Decimal.prec in *. lia.
  - destruct (Z.gtb_spec em Decimal.Etop) as [Hgt|]; [|discriminate].
    intros E0. injection E0 as <-. repeat split; [exact Hc|].
    unfold Decimal.Etop, Decimal.Etiny, Decimal.Emin, Decimal.Emax, Decimal.prec in *. lia.
Qed.

End DecimalRounding.

Section DecimalValues.
Local Open Scope Z_scope.

Lemma Qpow10_pos (e : Z) : (0 < 10 ^ e)%Q.
Proof. apply Qpower_0_lt. reflexivity. Qed.

Lemma Qpow10_add (a b : Z) : (10 ^ (a + b) == 10 ^ a * 10 ^ b)%Q.
Proof. apply Qpower_plus. discriminate. Qed.

Lemma Qpow10_Z (k : Z) : 0 <= k -> (10 ^ k == inject_Z (10 ^ k))%Q.
Proof. intros Hk. rewrite Zpower_Qpower by exact Hk. reflexivity. Qed.

Lemma Qpow10_le (a b : Z) : a <= b -> (10 ^ a <= 10 ^ b)%Q.
Proof. intros H. apply Qpower_le_compat_l; [exact H | discriminate]. Qed.

(** A coefficient at a higher exponent, brought down to a lower one. *)
Lemma inject_shift (z e k : Z) :
  0 <= k -> (inject_Z z * 10 ^ (e + k) == inject_Z (z * 10 ^ k) * 10 ^ e)%Q.
Proof.
  intros Hk. rewrite Qpow10_add, (Qpow10_Z k Hk), inject_Z_mult. ring.
Qed.

Lemma exact_at (d : Decimal.t) (e : Z) :
  e <= Decimal.exp d ->
  (exact d == inject_Z (signed d * 10 ^ (Decimal.exp d - e)) * 10 ^ e)%Q.
Proof.
  intros He. unfold exact. rewrite <- inject_shift by lia.
  replace (e + (Decimal.exp d - e)) with (Decimal.exp d) by lia. reflexivity.
Qed.

Lemma scaled_signed (d : Decimal.t) (e : Z) :
  e <= Decimal.exp d -> Decimal.scaled d e = signed d * 10 ^ (Decimal.exp d - e).
Proof.
  intros He. unfold Decimal.scaled, signed.
  rewrite N2Z.inj_mul, pow10_Z by lia. destruct (Decimal.sign d); ring.
Qed.

Lemma exact_scaled (d : Decimal.t) (e : Z) :
  e <= Decimal.exp d -> (exact d == inject_Z (Decimal.scaled d e) * 10 ^ e)%Q.
Proof. intros He. rewrite scaled_signed by exact He. apply exact_at, He. Qed.

Lemma abs_signed (d : Decimal.t) : Z.abs (signed d) = Z.of_N (Decimal.coeff d).
Proof. unfold signed. destruct (Decimal.sign d); lia. Qed.

Lemma Qabs_inject (z : Z) (P : Q) :
  (0 < P)%Q -> (Qabs (inject_Z z * P) == inject_Z (Z.abs z) * P)%Q.
Proof.
  intros HP. rewrite Qabs_Qmult, (Qabs_pos P) by (apply Qlt_le_weak, HP).
  apply Qmult_comp; [|reflexivity]. unfold inject_Z. symmetry. apply Zabs_Qabs.
Qed.

Lemma inject_le (a b : Z) (P : Q) :
  (0 < P)%Q -> a <= b -> (inject_Z a * P <= inject_Z b * P)%Q.
Proof.
  intros HP H. apply Qmult_le_compat_r; [|apply Qlt_le_weak, HP].
  rewrite <- Zle_Qle. exact H.
Qed.

Lemma inject_lt (a b : Z) (P : Q) :
  (0 < P)%Q -> a < b -> (inject_Z a * P < inject_Z b * P)%Q.
Proof.
  intros HP H. apply Qmult_lt_compat_r; [exact HP|]. rewrite <- Zlt_Qlt. exact H.
Qed.

Lemma inject_eq_inv (a b : Z) (P : Q) :
  (0 < P)%Q -> (inject_Z a * P == inject_Z b * P)%Q -> a = b.
Proof.
  intros HP H. apply inject_Z_injective. eapply Qmult_inj_r; [|exact H].
  intros E. rewrite E in HP. discriminate.
Qed.

Lemma inject_diff (a b : Z) (P x y : Q) :
  (0 < P)%Q -> (x == inject_Z a * P)%Q -> (y == inject_Z b * P)%Q ->
  (Qabs (x - y) == inject_Z (Z.abs (a - b)) * P)%Q.
Proof.
  intros HP Hx Hy. rewrite Hx, Hy.
  assert (E : (inject_Z a * P - inject_Z b * P == inject_Z (a - b) * P)%Q)
    by (unfold Z.sub; rewrite inject_Z_plus, inject_Z_opp; ring).
  rewrite E. apply Qabs_inject, HP.
Qed.

Lemma pow10_prec : Z.of_N (10 ^ 28) = 10 ^ Decimal.prec.
Proof. vm_compute. reflexivity. Qed.

Lemma representable_Z (d : Decimal.t) :
  Z.of_N (Decimal.coeff d) < 10 ^ Decimal.prec -> Decimal.Etiny <= Decimal.exp d ->
  representable d.
Proof.
  intros Hc He. split; [|exact He].
  apply N2Z.inj_lt. rewrite pow10_prec. exact Hc.
Qed.

(** A representable decimal that denotes [q] is [q] rounded. *)
Lemma rounded_exactly (q : Q) (r : Decimal.t) :
  representable r -> (exact r == q)%Q -> rounded q r.
Proof.
  intros Hr E. split; [exact Hr|].
  assert (H0 : (Qabs (exact r - q) == 0)%Q).
  { rewrite E. unfold Qminus. rewrite Qplus_opp_r. reflexivity. }
  split.
  - intros r' _. rewrite H0. apply Qabs_nonneg.
  - intros r' _ Hne Ht. exfalso. apply Hne. rewrite H0 in Ht.
    assert (Hle : (Qabs (exact r' - q) <= 0)%Q) by (rewrite Ht; apply Qle_refl).
    apply Qabs_Qle_condition in Hle. destruct Hle as [Hl Hu]. rewrite E. lra.
Qed.

(** The recipe for [rounded]: every quantity as an integer multiple of one
    positive unit [P]; [g] is the exponent the rounding was made at, [z]
    the rounded coefficient there. *)
Lemma rounded_intro (q : Q) (r : Decimal.t) (P : Q) (a b m z g : Z) :
  (0 < P)%Q ->
  (exact r == inject_Z a * P)%Q -> (q == inject_Z b * P)%Q ->
  (10 ^ g == inject_Z m * P)%Q ->
  representable r ->
  a = z * m -> 0 < m ->
  2 * Z.abs (a - b) <= m ->
  (2 * Z.abs (a - b) = m -> Z.even (Z.of_N (Decimal.coeff r)) = true) ->
  (g = Decimal.Etiny
   \/ (10 ^ (Decimal.prec - 1) * m <= Z.abs b /\ 10 ^ (Decimal.prec - 1) <= Z.abs z)) ->
  rounded q r.
Proof.
  intros HP Hr Hq Hg Hrep Ha Hm Hb Ht Hfull.
  assert (Heven : 2 * Z.abs (a - b) = m -> N.even (Decimal.coeff r) = true).
  { intros E. specialize (Ht E).
    destruct (Decimal.coeff r) as [|[p|p|]]; try reflexivity; discriminate. }
  pose proof (inject_diff a b P _ _ HP Hr Hq) as Hd.
  (* a representable decimal at an exponent of [g] or more *)
  assert (Hcoarse : forall r', g <= Decimal.exp r' ->
             exists n, (exact r' == inject_Z (n * m) * P)%Q).
  { intros r' Hge. exists (signed r' * 10 ^ (Decimal.exp r' - g)).
    rewrite (exact_at r' g Hge), Hg, !inject_Z_mult. ring. }
  (* the rounded coefficient is the nearest multiple *)
  assert (Hnear : forall n, n <> z -> m - Z.abs (a - b) <= Z.abs (n * m - b)).
  { intros n Hn. subst a.
    assert (m <= Z.abs (n * m - z * m)).
    { replace (n * m - z * m) with ((n - z) * m) by ring. rewrite Z.abs_mul.
      rewrite (Z.abs_eq m) by lia.
      assert (1 * m <= Z.abs (n - z) * m) by (apply Z.mul_le_mono_nonneg_r; lia). lia. }
    lia. }
  (* a representable decimal at an exponent below [g] *)
  assert (Hfine : forall r', representable r' -> Decimal.exp r' < g ->
             (Qabs (exact r - q) < Qabs (exact r' - q))%Q).
  { intros r' [Hc' He'] Hlt.
    destruct Hfull as [-> | [Hb27 Hz27]]; [lia|].
    set (K := 10 ^ (Decimal.prec - 1)) in *.
    assert (HK : 0 < K) by (subst K; apply Z.pow_pos_nonneg; unfold Decimal.prec; lia).
    assert (HF : Z.abs (a - b) + K * m <= Z.abs b).
    { subst a. assert (K * m <= Z.abs z * m) by (apply Z.mul_le_mono_nonneg_r; lia).
      destruct (Z_le_gt_dec 0 b) as [Hb0 | Hb0].
      - assert (0 < z) by nia. rewrite (Z.abs_eq z) in * by lia. rewrite (Z.abs_eq b) in * by lia.
        destruct (Z_le_gt_dec (z * m) b); [lia|].
        assert (K + 1 <= z) by nia.
        assert ((K + 1) * m <= z * m) by (apply Z.mul_le_mono_nonneg_r; lia). lia.
      - assert (z < 0) by nia. rewrite (Z.abs_neq z) in * by lia.
        rewrite (Z.abs_neq b) in * by lia.
        destruct (Z_le_gt_dec b (z * m)); [lia|].
        assert (K + 1 <= - z) by nia.
        assert ((K + 1) * m <= - z * m) by (apply Z.mul_le_mono_nonneg_r; lia). lia. }
    assert (Hsmall : (Qabs (exact r') < inject_Z (K * m) * P)%Q).
    { unfold exact. rewrite Qabs_inject, abs_signed by apply Qpow10_pos.
      apply (Qlt_le_trans _ (inject_Z (10 ^ Decimal.prec) * 10 ^ Decimal.exp r')%Q).
      - apply inject_lt; [apply Qpow10_pos|].
        rewrite <- pow10_prec. apply N2Z.inj_lt. exact Hc'.
      - assert (E : (inject_Z (K * m) * P == inject_Z (10 ^ Decimal.prec) * 10 ^ (g - 1))%Q).
        { rewrite inject_Z_mult, <- Qmult_assoc, <- Hg. subst K.
          rewrite <- !Qpow10_Z, <- !Qpow10_add by (unfold Decimal.prec; lia).
          replace (Decimal.prec - 1 + g) with (Decimal.prec + (g - 1)) by lia. reflexivity. }
        rewrite E. apply Qmult_le_l; [rewrite <- (Zlt_Qlt 0); reflexivity|].
        apply Qpow10_le. lia. }
    assert (Hq' : (Qabs q == inject_Z (Z.abs b) * P)%Q)
      by (rewrite Hq; apply Qabs_inject, HP).
    pose proof (inject_le _ _ P HP HF) as HFq. rewrite inject_Z_plus in HFq.
    pose proof (Qabs_triangle_reverse q (exact r')) as Htri.
    rewrite (Qabs_Qminus q (exact r')) in Htri.
    rewrite Hd. rewrite <- Hq' in HFq.
    generalize dependent (Qabs (exact r' - q)). generalize dependent (Qabs (exact r')).
    generalize dependent (Qabs q). intros; lra. }
  split; [exact Hrep|]. split.
  - intros r' Hrep'. destruct (Z_le_gt_dec g (Decimal.exp r')) as [Hge | Hlt].
    + destruct (Hcoarse r' Hge) as (n & Hn).
      rewrite Hd, (inject_diff (n * m) b P _ _ HP Hn Hq). apply inject_le; [exact HP|].
      destruct (Z.eq_dec n z) as [-> | Hne]; [subst a; lia|].
      specialize (Hnear n Hne). lia.
    + apply Qlt_le_weak, Hfine; [exact Hrep' | lia].
  - intros r' Hrep' Hne Htie. destruct (Z_le_gt_dec g (Decimal.exp r')) as [Hge | Hlt].
    + destruct (Hcoarse r' Hge) as (n & Hn).
      rewrite Hd, (inject_diff (n * m) b P _ _ HP Hn Hq) in Htie.
      apply inject_eq_inv in Htie; [|exact HP].
      assert (Hnz : n <> z).
      { intros ->. apply Hne. rewrite Hn, Hr, Ha. reflexivity. }
      specialize (Hnear n Hnz). apply Heven. lia.
    + exfalso. pose proof (Hfine r' Hrep' ltac:(lia)) as Hlt'.
      rewrite Htie in Hlt'. exact (Qlt_irrefl _ Hlt').
Qed.

Lemma rounded_ext (q q' : Q) (r : Decimal.t) : (q == q')%Q -> rounded q r -> rounded q' r.
Proof.
  intros E (H1 & H2 & H3). split; [exact H1|]. split.
  - intros r' Hr'. rewrite <- E. apply H2, Hr'.
  - intros r' Hr' Hne Ht. rewrite <- E in Ht. exact (H3 r' Hr' Hne Ht).
Qed.

Lemma computes_ext (s : state) (q q' : Q) (out : state * res node) :
  (q == q')%Q -> computes s q out -> computes s q' out.
Proof.
  intros E [(r & Ho & Hr) | [Ho Hb]]; [left | right].
  - exists r. split; [exact Ho | exact (rounded_ext q q' r E Hr)].
  - split; [exact Ho|]. rewrite <- E. exact Hb.
Qed.

End DecimalValues.

Section DecimalOperations.
Local Open Scope Z_scope.

Lemma exact_zero (d : Decimal.t) : Decimal.coeff d = 0%N -> (exact d == 0)%Q.
Proof.
  intros Hc. unfold exact, signed. rewrite Hc. destruct (Decimal.sign d); apply Qmult_0_l.
Qed.

Lemma exact_zero_inv (d : Decimal.t) : (exact d == 0)%Q -> Decimal.coeff d = 0%N.
Proof.
  unfold exact. intros E. apply Qmult_integral in E as [E | E].
  - apply (inject_Z_injective (signed d) 0) in E.
    pose proof (abs_signed d). lia.
  - pose proof (Qpow10_pos (Decimal.exp d)) as Hp. rewrite E in Hp. discriminate.
Qed.

(** [_fix] rounds: its result is the value of its argument rounded. *)
Lemma rounded_fix (d r : Decimal.t) :
  Decimal.fix_ d = Decimal.Finite r -> rounded (exact d) r.
Proof.
  intros Hf. destruct (fix_Finite d r Hf) as (Hs & Hc & He & [[Hd0 Hr0] | [-> | Hk]]).
  - apply rounded_exactly; [apply representable_Z; assumption|].
    rewrite (exact_zero d Hd0), (exact_zero r Hr0). reflexivity.
  - apply rounded_exactly; [apply representable_Z; assumption | reflexivity].
  - destruct Hk as (k & c1 & Hk & Hg & Hc1 & Hb & Ht & Hfull).
    assert (Hp : 0 < 10 ^ k) by (apply Z.pow_pos_nonneg; lia).
    assert (Hc0 : 0 <= c1).
    { rewrite <- Hc1. apply Z.mul_nonneg_nonneg; [lia|]. apply Z.pow_nonneg. lia. }
    set (z := if Decimal.sign d then - c1 else c1).
    assert (Hz : signed r * 10 ^ (Decimal.exp r - (Decimal.exp d + k)) = z).
    { subst z. unfold signed. rewrite Hs, <- Hc1. destruct (Decimal.sign d); ring. }
    assert (Ha : Z.abs (z * 10 ^ k - signed d)
                 = Z.abs (c1 * 10 ^ k - Z.of_N (Decimal.coeff d))).
    { subst z. unfold signed. destruct (Decimal.sign d); lia. }
    apply (rounded_intro _ _ (10 ^ Decimal.exp d)%Q (z * 10 ^ k) (signed d) (10 ^ k) z
             (Decimal.exp d + k)).
    + apply Qpow10_pos.
    + rewrite (exact_at r (Decimal.exp d + k)) by lia. rewrite Hz.
      apply inject_shift. lia.
    + reflexivity.
    + rewrite Qpow10_add, (Qpow10_Z k) by lia. ring.
    + apply representable_Z; assumption.
    + reflexivity.
    + exact Hp.
    + rewrite Ha. exact Hb.
    + rewrite Ha. exact Ht.
    + destruct Hfull as [Hf0 | [Hf1 Hf2]]; [left; exact Hf0 | right].
      rewrite abs_signed. split; [exact Hf1|]. subst z. destruct (Decimal.sign d); lia.
Qed.

(** [_fix] traps only [Overflow], and only on a large number. *)
Lemma overflow_fix (d : Decimal.t) (sg : Decimal.signal) :
  Decimal.fix_ d = Decimal.Trap sg ->
  sg = Decimal.Overflow /\ (10 ^ Decimal.Emax <= Qabs (exact d))%Q.
Proof.
  intros Hf. destruct (fix_Trap d sg Hf) as (-> & Hc & Hn). split; [reflexivity|].
  destruct (ndigits_spec (Decimal.coeff d) ltac:(lia)) as (H1 & H2 & _).
  unfold exact. rewrite Qabs_inject, abs_signed by apply Qpow10_pos.
  eapply Qle_trans; [apply (Qpow10_le _ (Decimal.ndigits (Decimal.coeff d) - 1 + Decimal.exp d)); lia|].
  rewrite Qpow10_add, Qpow10_Z by lia.
  apply inject_le; [apply Qpow10_pos | exact H2].
Qed.

(** The outcome of an operation that ends in [_fix]. *)
Lemma computes_fix (s : state) (q : Q) (d : Decimal.t) :
  (exact d == q)%Q ->
  computes s q
    (s, match of_decimal (Decimal.fix_ d) with
        | Ok v => Ok (Atom v)
        | Raise x => Raise x
        | Unmodelled => Unmodelled
        | NoFuel => NoFuel
        end).
Proof.
  intros E. apply (computes_ext s (exact d) q _ E).
  destruct (Decimal.fix_ d) as [r | sg] eqn:Hf; cbn [of_decimal].
  - left. exists r. split; [reflexivity | apply rounded_fix, Hf].
  - right. destruct (overflow_fix d sg Hf) as [-> Hb]. split; [reflexivity | exact Hb].
Qed.

Lemma add_exact (a b : Decimal.t) :
  exists d, Decimal.add a b = Decimal.fix_ d /\ (exact d == exact a + exact b)%Q.
Proof.
  unfold Decimal.add. set (e := Z.min (Decimal.exp a) (Decimal.exp b)).
  set (z := Decimal.scaled a e + Decimal.scaled b e).
  eexists. split; [reflexivity|].
  rewrite (exact_scaled a e), (exact_scaled b e) by (subst e; lia).
  fold z. unfold exact at 1. cbn [Decimal.exp].
  assert (Hz : signed (Decimal.mk (if z =? 0 then Decimal.sign a && Decimal.sign b else z <? 0)
                         (Z.to_N (Z.abs z)) e) = z).
  { unfold signed. cbn [Decimal.sign Decimal.coeff]. rewrite Z2N.id by lia.
    destruct (Z.eqb_spec z 0) as [-> | Hz].
    - destruct (Decimal.sign a && Decimal.sign b); reflexivity.
    - destruct (Z.ltb_spec z 0); lia. }
  rewrite Hz. subst z. rewrite inject_Z_plus. ring.
Qed.

Lemma exact_negate (b : Decimal.t) : (exact (Decimal.copy_negate b) == - exact b)%Q.
Proof.
  unfold exact, signed. cbn [Decimal.copy_negate Decimal.sign Decimal.coeff Decimal.exp].
  destruct (Decimal.sign b); cbn [negb]; rewrite ?inject_Z_opp; ring.
Qed.

Lemma sub_exact (a b : Decimal.t) :
  exists d, Decimal.sub a b = Decimal.fix_ d /\ (exact d == exact a - exact b)%Q.
Proof.
  unfold Decimal.sub. destruct (add_exact a (Decimal.copy_negate b)) as (d & Hd & E).
  exists d. split; [exact Hd|]. rewrite E, exact_negate. reflexivity.
Qed.

Lemma mul_exact (a b : Decimal.t) :
  exists d, Decimal.mul a b = Decimal.fix_ d /\ (exact d == exact a * exact b)%Q.
Proof.
  unfold Decimal.mul. eexists. split; [reflexivity|].
  unfold exact. cbn [Decimal.exp]. rewrite Qpow10_add.
  assert (Hs : signed (Decimal.mk (xorb (Decimal.sign a) (Decimal.sign b))
                         (Decimal.coeff a * Decimal.coeff b) (Decimal.exp a + Decimal.exp b))
               = signed a * signed b).
  { unfold signed. cbn [Decimal.sign Decimal.coeff]. rewrite N2Z.inj_mul.
    destruct (Decimal.sign a), (Decimal.sign b); cbn [xorb]; ring. }
  rewrite Hs, inject_Z_mult. ring.
Qed.

End DecimalOperations.

Section DecimalComparison.
Local Open Scope Z_scope.

(** [_cmp] compares the numbers. *)
Lemma cmp_exact (a b : Decimal.t) : Decimal.cmp a b = (exact a ?= exact b)%Q.
Proof.
  unfold Decimal.cmp. set (e := Z.min (Decimal.exp a) (Decimal.exp b)).
  rewrite (Qcompare_comp _ _ (exact_scaled a e ltac:(subst e; lia))
             _ _ (exact_scaled b e ltac:(subst e; lia))).
  pose proof (Qpow10_pos e) as Hp. symmetry.
  destruct (Z.compare_spec (Decimal.scaled a e) (Decimal.scaled b e)) as [E | L | L].
  - apply Qeq_alt. rewrite E. reflexivity.
  - apply Qlt_alt. apply Qmult_lt_compat_r; [exact Hp|]. rewrite <- Zlt_Qlt. exact L.
  - apply Qgt_alt. apply Qmult_lt_compat_r; [exact Hp|]. rewrite <- Zlt_Qlt. exact L.
Qed.

Lemma eqb_exact (a b : Decimal.t) : Decimal.eqb a b = Qeq_bool (exact a) (exact b).
Proof.
  unfold Decimal.eqb. rewrite cmp_exact.
  destruct (Qcompare_spec (exact a) (exact b)) as [E | L | L].
  - symmetry. apply Qeq_eq_bool, E.
  - destruct (Qeq_bool (exact a) (exact b)) eqn:B; [|reflexivity].
    apply Qeq_bool_eq in B. rewrite B in L. exfalso. exact (Qlt_irrefl _ L).
  - destruct (Qeq_bool (exact a) (exact b)) eqn:B; [|reflexivity].
    apply Qeq_bool_eq in B. rewrite B in L. exfalso. exact (Qlt_irrefl _ L).
Qed.

Lemma leb_exact (a b : Decimal.t) : Decimal.leb a b = Qle_bool (exact a) (exact b).
Proof.
  unfold Decimal.leb. rewrite cmp_exact.
  destruct (Qcompare_spec (exact a) (exact b)) as [E | L | L].
  - symmetry. apply Qle_bool_iff. rewrite E. apply Qle_refl.
  - symmetry. apply Qle_bool_iff, Qlt_le_weak, L.
  - destruct (Qle_bool (exact a) (exact b)) eqn:B; [|reflexivity].
    apply Qle_bool_iff in B. exfalso. exact (Qlt_irrefl _ (Qlt_le_trans _ _ _ L B)).
Qed.

Lemma ltb_exact (a b : Decimal.t) :
  Decimal.ltb a b = negb (Qle_bool (exact b) (exact a)).
Proof.
  unfold Decimal.ltb. rewrite cmp_exact.
  destruct (Qcompare_spec (exact a) (exact b)) as [E | L | L].
  - replace (Qle_bool (exact b) (exact a)) with true; [reflexivity|].
    symmetry. apply Qle_bool_iff. rewrite E. apply Qle_refl.
  - destruct (Qle_bool (exact b) (exact a)) eqn:B; [|reflexivity].
    apply Qle_bool_iff in B. exfalso. exact (Qlt_irrefl _ (Qlt_le_trans _ _ _ L B)).
  - replace (Qle_bool (exact b) (exact a)) with true; [reflexivity|].
    symmetry. apply Qle_bool_iff, Qlt_le_weak, L.
Qed.

End DecimalComparison.

Section DecimalDivision.
Local Open Scope Z_scope.

Lemma strip_zeros_spec (fuel : nat) (c : N) (e ideal : Z) (c' : N) (e' : Z) :
  Decimal.strip_zeros fuel c e ideal = (c', e') ->
  e <= e' /\ Z.of_N c = Z.of_N c' * 10 ^ (e' - e).
Proof.
  revert c e. induction fuel as [|f IH]; intros c e; cbn [Decimal.strip_zeros].
  - intros E. injection E as <- <-. rewrite Z.sub_diag. change (10 ^ 0) with 1. lia.
  - destruct ((e <? ideal) && (c mod 10 =? 0)%N) eqn:Hc.
    + apply andb_true_iff in Hc as [_ Hm]. apply N.eqb_eq in Hm.
      intros E. destruct (IH _ _ E) as [He Hv]. split; [lia|].
      rewrite (pow10_succ (e' - e)) by lia. replace (e' - e - 1) with (e' - (e + 1)) by lia.
      pose proof (N.div_mod' c 10) as Hd. rewrite Hm in Hd.
      generalize dependent (c / 10)%N. intros q Hq Hv Hd.
      generalize dependent (10 ^ (e' - (e + 1))). intros; lia.
    + intros E. injection E as <- <-. rewrite Z.sub_diag. change (10 ^ 0) with 1. lia.
Qed.

(** The integers that [__truediv__] divides: their ratio, at the exponent
    [e], is the quotient of the operands, and the shift leaves more than
    [prec] digits of integer quotient. *)
Lemma quotient_parts (a b : Decimal.t) (shift e : Z) (num den : N) :
  Decimal.coeff a <> 0%N -> Decimal.coeff b <> 0%N ->
  shift = Decimal.ndigits (Decimal.coeff b) - Decimal.ndigits (Decimal.coeff a)
          + Decimal.prec + 1 ->
  e = Decimal.exp a - Decimal.exp b - shift ->
  num = (if shift >=? 0 then Decimal.coeff a * Decimal.pow10 shift else Decimal.coeff a)%N ->
  den = (if shift >=? 0 then Decimal.coeff b
         else Decimal.coeff b * Decimal.pow10 (- shift))%N ->
  0 < Z.of_N den
  /\ 10 ^ Decimal.prec * Z.of_N den <= Z.of_N num
  /\ (exact a * inject_Z (Z.of_N den)
      == inject_Z (signed (Decimal.mk (xorb (Decimal.sign a) (Decimal.sign b)) num e))
         * 10 ^ e * exact b)%Q.
Proof.
  intros Ha Hb Hs He Hn Hd.
  destruct (ndigits_spec (Decimal.coeff a) ltac:(lia)) as (Ha1 & Ha2 & Ha3).
  destruct (ndigits_spec (Decimal.coeff b) ltac:(lia)) as (Hb1 & Hb2 & Hb3).
  set (na := Decimal.ndigits (Decimal.coeff a)) in *.
  set (nb := Decimal.ndigits (Decimal.coeff b)) in *.
  assert (Hsg : forall n : Z,
             signed a * Z.of_N (Decimal.coeff b)
             = signed (Decimal.mk (xorb (Decimal.sign a) (Decimal.sign b)) (Decimal.coeff a) n)
               * signed b).
  { intros n. unfold signed. cbn [Decimal.sign Decimal.coeff].
    destruct (Decimal.sign a), (Decimal.sign b); cbn [xorb]; ring. }
  destruct (Z.geb_spec shift 0) as [Hge | Hlt]; subst num den.
  - assert (Hp : Z.of_N (Decimal.pow10 shift) = 10 ^ shift) by (apply pow10_Z; lia).
    assert (Hp0 : 0 < 10 ^ shift) by (apply Z.pow_pos_nonneg; lia).
    split; [lia|]. split.
    + rewrite N2Z.inj_mul, Hp.
      assert (H1 : 10 ^ Decimal.prec * 10 ^ nb <= 10 ^ (na - 1) * 10 ^ shift).
      { rewrite <- !Z.pow_add_r by (unfold Decimal.prec; lia).
        apply Z.pow_le_mono_r; lia. }
      assert (H2 : 10 ^ Decimal.prec * Z.of_N (Decimal.coeff b) <= 10 ^ Decimal.prec * 10 ^ nb)
        by (apply Z.mul_le_mono_nonneg_l; [apply Z.pow_nonneg|]; lia).
      assert (H3 : 10 ^ (na - 1) * 10 ^ shift <= Z.of_N (Decimal.coeff a) * 10 ^ shift)
        by (apply Z.mul_le_mono_nonneg_r; lia).
      lia.
    + rewrite (exact_at a (e + Decimal.exp b)) by lia.
      replace (Decimal.exp a - (e + Decimal.exp b)) with shift by lia.
      unfold exact at 1. rewrite Qpow10_add.
      assert (I : signed a * 10 ^ shift * Z.of_N (Decimal.coeff b)
                  = signed (Decimal.mk (xorb (Decimal.sign a) (Decimal.sign b))
                              (Decimal.coeff a * Decimal.pow10 shift) e) * signed b).
      { unfold signed at 2. cbn [Decimal.sign Decimal.coeff].
        rewrite N2Z.inj_mul, Hp. specialize (Hsg 0). unfold signed at 2 in Hsg.
        cbn [Decimal.sign Decimal.coeff] in Hsg.
        destruct (xorb (Decimal.sign a) (Decimal.sign b)); nia. }
      transitivity (inject_Z (signed a * 10 ^ shift * Z.of_N (Decimal.coeff b))
                    * (10 ^ e * 10 ^ Decimal.exp b))%Q.
      * rewrite !inject_Z_mult. ring.
      * rewrite I, inject_Z_mult. ring.
  - assert (Hp : Z.of_N (Decimal.pow10 (- shift)) = 10 ^ (- shift)) by (apply pow10_Z; lia).
    assert (Hp0 : 0 < 10 ^ (- shift)) by (apply Z.pow_pos_nonneg; lia).
    rewrite N2Z.inj_mul, Hp. split; [nia|]. split.
    + assert (H1 : 10 ^ Decimal.prec * (10 ^ nb * 10 ^ (- shift)) <= 10 ^ (na - 1)).
      { rewrite <- !Z.pow_add_r by (unfold Decimal.prec; lia).
        apply Z.pow_le_mono_r; lia. }
      assert (H2 : Z.of_N (Decimal.coeff b) * 10 ^ (- shift) <= 10 ^ nb * 10 ^ (- shift))
        by (apply Z.mul_le_mono_nonneg_r; lia).
      assert (H3 : 10 ^ Decimal.prec * (Z.of_N (Decimal.coeff b) * 10 ^ (- shift))
                   <= 10 ^ Decimal.prec * (10 ^ nb * 10 ^ (- shift)))
        by (apply Z.mul_le_mono_nonneg_l; [apply Z.pow_nonneg; lia | exact H2]).
      lia.
    + unfold exact. cbn [Decimal.exp].
      assert (Hpw : (10 ^ e * 10 ^ Decimal.exp b
                     == 10 ^ Decimal.exp a * inject_Z (10 ^ (- shift)))%Q).
      { rewrite <- Qpow10_add, <- (Qpow10_Z (- shift)), <- Qpow10_add by lia.
        replace (e + Decimal.exp b) with (Decimal.exp a + - shift) by lia. reflexivity. }
      transitivity (inject_Z (signed a * Z.of_N (Decimal.coeff b))
                    * (10 ^ Decimal.exp a * inject_Z (10 ^ (- shift))))%Q.
      * rewrite !inject_Z_mult. ring.
      * rewrite (Hsg e), <- Hpw, inject_Z_mult. ring.
Qed.

End DecimalDivision.

Section DecimalQuotient.
Local Open Scope Z_scope.

(** The sticky digit: rounding the integer quotient, bumped by one when
    it ends in 0 or 5, rounds the rational quotient, and never on a tie. *)
Lemma sticky_round (c q rem den h d : Z) :
  0 < h -> 0 < rem < den ->
  (d = 1 /\ q mod 5 = 0) \/ (d = 0 /\ q mod 5 <> 0) ->
  2 * Z.abs (c * (10 * h) - (q + d)) <= 10 * h ->
  2 * Z.abs (c * (10 * h) * den - (den * q + rem)) < 10 * h * den.
Proof.
  intros Hh Hr Hd Hb.
  pose proof (Z.div_mod q 5 ltac:(lia)) as Hq.
  pose proof (Z.mod_pos_bound q 5 ltac:(lia)) as Hm.
  generalize dependent (q / 5). generalize dependent (q mod 5). intros u Hd Hu t Hq.
  assert (H1 : - (5 * h) + 1 <= c * (10 * h) - q <= 5 * h) by (destruct Hd; lia).
  assert (H2 : (c * (10 * h) - q) * den <= 5 * h * den)
    by (apply Z.mul_le_mono_nonneg_r; lia).
  assert (H3 : (- (5 * h) + 1) * den <= (c * (10 * h) - q) * den)
    by (apply Z.mul_le_mono_nonneg_r; lia).
  lia.
Qed.

Lemma quotient_Z (num den : N) :
  0 < Z.of_N den -> 10 ^ Decimal.prec * Z.of_N den <= Z.of_N num ->
  Z.of_N num = Z.of_N den * Z.of_N (num / den) + Z.of_N (num mod den)
  /\ 0 <= Z.of_N (num mod den) < Z.of_N den
  /\ 10 ^ Decimal.prec <= Z.of_N (num / den)
  /\ Z.of_N (num / den mod 5) = Z.of_N (num / den) mod 5.
Proof.
  intros Hd Hn. split; [|split; [|split]].
  - rewrite N2Z.inj_div, N2Z.inj_mod. apply Z.div_mod. lia.
  - rewrite N2Z.inj_mod. apply Z.mod_pos_bound. lia.
  - rewrite N2Z.inj_div. apply Z.div_le_lower_bound; lia.
  - rewrite N2Z.inj_mod. reflexivity.
Qed.

Lemma quotient_rounded (qv : Q) (sg : bool) (num den : N) (e : Z) (r : Decimal.t) :
  0 < Z.of_N den -> 10 ^ Decimal.prec * Z.of_N den <= Z.of_N num ->
  (num mod den)%N <> 0%N ->
  (qv * inject_Z (Z.of_N den) == inject_Z (signed (Decimal.mk sg num e)) * 10 ^ e)%Q ->
  Decimal.fix_ (Decimal.mk sg (if (num / den mod 5 =? 0)%N then (num / den + 1)%N
                               else (num / den)%N) e) = Decimal.Finite r ->
  rounded qv r.
Proof.
  intros Hd Hn Hrem Hq Hf.
  destruct (quotient_Z num den Hd Hn) as (Hdm & Hrb & Hqq & Hm5).
  set (c' := if (num / den mod 5 =? 0)%N then (num / den + 1)%N else (num / den)%N) in *.
  assert (Hc' : exists d, Z.of_N c' = Z.of_N (num / den) + d
                          /\ ((d = 1 /\ Z.of_N (num / den) mod 5 = 0)
                              \/ (d = 0 /\ Z.of_N (num / den) mod 5 <> 0))).
  { subst c'. destruct (N.eqb_spec (num / den mod 5) 0) as [E | E].
    - exists 1. split; [rewrite N2Z.inj_add; reflexivity|]. left. split; [reflexivity|]. rewrite <- Hm5, E. reflexivity.
    - exists 0. split; [rewrite Z.add_0_r; reflexivity|]. right. split; [reflexivity|]. rewrite <- Hm5. lia. }
  destruct Hc' as (d & Hc' & Hd5).
  assert (HD : ~ (inject_Z (Z.of_N den) == 0)%Q).
  { intros E. apply (proj1 (inject_Z_injective (Z.of_N den) 0)) in E. clear -E Hd. lia. }
  assert (HDp : (0 < inject_Z (Z.of_N den))%Q) by (rewrite <- (Zlt_Qlt 0); exact Hd).
  assert (HP : (0 < 10 ^ e / inject_Z (Z.of_N den))%Q).
  { apply Qlt_shift_div_l; [exact HDp|]. rewrite Qmult_0_l. apply Qpow10_pos. }
  assert (Hunit : forall z : Z,
             (inject_Z (z * Z.of_N den) * (10 ^ e / inject_Z (Z.of_N den))
              == inject_Z z * 10 ^ e)%Q).
  { intros z. rewrite inject_Z_mult. field. exact HD. }
  destruct (fix_Finite _ r Hf) as (Hs & Hc & He & [[Hz _] | [-> | Hk]]);
    cbn [Decimal.sign Decimal.coeff Decimal.exp] in *.
  - lia.
  - cbn [Decimal.coeff] in Hc. lia.
  - destruct Hk as (k & c1 & Hk & Hg & Hc1 & Hb & _ & Hfull).
    pose proof (pow10_succ k Hk) as Hp10.
    assert (Hh : 0 < 10 ^ (k - 1)) by (apply Z.pow_pos_nonneg; lia).
    assert (Hc0 : 0 <= c1).
    { rewrite <- Hc1. apply Z.mul_nonneg_nonneg; [lia|]. apply Z.pow_nonneg. lia. }
    assert (Hstrict : 2 * Z.abs (c1 * 10 ^ k * Z.of_N den - Z.of_N num)
                      < 10 ^ k * Z.of_N den).
    { rewrite Hdm, Hp10.
      apply (sticky_round _ _ _ _ _ d); [lia | lia | exact Hd5 |].
      rewrite <- Hp10, <- Hc'. exact Hb. }
    set (z := if sg then - c1 else c1).
    assert (Hzr : signed r * 10 ^ (Decimal.exp r - (e + k)) = z).
    { subst z. unfold signed. rewrite Hs, <- Hc1. destruct sg; ring. }
    assert (Ha : Z.abs (z * (10 ^ k * Z.of_N den) - signed (Decimal.mk sg num e))
                 = Z.abs (c1 * 10 ^ k * Z.of_N den - Z.of_N num)).
    { subst z. unfold signed. cbn [Decimal.sign Decimal.coeff]. destruct sg; lia. }
    apply (rounded_intro _ _ (10 ^ e / inject_Z (Z.of_N den))%Q
             (z * (10 ^ k * Z.of_N den)) (signed (Decimal.mk sg num e))
             (10 ^ k * Z.of_N den) z (e + k)).
    + exact HP.
    + rewrite Z.mul_assoc, Hunit, (exact_at r (e + k)) by lia. rewrite Hzr.
      apply inject_shift. lia.
    + rewrite <- (Qdiv_mult_l qv (inject_Z (Z.of_N den))) at 1 by exact HD.
      rewrite Hq. field. exact HD.
    + rewrite Hunit, Qpow10_add, (Qpow10_Z k) by lia. ring.
    + apply representable_Z; assumption.
    + reflexivity.
    + apply Z.mul_pos_pos; [apply Z.pow_pos_nonneg|]; lia.
    + rewrite Ha. lia.
    + rewrite Ha. lia.
    + destruct Hfull as [Hf0 | [Hf1 Hf2]]; [left; exact Hf0 | right].
      rewrite abs_signed. cbn [Decimal.coeff].
      split; [|subst z; destruct sg; lia].
      assert (Hqq27 : 10 ^ (Decimal.prec - 1) * 10 ^ k <= Z.of_N (num / den)).
      { rewrite Hc' in Hf1. rewrite Hp10 in Hf1 |- *.
        pose proof (Z.div_mod (Z.of_N (num / den)) 5 ltac:(lia)) as Hq5.
        assert (Hw : 10 ^ (Decimal.prec - 1) * (10 * 10 ^ (k - 1))
                     = 10 * (10 ^ (Decimal.prec - 1) * 10 ^ (k - 1))) by ring.
        rewrite Hw in Hf1 |- *. clear Hw.
        destruct Hd5 as [[-> H5] | [-> _]]; [|lia].
        rewrite H5 in Hq5. clear -Hf1 Hq5.
        generalize dependent (Z.of_N (num / den) / 5).
        generalize dependent (Z.of_N (num / den)).
        generalize dependent (10 ^ (Decimal.prec - 1) * 10 ^ (k - 1)). intros; lia. }
      assert (10 ^ (Decimal.prec - 1) * 10 ^ k * Z.of_N den
              <= Z.of_N (num / den) * Z.of_N den)
        by (apply Z.mul_le_mono_nonneg_r; lia).
      lia.
Qed.

Lemma quotient_overflow (qv : Q) (sg : bool) (num den : N) (e : Z) (s0 : Decimal.signal) :
  0 < Z.of_N den -> 10 ^ Decimal.prec * Z.of_N den <= Z.of_N num ->
  (qv * inject_Z (Z.of_N den) == inject_Z (signed (Decimal.mk sg num e)) * 10 ^ e)%Q ->
  Decimal.fix_ (Decimal.mk sg (if (num / den mod 5 =? 0)%N then (num / den + 1)%N
                               else (num / den)%N) e) = Decimal.Trap s0 ->
  s0 = Decimal.Overflow /\ (10 ^ Decimal.Emax <= Qabs qv)%Q.
Proof.
  intros Hd Hn Hq Hf.
  destruct (quotient_Z num den Hd Hn) as (Hdm & Hrb & Hqq & Hm5).
  set (c' := if (num / den mod 5 =? 0)%N then (num / den + 1)%N else (num / den)%N) in *.
  destruct (fix_Trap _ s0 Hf) as (-> & Hc0 & Hnd). split; [reflexivity|].
  cbn [Decimal.coeff Decimal.exp] in *.
  destruct (ndigits_spec c' ltac:(lia)) as (H1 & H2 & H3).
  set (nd := Decimal.ndigits c') in *.
  assert (Hbig : 10 ^ (nd - 1) <= Z.of_N (num / den)).
  { assert (Hc' : Z.of_N c' = Z.of_N (num / den)
                  \/ (Z.of_N c' = Z.of_N (num / den) + 1 /\ Z.of_N (num / den) mod 5 = 0)).
    { subst c'. destruct (N.eqb_spec (num / den mod 5) 0) as [E | E]; [right | left; reflexivity].
      split; [rewrite N2Z.inj_add; reflexivity|]. rewrite <- Hm5, E. reflexivity. }
    destruct Hc' as [<- | [Hc' H5]]; [exact H2|].
    assert (Hnd2 : 2 <= nd).
    { destruct (Z_le_gt_dec 2 nd) as [|Hlt]; [assumption|].
      assert (nd = 1) by lia.
      assert (Z.of_N c' < 10 ^ Decimal.prec)
        by (eapply Z.lt_le_trans; [exact H3|]; apply Z.pow_le_mono_r;
            unfold Decimal.prec; lia).
      lia. }
    rewrite (pow10_succ (nd - 1)) in * by lia.
    pose proof (Z.div_mod (Z.of_N (num / den)) 5 ltac:(lia)) as Hq5.
    rewrite H5 in Hq5.
    generalize dependent (10 ^ (nd - 1 - 1)). generalize dependent (Z.of_N (num / den) / 5).
    intros; lia. }
  assert (HD : ~ (inject_Z (Z.of_N den) == 0)%Q).
  { intros E. apply (proj1 (inject_Z_injective (Z.of_N den) 0)) in E. clear -E Hd. lia. }
  assert (HDp : (0 < inject_Z (Z.of_N den))%Q) by (rewrite <- (Zlt_Qlt 0); exact Hd).
  assert (Habs : (Qabs qv == inject_Z (Z.of_N num) * 10 ^ e / inject_Z (Z.of_N den))%Q).
  { rewrite <- (Qdiv_mult_l (Qabs qv) (inject_Z (Z.of_N den))) by exact HD.
    rewrite <- (Qabs_pos (inject_Z (Z.of_N den))) at 1 by (apply Qlt_le_weak, HDp).
    rewrite <- Qabs_Qmult, Hq, Qabs_inject by apply Qpow10_pos.
    rewrite abs_signed. reflexivity. }
  rewrite Habs. apply Qle_shift_div_l; [exact HDp|].
  apply (Qle_trans _ (inject_Z (10 ^ (nd - 1) * Z.of_N den) * 10 ^ e)%Q).
  - assert (E : (inject_Z (10 ^ (nd - 1) * Z.of_N den) * 10 ^ e
                 == 10 ^ (nd - 1 + e) * inject_Z (Z.of_N den))%Q)
      by (rewrite inject_Z_mult, Qpow10_add, (Qpow10_Z (nd - 1)) by lia; ring).
    rewrite E. apply Qmult_le_compat_r; [|apply Qlt_le_weak, HDp].
    apply Qpow10_le. lia.
  - apply inject_le; [apply Qpow10_pos|].
    assert (10 ^ (nd - 1) * Z.of_N den <= Z.of_N (num / den) * Z.of_N den)
      by (apply Z.mul_le_mono_nonneg_r; lia).
    lia.
Qed.

End DecimalQuotient.

Section DecimalArithmetic.
Local Open Scope Z_scope.

Lemma truediv_computes (s : state) (a b : Decimal.t) :
  Decimal.coeff b <> 0%N ->
  computes s (exact a / exact b)
    (s, match of_decimal (Decimal.truediv a b) with
        | Ok v => Ok (Atom v)
        | Raise x => Raise x
        | Unmodelled => Unmodelled
        | NoFuel => NoFuel
        end).
Proof.
  intros Hb. unfold Decimal.truediv. rewrite (proj2 (N.eqb_neq _ _) Hb).
  assert (Hbq : ~ (exact b == 0)%Q) by (intros E; apply Hb, exact_zero_inv, E).
  destruct (N.eqb_spec (Decimal.coeff a) 0) as [Ha | Ha].
  - apply computes_fix. rewrite (exact_zero a Ha), exact_zero by reflexivity.
    unfold Qdiv. rewrite Qmult_0_l. reflexivity.
  - cbv zeta.
    set (shift := Decimal.ndigits (Decimal.coeff b) - Decimal.ndigits (Decimal.coeff a)
                  + Decimal.prec + 1).
    set (e := Decimal.exp a - Decimal.exp b - shift).
    set (num := (if shift >=? 0 then Decimal.coeff a * Decimal.pow10 shift
                 else Decimal.coeff a)%N).
    set (den := (if shift >=? 0 then Decimal.coeff b
                 else Decimal.coeff b * Decimal.pow10 (- shift))%N).
    set (sg := xorb (Decimal.sign a) (Decimal.sign b)).
    destruct (quotient_parts a b shift e num den Ha Hb eq_refl eq_refl eq_refl eq_refl)
      as (Hd & Hn & Hq).
    fold sg in Hq.
    assert (HD : ~ (inject_Z (Z.of_N den) == 0)%Q).
    { intros E. apply (proj1 (inject_Z_injective (Z.of_N den) 0)) in E. clear -E Hd. lia. }
    assert (Hqv : (exact a / exact b * inject_Z (Z.of_N den)
                   == inject_Z (signed (Decimal.mk sg num e)) * 10 ^ e)%Q).
    { transitivity (exact a * inject_Z (Z.of_N den) / exact b)%Q; [field; exact Hbq|].
      rewrite Hq. field. exact Hbq. }
    destruct (N.eqb_spec (num mod den) 0) as [Hr | Hr].
    + destruct (Decimal.strip_zeros (Z.to_nat (Decimal.ndigits (num / den))) (num / den) e
                  (Decimal.exp a - Decimal.exp b)) as [c e'] eqn:Es.
      destruct (strip_zeros_spec _ _ _ _ _ _ Es) as (He' & Hc).
      destruct (quotient_Z num den Hd Hn) as (Hdm & _ & _ & _).
      rewrite Hr in Hdm. change (Z.of_N 0) with 0 in Hdm.
      apply computes_fix. apply (Qmult_inj_r _ _ (inject_Z (Z.of_N den)) HD).
      rewrite Hqv, (exact_at (Decimal.mk sg c e') e) by exact He'. cbn [Decimal.exp].
      assert (I : signed (Decimal.mk sg c e') * 10 ^ (e' - e) * Z.of_N den
                  = signed (Decimal.mk sg num e)).
      { unfold signed. cbn [Decimal.sign Decimal.coeff]. rewrite Hdm, Hc.
        destruct sg; ring. }
      rewrite <- I, !inject_Z_mult. ring.
    + destruct (Decimal.fix_ _) as [r | s0] eqn:Hf; cbn [of_decimal].
      * left. exists r. split; [reflexivity|].
        exact (quotient_rounded _ sg num den e r Hd Hn Hr Hqv Hf).
      * right. destruct (quotient_overflow _ sg num den e s0 Hd Hn Hqv Hf) as [-> Hbig].
        split; [reflexivity | exact Hbig].
Qed.

Lemma truediv_by_zero (a b : Decimal.t) :
  Decimal.coeff b = 0%N ->
  Decimal.truediv a b
  = Decimal.Trap (if Qeq_bool (exact a) 0 then Decimal.InvalidOperation
                  else Decimal.DivisionByZero).
Proof.
  intros Hb. unfold Decimal.truediv. rewrite Hb. cbn [N.eqb].
  destruct (N.eqb_spec (Decimal.coeff a) 0) as [Ha | Ha].
  - rewrite (Qeq_eq_bool _ _ (exact_zero a Ha)). reflexivity.
  - destruct (Qeq_bool (exact a) 0) eqn:B; [|reflexivity].
    apply Qeq_bool_eq, exact_zero_inv in B. contradiction.
Qed.

(** Rounding leaves a number alone that the context can hold. *)
Lemma rounded_representable (q : Q) (r d : Decimal.t) :
  rounded q r -> representable d -> (exact d == q)%Q -> (exact r == q)%Q.
Proof.
  intros (_ & Hn & _) Hd E. specialize (Hn d Hd).
  assert (H0 : (Qabs (exact d - q) == 0)%Q).
  { rewrite E. unfold Qminus. rewrite Qplus_opp_r. reflexivity. }
  rewrite H0 in Hn. apply Qabs_Qle_condition in Hn. destruct Hn as [Hl Hu]. lra.
Qed.

(** An operator node on two number atoms applies the operator to them,
    in the state it started from. *)
Lemma eval_operation (H : host) (sc : Scoping) (e : env) (s : state) (op : Op.binary)
    (x y : Decimal.t) :
  eval H sc 2 (Binop op (Atom (PDec x)) (Atom (PDec y))) e s
  = (s, match binop op (PDec x) (PDec y) with
        | Ok v => Ok (Atom v)
        | Raise z => Raise z
        | Unmodelled => Unmodelled
        | NoFuel => NoFuel
        end).
Proof.
  cbn [eval]. unfold bind, ret, lift. cbn [value_of].
  destruct (binop op (PDec x) (PDec y)); reflexivity.
Qed.

End DecimalArithmetic.

(** C6, counterexample: arithmetic does not preserve exactness. The sum
    of the 29-digit number 10000000000000000000000000020 and 5 is rounded to
    28 significant digits, back to the first operand, so
    [(== (+ 10000000000000000000000000020 5) 10000000000000000000000000020)]
    evaluates to true, and the result of the sum is not the sum of the
    operands. *)
Theorem decimal_sum_rounds :
  let s := mkstate [∅] [] [] in
  let x := Decimal.mk false 10000000000000000000000000020 0 in
  let r := Decimal.mk false 1000000000000000000000000002 1 in
  snd (parse (TStr "10000000000000000000000000020")) = Ok (Atom (PDec x))
  /\ run bare_host LEXICAL 2
       (TList [TStr "+"; TStr "10000000000000000000000000020"; TStr "5"]) (EDict 0) s
     = (s, Ok (Atom (PDec r)))
  /\ run bare_host LEXICAL 3
       (TList [TStr "==";
               TList [TStr "+"; TStr "10000000000000000000000000020"; TStr "5"];
               TStr "10000000000000000000000000020"]) (EDict 0) s
     = (s, Ok (Atom (PBool true)))
  /\ ~ (exact r == exact x + exact (int 5))%Q.
Proof.
  cbn zeta. split; [vm_compute; reflexivity|].
  split; [vm_compute; reflexivity|].
  split; [vm_compute; reflexivity|].
  intros E. vm_compute in E. discriminate E.
Qed.

(** C6, amended: [(+ 1 2)] evaluates to 3 and [(- 5)], dispatched to the unary
    negation, to -5. [(/ 1 3)] evaluates to the [Decimal]
    0.3333333333333333333333333333, a value that no binary floating-point
    number has. Numbers are decimals of at most 28 significant digits: on
    any two number atoms [+], [-], [*] and [/] return the exact sum,
    difference, product or quotient rounded half-even to that precision,
    that is the nearest decimal that the context can hold, of even
    coefficient where two are as near, hence the exact number itself where
    the context can hold it; they raise the decimal [Overflow], and only
    when the exact number is [10^999999] or more in magnitude; a division by
    zero raises. The six comparisons decide the order of the exact values of
    their operands, and so [(== (+ 0.1 0.2) 0.3)] is true. *)
Theorem decimal_arithmetic (H : host) (sc : Scoping) (e : env) (s : state) :
  run H sc 2 (TList [TStr "+"; TStr "1"; TStr "2"]) e s = (s, Ok (Atom (PDec (int 3))))
  /\ snd (parse (TList [TStr "-"; TStr "5"])) = Ok (Unop Op.Neg (Atom (PDec (int 5))))
  /\ run H sc 2 (TList [TStr "-"; TStr "5"]) e s = (s, Ok (Atom (PDec (int (-5)))))
  /\ run H sc 2 (TList [TStr "/"; TStr "1"; TStr "3"]) e s = (s, Ok (Atom (PDec third)))
  /\ ~ dyadic third
  /\ (forall x y : Decimal.t,
        let operation op := eval H sc 2 (Binop op (Atom (PDec x)) (Atom (PDec y))) e s in
        let boolean b := (s, Ok (Atom (PBool b))) in
        computes s (exact x + exact y) (operation Op.Add)
        /\ computes s (exact x - exact y) (operation Op.Sub)
        /\ computes s (exact x * exact y) (operation Op.Mul)
        /\ (~ (exact y == 0)%Q -> computes s (exact x / exact y) (operation Op.Div))
        /\ ((exact y == 0)%Q ->
            operation Op.Div
            = (s, Raise (DecimalException
                           (if Qeq_bool (exact x) 0 then Decimal.InvalidOperation
                            else Decimal.DivisionByZero))))
        /\ operation Op.Eq = boolean (Qeq_bool (exact x) (exact y))
        /\ operation Op.Ne = boolean (negb (Qeq_bool (exact x) (exact y)))
        /\ operation Op.Lt = boolean (negb (Qle_bool (exact y) (exact x)))
        /\ operation Op.Gt = boolean (negb (Qle_bool (exact x) (exact y)))
        /\ operation Op.Le = boolean (Qle_bool (exact x) (exact y))
        /\ operation Op.Ge = boolean (Qle_bool (exact y) (exact x)))
  /\ (forall q r d, rounded q r -> representable d -> (exact d == q)%Q -> (exact r == q)%Q)
  /\ run H sc 3 (TList [TStr "=="; TList [TStr "+"; TStr "0.1"; TStr "0.2"]; TStr "0.3"]) e s
     = (s, Ok (Atom (PBool true))).
Proof.
  split; [vm_compute; reflexivity|].
  split; [reflexivity|].
  split; [vm_compute; reflexivity|].
  split; [vm_compute; reflexivity|].
  split; [exact third_not_dyadic|].
  split; [|split; [exact rounded_representable | vm_compute; reflexivity]].
  intros x y. cbv beta zeta. rewrite !eval_operation.
  cbn [binop arith wrap_bool of_option py_eq py_lt py_le res_bind].
  split; [destruct (add_exact x y) as (d & -> & E); apply computes_fix, E|].
  split; [destruct (sub_exact x y) as (d & -> & E); apply computes_fix, E|].
  split; [destruct (mul_exact x y) as (d & -> & E); apply computes_fix, E|].
  split; [intros Hy; apply truediv_computes; intros E; apply Hy, exact_zero, E|].
  split; [intros Hy; rewrite (truediv_by_zero x y (exact_zero_inv y Hy)); reflexivity|].
  rewrite eqb_exact, !ltb_exact, !leb_exact. repeat split.
Qed.

Lemma decimal_arithmetic_witness :
  computes (mkstate [∅] [] []) (exact (int 1) / exact (int 3))
    (eval bare_host LEXICAL 2 (Binop Op.Div (Atom (PDec (int 1))) (Atom (PDec (int 3))))
       (EDict 0) (mkstate [∅] [] [])).
Proof.
  apply (decimal_arithmetic bare_host LEXICAL (EDict 0) (mkstate [∅] [] [])).
  intros E. vm_compute in E. discriminate E.
Defined.

(** The quotient is rounded to the precision of the context: three times
    [(/ 1 3)] is [0.9999999999999999999999999999], which is not 1. *)
Example third_times_three (H : host) (sc : Scoping) (e : env) (s : state) :
  run H sc 3 (TList [TStr "*"; TList [TStr "/"; TStr "1"; TStr "3"]; TStr "3"]) e s
  = (s, Ok (Atom (PDec (Decimal.mk false 9999999999999999999999999999 (-28)))))
  /\ run H sc 4 (TList [TStr "==";
                        TList [TStr "*"; TList [TStr "/"; TStr "1"; TStr "3"]; TStr "3"];
                        TStr "1"]) e s
     = (s, Ok (Atom (PBool false))).
Proof. split; vm_compute; reflexivity. Qed.

(** ** Calls and tail calls *)

(** C8: under the tree-walking evaluator a tail-call node behaves as the
    call node with the same callee and arguments, for every environment,
    state and step budget: same state afterwards, same outcome. The two
    differ in the opcode that ends their compiled form, [PushTailFunc]
    instead of [PushFunc], and in nothing else. *)
Theorem TailCall_as_Call (H : host) (sc : Scoping) (fuel : nat) (name : node)
    (args : list node) (e : env) (s : state) (id : list nat -> N) (pos : list nat) :
  eval H sc fuel (TailCall name args) e s = eval H sc fuel (Call name args) e s
  /\ (let compiled_args := yield_all (rev (each_from (iter id) pos 1 args)) in
      iter id pos (Call name args)
      = then_ compiled_args (yield_with (value_of name) (fun v => yield (PushFunc v)))
      /\ iter id pos (TailCall name args)
         = then_ compiled_args (yield_with (value_of name) (fun v => yield (PushTailFunc v)))).
Proof.
  split.
  - destruct fuel as [|f]; reflexivity.
  - cbn zeta. split; reflexivity.
Qed.

(** A call of a name that no frame binds raises [ProgramError], whether
    marked as a tail call or not. *)
Lemma Call_unbound (H : host) (sc : Scoping) (fuel : nat) (f : string)
    (e : env) (s : state) :
  getitem (frames s) e f = Raise KeyError ->
  eval H sc (S fuel) (Call (Name (TStr f)) []) e s
  = (s, Raise (ProgramError (UnknownName (PStr f)))).
Proof.
  intros Hk. cbn [eval for_each value_of]. unfold bind, ret, lift, except_KeyError, lookup.
  cbn [key_of]. rewrite Hk. reflexivity.
Qed.

(** ** The three binding forms *)

Lemma eval_Ok_fuel (H : host) (sc : Scoping) (fuel : nat) (n : node) (e : env)
    (s s' : state) (v : node) :
  eval H sc fuel n e s = (s', Ok v) -> exists f, fuel = S f.
Proof. destruct fuel; [discriminate | eauto]. Qed.

(** The defining equations of [eval] at the binding forms. *)
Lemma eval_Setc (H : host) (sc : Scoping) (f : nat) (name value : node) (e : env) :
  eval H sc (S f) (Setc name value) e =
  (let* nm := eval H sc f name e in
   let* v := eval H sc f value e in
   match maps e with
   | Some ms =>
       match ms !! 1%nat with
       | Some m =>
           let* nv := lift (value_of nm) in
           let* k := lift (key_of nv) in
           let* _ := store m k v in
           ret v
       | None => raise IndexError
       end
   | None =>
       let* nv := lift (value_of nm) in
       let* k := lift (key_of nv) in
       let* _ := store e k v in
       ret v
   end).
Proof. reflexivity. Qed.

Lemma eval_Setg (H : host) (sc : Scoping) (f : nat) (name value : node) (e : env) :
  eval H sc (S f) (Setg name value) e =
  (let* nm := eval H sc f name e in
   let* v := eval H sc f value e in
   match maps e with
   | Some ms =>
       let* nv := lift (value_of nm) in
       let* k := lift (key_of nv) in
       let* _ := store (List.last ms e) k v in
       ret v
   | None =>
       let* nv := lift (value_of nm) in
       let* k := lift (key_of nv) in
       let* _ := store e k v in
       ret v
   end).
Proof. reflexivity. Qed.

Lemma eval_Name (H : host) (sc : Scoping) (f : nat) (t : tree) (e : env) :
  eval H sc (S f) (Name t) e = ret (Name t).
Proof. reflexivity. Qed.

(** C3, counterexample: a function defined and called at top level runs
    in the chain [args, global] with no captured frame in between; [setc]
    in its body writes [env.maps[1]], which is the global frame (frame 0
    here, the dict the program runs in). *)
Lemma setc_without_closure :
  let program :=
    TList [TList [TStr "set"; TStr "f";
                  TList [TStr "lambda"; TList [TStr "x"];
                         TList [TStr "setc"; TStr "y"; TStr "x"]]];
           TList [TStr "f"; TStr "7"]] in
  let s' := fst (run bare_host LEXICAL 6 program (EDict 0) (mkstate [∅] [] [])) in
  snd (run bare_host LEXICAL 6 program (EDict 0) (mkstate [∅] [] [])) = Ok (Atom (PDec (int 7)))
  /\ length (frames s') = 2
  /\ (frames s' !! 0 ≫= (.!! "y")) = Some (Atom (PDec (int 7)))
  /\ (frames s' !! 1 ≫= (.!! "y")) = None.
Proof. vm_compute. repeat split; reflexivity. Qed.

(** C3, amended: in a chained environment made of a local frame, zero or
    more captured-closure frames and a global frame, [setc] evaluates its
    right-hand side and then writes its name into [env.maps[1]], the frame
    directly enclosing the local one: the first captured-closure frame when
    there is one, the global frame when there is none. [setg] writes into
    the global frame whatever the nesting depth. Either write changes that
    one frame and no other, and the form returns the bound value. *)
Theorem Setc_Setg_frames (H : host) (sc : Scoping) (fuel : nat) (k : string)
    (value : node) (l : nat) (cs : list nat) (g : nat) (s s1 : state) (v : node) :
  let e := EChain (EDict l) (map EDict cs ++ [EDict g]) in
  let write (c : nat) (d : gmap string node) :=
    mkstate (<[c := <[k := v]> d]> (frames s1)) (stdin s1) (stdout s1) in
  eval H sc fuel value e s = (s1, Ok v) ->
  (forall d, frames s1 !! List.hd g cs = Some d ->
     eval H sc (S fuel) (Setc (Name (TStr k)) value) e s = (write (List.hd g cs) d, Ok v)
     /\ forall i, i <> List.hd g cs -> frames (write (List.hd g cs) d) !! i = frames s1 !! i)
  /\ (forall d, frames s1 !! g = Some d ->
     eval H sc (S fuel) (Setg (Name (TStr k)) value) e s = (write g d, Ok v)
     /\ forall i, i <> g -> frames (write g d) !! i = frames s1 !! i).
Proof.
  cbn zeta. intros Hv.
  destruct (eval_Ok_fuel _ _ _ _ _ _ _ _ Hv) as [f ->].
  split; intros d Hd.
  - split.
    + rewrite eval_Setc, eval_Name. unfold bind at 1. cbn [ret].
      unfold bind at 1. rewrite Hv.
      cbn [maps]. replace ((EDict l :: map EDict cs ++ [EDict g]) !! 1%nat)
        with (Some (EDict (List.hd g cs))) by (destruct cs; reflexivity).
      unfold bind, lift, ret, store, setitem. cbn [value_of key_of target].
      rewrite Hd. reflexivity.
    + intros i Hi. cbn [frames]. apply list_lookup_insert_ne. congruence.
  - split.
    + rewrite eval_Setg, eval_Name. unfold bind at 1. cbn [ret].
      unfold bind at 1. rewrite Hv.
      cbn [maps].
      replace (List.last (EDict l :: map EDict cs ++ [EDict g]) _) with (EDict g).
      2:{ change (EDict l :: map EDict cs ++ [EDict g])
            with ((EDict l :: map EDict cs) ++ [EDict g])%list.
          symmetry. apply List.last_last. }
      unfold bind, lift, ret, store, setitem. cbn [value_of key_of target].
      rewrite Hd. reflexivity.
    + intros i Hi. cbn [frames]. apply list_lookup_insert_ne. congruence.
Qed.

(** One captured frame between the local and the global one: [setc]
    writes frame 1, [setg] frame 2. *)
Lemma Setc_Setg_frames_witness :
  let e := EChain (EDict 0) [EDict 1; EDict 2] in
  let s := mkstate [∅; ∅; ∅] [] [] in
  eval bare_host LEXICAL 2 (Setc (Name (TStr "y")) Nil) e s
  = (mkstate [∅; <["y" := Nil]> ∅; ∅] [] [], Ok Nil)
  /\ eval bare_host LEXICAL 2 (Setg (Name (TStr "y")) Nil) e s
  = (mkstate [∅; ∅; <["y" := Nil]> ∅] [] [], Ok Nil).
Proof.
  pose proof (Setc_Setg_frames bare_host LEXICAL 1 "y" Nil 0 [1] 2
                (mkstate [∅; ∅; ∅] [] []) (mkstate [∅; ∅; ∅] [] []) Nil eq_refl)
    as [Hc Hg].
  split; [exact (proj1 (Hc ∅ eq_refl)) | exact (proj1 (Hg ∅ eq_refl))].
Defined.

(** Under dynamic scoping the environment of a call made from inside
    another call ends in the caller's whole ChainMap, and writing through a
    ChainMap writes its first map: [setg] in [g], called from [f], lands in
    the local frame of [f] (frame 1) and not in the global frame 0. Under
    lexical scoping, the module's setting, it lands in the global frame. *)
Example setg_nested_call :
  let program :=
    TList [TList [TStr "set"; TStr "g";
                  TList [TStr "lambda"; TList []; TList [TStr "setg"; TStr "y"; TStr "1"]]];
           TList [TStr "set"; TStr "f";
                  TList [TStr "lambda"; TList []; TList [TStr "g"]]];
           TList [TStr "f"]] in
  let after sc := frames (fst (run bare_host sc 9 program (EDict 0) (mkstate [∅] [] []))) in
  (after DYNAMIC !! 0 ≫= (.!! "y")) = None
  /\ (after DYNAMIC !! 1 ≫= (.!! "y")) = Some (Atom (PDec (int 1)))
  /\ (after LEXICAL !! 0 ≫= (.!! "y")) = Some (Atom (PDec (int 1))).
Proof. vm_compute. repeat split; reflexivity. Qed.

(** ** Closures *)

Lemma eval_Lambda (H : host) (sc : Scoping) (f : nat) (ps body : node) (e : env) :
  eval H sc (S f) (Lambda ps body) e = ret (UfuncClass ps body (captured e)).
Proof. reflexivity. Qed.

Lemma eval_Ufunc (H : host) (sc : Scoping) (f : nat) (ps body : node)
    (cl : list env) (args : list node) (e : env) :
  eval H sc (S f) (Ufunc ps body cl args) e =
  (let* pv := lift (value_of ps) in
   match pv with
   | PParams names =>
       let* d := lift (dict_zip names args ∅) in
       let* a := alloc d in
       eval H sc f body (local_env sc a cl e)
   | _ => lift Unmodelled
   end).
Proof. reflexivity. Qed.

(** [dict(zip(names, args))] for string names: the pairs are inserted from
    left to right, so a repeated name keeps its last argument. *)
Lemma dict_zip_strings (ks : list string) (args : list node) (d : gmap string node) :
  dict_zip (map TStr ks) args d
  = Ok (fold_left (fun m p => <[p.1 := p.2]> m) (zip ks args) d).
Proof.
  revert args d. induction ks as [|k ks IH]; intros args d; [reflexivity|].
  destruct args as [|a args]; [reflexivity|]. cbn. apply IH.
Qed.

(** [l[-1]] of a non-empty list. *)
Lemma last_cons {A} (l : list A) (x d : A) : List.last (x :: l) d = List.last l x.
Proof.
  revert x d. induction l as [|y l IH]; intros x d; [reflexivity|].
  change (List.last (x :: y :: l) d) with (List.last (y :: l) d).
  change (List.last (y :: l) x) with (List.last (y :: l) x).
  rewrite (IH y d), (IH y x). reflexivity.
Qed.

(** C4, counterexample: in the chain [local 0, closure 1, global 2] a
    lambda captures frames 0 and 1, the innermost included and the last
    left out. Called under lexical scoping from that chain, the closure runs
    in [args, 0, 1, 2]: [setg] in its body lands in frame 2, the global
    frame of the call site, which therefore is part of the chain. *)
Lemma Lambda_keeps_innermost :
  let e := EChain (EDict 0) [EDict 1; EDict 2] in
  let s := mkstate [∅; ∅; ∅] [] [] in
  let ps := Params [TStr "x"] in
  eval bare_host LEXICAL 1 (Lambda ps (Var "x")) e s
  = (s, Ok (UfuncClass ps (Var "x") [EDict 0; EDict 1]))
  /\ eval bare_host LEXICAL 3
       (Ufunc ps (Setg (Name (TStr "y")) True_) [EDict 0; EDict 1] [Nil]) e s
     = (mkstate [∅; ∅; <["y" := True_]> ∅; <["x" := Nil]> ∅] [] [], Ok True_).
Proof. split; vm_compute; reflexivity. Qed.

(** C4, amended: evaluating a lambda node captures [env.maps[:-1]], every
    frame of a chained environment except the last (the global one), the
    innermost included, and nothing when the environment is a plain dict.
    Invoking the closure builds a fresh local frame that zips the parameter
    names to the supplied arguments, chains it under the captured frames
    followed by the global (last) frame of the call-site environment when
    that is chained and scoping is lexical, or by the whole call-site
    environment otherwise, and evaluates the body in that chain. *)
Theorem Lambda_closure (H : host) (sc : Scoping) (fuel : nat) (ks : list string)
    (body : node) (e : env) (s : state) (cl : list env) (args : list node) :
  let ps := Params (map TStr ks) in
  let captured_frames :=
    match e with
    | EChain first rest => removelast (first :: rest)
    | EDict _ => []
    end in
  let outer :=
    match e, sc with
    | EChain first rest, LEXICAL => List.last rest first
    | _, _ => e
    end in
  let local := fold_left (fun m p => <[p.1 := p.2]> m) (zip ks args) ∅ in
  eval H sc (S fuel) (Lambda ps body) e s = (s, Ok (UfuncClass ps body captured_frames))
  /\ frames s !! length (frames s) = None
  /\ eval H sc (S fuel) (Ufunc ps body cl args) e s
     = eval H sc fuel body (EChain (EDict (length (frames s))) (cl ++ [outer]))
         (mkstate (frames s ++ [local]) (stdin s) (stdout s)).
Proof.
  cbn zeta. split; [|split].
  - rewrite eval_Lambda. destruct e; reflexivity.
  - apply lookup_ge_None_2. lia.
  - rewrite eval_Ufunc. cbn [value_of]. unfold bind at 1. cbn [lift].
    rewrite dict_zip_strings. unfold bind at 1. cbn [lift].
    unfold bind at 1. cbn [alloc].
    unfold local_env. destruct e as [g|first rest]; [destruct sc; reflexivity|].
    cbn [maps]. destruct sc; [reflexivity|].
    rewrite last_cons. reflexivity.
Qed.

(** ** Jump-target labels *)

Lemma hex_val_digit (d : N) : (d < 16)%N -> hex_val (hex_digit d) = d.
Proof.
  intros Hd. destruct d as [|p]; [reflexivity|].
  do 4 (destruct p as [p|p|]; try reflexivity); lia.
Qed.

Lemma hex_digits_value (fuel : nat) (n : N) (acc : string) :
  (n < 16 ^ N.of_nat fuel)%N ->
  hex_value (hex_digits fuel n acc)
  = (n * 16 ^ N.of_nat (String.length acc) + hex_value acc)%N.
Proof.
  revert n acc. induction fuel as [|f IH]; intros n acc Hn.
  - cbn in Hn. assert (n = 0%N) as -> by lia. reflexivity.
  - cbn [hex_digits].
    assert (Hm : (n mod 16 < 16)%N) by (apply N.mod_upper_bound; discriminate).
    assert (Hv : hex_value (String (hex_digit (n mod 16)) acc)
                 = ((n mod 16) * 16 ^ N.of_nat (String.length acc) + hex_value acc)%N).
    { cbn [hex_value]. rewrite hex_val_digit by exact Hm. reflexivity. }
    destruct (n <? 16)%N eqn:E.
    + apply N.ltb_lt in E. rewrite Hv, N.mod_small by exact E. reflexivity.
    + rewrite IH.
      * rewrite Hv. cbn [String.length]. rewrite Nat2N.inj_succ, N.pow_succ_r'.
        pose proof (N.Div0.div_mod n 16) as D.
        generalize dependent (n mod 16)%N. generalize dependent (n / 16)%N.
        generalize (16 ^ N.of_nat (String.length acc))%N. intros. nia.
      * rewrite Nat2N.inj_succ, N.pow_succ_r' in Hn.
        apply N.Div0.div_lt_upper_bound. exact Hn.
Qed.

Lemma size_fuel (n : N) : (n < 16 ^ N.of_nat (S (N.to_nat (N.size n))))%N.
Proof.
  rewrite Nat2N.inj_succ, N2Nat.id.
  apply N.lt_le_trans with (2 ^ N.size n)%N; [apply N.size_gt|].
  transitivity (16 ^ N.size n)%N.
  - apply N.pow_le_mono_l. lia.
  - apply N.pow_le_mono_r; lia.
Qed.

Lemma append_inv_head (p x y : string) : p +:+ x = p +:+ y -> x = y.
Proof.
  induction p as [|c p IH]; [trivial|]. cbn. intros E. injection E as E. auto.
Qed.

(** [hex] is one-to-one: the digits denote the number. *)
Lemma hex_inj (a b : N) : hex a = hex b -> a = b.
Proof.
  unfold hex. intros E. apply append_inv_head in E.
  apply (f_equal hex_value) in E.
  rewrite !hex_digits_value in E by apply size_fuel.
  cbn in E. lia.
Qed.

(** A label names one kind and one address. *)
Lemma label_name_inj (k k' : label_kind) (a b : N) :
  label_name k a = label_name k' b -> k = k' /\ a = b.
Proof.
  unfold label_name.
  destruct k, k'; cbn [label_prefix]; intros E.
  all: try (apply append_inv_head, hex_inj in E; split; [reflexivity | exact E]).
  all: exfalso; lazy [String.append] in E.

  all: congruence.
Qed.

Lemma labels_then (a b : emitted) :
  labels (then_ a b) = (labels a ++ labels b)%list \/ labels (then_ a b) = labels a.
Proof.
  unfold labels, then_. destruct a as [l []]; cbn [fst]; auto.
  left. apply omap_app.
Qed.

Lemma height_In (c : node) (cs : list node) :
  In c cs -> height c <= fold_right (fun c m => Nat.max (height c) m) 0 cs.
Proof.
  induction cs as [|x cs IH]; [intros []|]. cbn [In fold_right].
  intros [-> | Hc]; [lia|]. specialize (IH Hc). lia.
Qed.

Section Labels.
Variable id : list nat -> N.
(** Distinct node objects have distinct addresses. *)
Hypothesis id_inj : forall p q : list nat, id p = id q -> p = q.

Lemma owned_weaken pos (R R' : label_kind -> list nat -> Prop) out :
  owned id pos R out -> (forall k q, R k q -> R' k q) -> owned id pos R' out.
Proof.
  intros [Hn Ho] Hw. split; [exact Hn|]. intros s Hs.
  destruct (Ho s Hs) as (k & q & Hr & E). eauto.
Qed.

Lemma owned_nil pos R r : owned id pos R ([], r).
Proof. split; [constructor|]. intros s Hs. inversion Hs. Qed.

Lemma owned_Label pos k : owned id pos (own k) (yield (Label (label_name k (id pos)))).
Proof.
  split; [apply NoDup_singleton|]. intros s Hs. cbn in Hs.
  apply list_elem_of_singleton in Hs. exists k, []. rewrite app_nil_r.
  split; [split; reflexivity | exact Hs].
Qed.

Lemma owned_other pos (i : inst) :
  match i with Label _ => False | _ => True end -> owned id pos nowhere (yield i).
Proof.
  intros Hi. destruct i; try contradiction; apply (owned_nil pos nowhere (Ok tt)).
Qed.

Lemma owned_then pos R R' a b :
  owned id pos R a -> owned id pos R' b ->
  (forall k q, R k q -> R' k q -> False) ->
  owned id pos (either R R') (then_ a b).
Proof.
  intros [Na Oa] [Nb Ob] Hd.
  destruct (labels_then a b) as [E | E]; unfold owned; rewrite E.
  - split.
    + apply NoDup_app. split; [exact Na|]. split; [|exact Nb].
      intros s Ha Hb.
      destruct (Oa s Ha) as (k & q & Hr & E1).
      destruct (Ob s Hb) as (k' & q' & Hr' & E2).
      rewrite E1 in E2. apply label_name_inj in E2 as [-> E2].
      apply id_inj, app_inv_head in E2. subst q'. eauto.
    + intros s Hs. apply elem_of_app in Hs as [Hs | Hs].
      * destruct (Oa s Hs) as (k & q & Hr & E1). exists k, q. split; [left|]; auto.
      * destruct (Ob s Hs) as (k & q & Hr & E1). exists k, q. split; [right|]; auto.
  - split; [exact Na|]. intros s Hs.
    destruct (Oa s Hs) as (k & q & Hr & E1). exists k, q. split; [left|]; auto.
Qed.

Lemma owned_yield_with {A} pos R (r : res A) (k : A -> emitted) :
  (forall a, owned id pos R (k a)) -> owned id pos R (yield_with r k).
Proof. intros Hk. destruct r; cbn; auto using owned_nil. Qed.

(** What the child at index [i] owns, seen from its parent. *)
Lemma owned_child pos i R out :
  owned id (pos ++ [i]) R out -> owned id pos (below i) out.
Proof.
  intros [Hn Ho]. split; [exact Hn|]. intros s Hs.
  destruct (Ho s Hs) as (k & q & _ & E). exists k, (i :: q).
  split; [reflexivity|]. rewrite E, <- app_assoc. reflexivity.
Qed.

(** Emissions filed under pairwise distinct child indices, in any order. *)
Lemma owned_yield_all pos (L : list (nat * emitted)) :
  NoDup (map fst L) ->
  (forall i out, (i, out) ∈ L -> owned id pos (below i) out) ->
  owned id pos (fun _ q => exists i, i ∈ map fst L /\ head q = Some i)
    (yield_all (map snd L)).
Proof.
  induction L as [|[i out] L IH]; intros Hn Ho.
  - eapply owned_weaken; [apply (owned_nil pos nowhere (Ok tt))|]. intros k q [].
  - cbn [map fst snd] in *. apply NoDup_cons in Hn as [Hi Hn].
    change (yield_all (out :: map snd L)) with (then_ out (yield_all (map snd L))).
    eapply owned_weaken.
    + apply owned_then.
      * apply (Ho i out). left.
      * apply IH; [exact Hn|]. intros j o Hj. apply Ho. right. exact Hj.
      * cbv beta. intros k q Hq (j & Hj & Hq'). unfold below in Hq.
        rewrite Hq in Hq'. injection Hq' as ->. contradiction.
    + intros k q [Hq | (j & Hj & Hq)].
      * exists i. split; [left|exact Hq].
      * exists j. split; [right; exact Hj|exact Hq].
Qed.

(** [each_from] files the child at offset [j] under index [i + j]. *)
Lemma each_from_indexed (it : list nat -> node -> emitted) pos (i : nat)
    (cs : list node) :
  each_from it pos i cs
  = map snd (map (fun '(j, c) => (j, it (pos ++ [j])%list c)) (zip (seq i (length cs)) cs)).
Proof.
  revert i. induction cs as [|c cs IH]; intros i; [reflexivity|].
  cbn [each_from length seq zip zip_with map snd]. rewrite IH. reflexivity.
Qed.

Lemma indexed_fst (it : list nat -> node -> emitted) pos (i : nat) (cs : list node) :
  map fst (map (fun '(j, c) => (j, it (pos ++ [j])%list c)) (zip (seq i (length cs)) cs))
  = seq i (length cs).
Proof.
  revert i. induction cs as [|c cs IH]; intros i; [reflexivity|].
  cbn [length seq zip zip_with map fst]. rewrite IH. reflexivity.
Qed.

Lemma owned_children pos (i : nat) (cs : list node) (backwards : bool) :
  (forall j c, In c cs -> owned id (pos ++ [j]) (fun _ _ => True) (iter id (pos ++ [j]) c)) ->
  owned id pos (fun _ _ => True)
    (yield_all (if backwards then rev (each_from (iter id) pos i cs)
                else each_from (iter id) pos i cs)).
Proof.
  intros Hc. rewrite each_from_indexed.
  set (L := map (fun '(j, c) => (j, iter id (pos ++ [j])%list c)) (zip (seq i (length cs)) cs)).
  assert (HL : forall j out, (j, out) ∈ L -> owned id pos (below j) out).
  { intros j out Hj. apply list_elem_of_fmap in Hj as ([j' c] & E & Hz).
    injection E as -> ->. eapply owned_child, Hc.
    apply list_elem_of_In. apply elem_of_zip_r in Hz. exact Hz. }
  assert (HN : NoDup (map fst L)).
  { unfold L. rewrite indexed_fst. apply NoDup_ListNoDup, List.seq_NoDup. }
  destruct backwards.
  - rewrite <- map_rev. eapply owned_weaken; [apply owned_yield_all|auto].
    + rewrite map_rev, <- Permutation_rev. exact HN.
    + intros j out Hj. apply HL. apply list_elem_of_In, in_rev, list_elem_of_In, Hj.
  - eapply owned_weaken; [apply owned_yield_all; assumption|auto].
Qed.

Ltac disjoint_owners :=
  unfold either, own, below, nowhere; intros;
  repeat match goal with
         | H : _ /\ _ |- _ => destruct H
         | H : _ \/ _ |- _ => destruct H
         | H : False |- _ => destruct H
         end; subst; try discriminate; try congruence.

Ltac owned_step IH :=
  lazymatch goal with
  | |- owned _ _ _ (then_ _ _) =>
      eapply owned_then; [owned_step IH | owned_step IH | disjoint_owners]
  | |- owned _ _ _ (yield (Label _)) => apply owned_Label
  | |- owned _ _ _ (yield _) => apply owned_other; exact I
  | |- owned _ _ _ (yield_with _ _) => apply owned_yield_with; intros; owned_step IH
  | |- owned _ _ _ (yield_all (rev (each_from _ ?pos ?i ?cs))) =>
      apply (owned_children pos i cs true); intros; apply IH
  | |- owned _ _ _ (yield_all (each_from _ ?pos ?i ?cs)) =>
      apply (owned_children pos i cs false); intros; apply IH
  | |- owned _ _ _ (iter _ (_ ++ [_])%list _) => eapply owned_child; apply IH
  | |- owned _ _ _ (_, _) => apply (owned_nil _ nowhere)
  end.

Lemma iter_owned (h : nat) :
  forall (n : node) (pos : list nat),
    height n <= h -> owned id pos (fun _ _ => True) (iter id pos n).
Proof.
  induction h as [|h IH]; intros n pos Hh.
  - destruct n; cbn [height] in Hh; try lia; cbn [iter];
      (eapply owned_weaken; [owned_step IH | auto]).
  - destruct n; cbn [height] in Hh; cbn [iter];
      try destruct elsebody;
      (eapply owned_weaken; [owned_step IH | auto]);
      try (match goal with
           | H : In _ _ |- _ => apply height_In in H
           end); lia.
Qed.
End Labels.

(** C9, counterexample: one and the same [while] node, placed at address
    16 and at address 32, is compiled to different label names. *)
Lemma labels_follow_address :
  labels (iter (fun _ => 16%N) [] (While True_ Nil)) = ["loop-start-0x10"; "loop-end-0x10"]
  /\ labels (iter (fun _ => 32%N) [] (While True_ Nil)) = ["loop-start-0x20"; "loop-end-0x20"]
  /\ labels (iter (fun _ => 16%N) [] (While True_ Nil))
     <> labels (iter (fun _ => 32%N) [] (While True_ Nil)).
Proof. split; [reflexivity | split; [reflexivity | discriminate]]. Qed.

(** C9, amended: a jump-target label is made from the kind of target and
    the address of the node ([hex(id(self))]), and names them one-to-one.
    So, as long as distinct node objects have distinct addresses, the
    labels emitted when compiling a tree are pairwise distinct, each naming
    a node of that tree; and the names depend on where the nodes are
    placed, not on their structure. *)
Theorem labels_by_identity (id : list nat -> N) (n : node) (pos : list nat) :
  (forall p q : list nat, id p = id q -> p = q) ->
  NoDup (labels (iter id pos n))
  /\ (forall s, s ∈ labels (iter id pos n) ->
       exists k q, s = label_name k (id (pos ++ q)%list))
  /\ (forall k k' a b, label_name k a = label_name k' b <-> k = k' /\ a = b).
Proof.
  intros Hinj.
  destruct (iter_owned id Hinj (height n) n pos (le_n _)) as [Hn Ho].
  split; [exact Hn|]. split.
  - intros s Hs. destruct (Ho s Hs) as (k & q & _ & E). eauto.
  - intros k k' a b. split; [apply label_name_inj | intros [-> ->]; reflexivity].
Qed.

(** Two structurally identical loops, each at its own address. *)
Lemma labels_by_identity_witness :
  NoDup (labels (iter spread [] (Suite [While True_ Nil; While True_ Nil]))).
Proof.
  refine (proj1 (labels_by_identity spread _ [] _)).
  intros p q E. injection E as E. exact (encode_inj _ _ E).
Defined.

(** * Further properties *)

#[local] Set Warnings "-clear-no-such-hyp".

(** ** Environments *)

(** Induction on a mapping object, with the hypothesis for every map of a
    ChainMap. *)
Lemma env_nested_ind (P : env -> Prop) :
  (forall f, P (EDict f)) ->
  (forall first rest, P first -> Forall P rest -> P (EChain first rest)) ->
  forall e, P e.
Proof.
  intros Hd Hc. fix IH 1. intros [f | first rest]; [apply Hd|].
  apply Hc; [apply IH|]. induction rest as [|x rest IHr]; constructor; [apply IH | exact IHr].
Qed.

(** What [env[k] = v] stores, [env[k]] returns. *)
Lemma setitem_then_getitem (fs fs' : list (gmap string node)) (e : env) (k : string) (v : node) :
  setitem fs e k v = Ok fs' -> getitem fs' e k = Ok v.
Proof.
  unfold setitem. destruct (fs !! target e) as [m|] eqn:Hm; [|discriminate].
  intros E. injection E as <-. revert Hm.
  induction e as [f | first IH rest]; cbn [target getitem]; intros Hm.
  - rewrite list_lookup_insert_eq by (eapply lookup_lt_Some; exact Hm).
    rewrite lookup_insert_eq. reflexivity.
  - rewrite (IH Hm). reflexivity.
Qed.

(** Binding a name leaves every other name as it was, through whatever
    mapping object it is looked up. *)
Lemma setitem_other_key (fs fs' : list (gmap string node)) (e e' : env)
    (k k' : string) (v : node) :
  setitem fs e k v = Ok fs' -> k' <> k -> getitem fs' e' k' = getitem fs e' k'.
Proof.
  unfold setitem. destruct (fs !! target e) as [m|] eqn:Hm; [|discriminate].
  intros E Hk. injection E as <-.
  induction e' as [f | first rest IH IHr] using env_nested_ind; cbn [getitem].
  - destruct (decide (f = target e)) as [->|Hf].
    + rewrite list_lookup_insert_eq by (eapply lookup_lt_Some; exact Hm).
      rewrite Hm, lookup_insert_ne by congruence. reflexivity.
    + rewrite list_lookup_insert_ne by congruence. reflexivity.
  - rewrite IH. clear IH.
    match goal with
    | |- match ?x with _ => _ end = match ?x with _ => _ end =>
        assert (G : forall a b : res node, a = b ->
                  match x with Raise KeyError => a | y => y end
                  = match x with Raise KeyError => b | y => y end)
          by (intros ? ? ->; reflexivity);
        apply G; clear G
    end.
    induction IHr as [|x rest Hx _ IHrest]; [reflexivity|].
    rewrite Hx, IHrest. reflexivity.
Qed.

(** The membership test in terms of the lookup. *)
Lemma contains_as_getitem (fs : list (gmap string node)) (e : env) (k : string) :
  match getitem fs e k with
  | Ok _ => contains fs e k = Ok true
  | Raise KeyError => contains fs e k = Ok false
  | Raise _ | NoFuel => False
  | Unmodelled => contains fs e k = Unmodelled
  end.
Proof.
  induction e as [f | first rest IH IHr] using env_nested_ind; cbn [getitem contains].
  - destruct (fs !! f) as [m|]; [|reflexivity].
    destruct (m !! k) eqn:E.
    + rewrite bool_decide_eq_true_2 by eauto. reflexivity.
    + rewrite bool_decide_eq_false_2; [reflexivity|]. intros [x Hx]. discriminate.
  - destruct (getitem fs first k) as [v | [] | |]; try contradiction;
      rewrite IH; cbn [res_bind]; try reflexivity.
    clear IH. induction IHr as [|x rest Hx _ IHrest]; [reflexivity|].
    destruct (getitem fs x k) as [v | [] | |]; try contradiction;
      rewrite Hx; cbn [res_bind]; try reflexivity. exact IHrest.
Qed.

(** ** Sequences, bindings and reads *)

Lemma eval_self (H : host) (sc : Scoping) (f : nat) (n : node) (e : env) (s : state) :
  self_evaluating n = true -> eval H sc (S f) n e s = (s, Ok n).
Proof. destruct n; try discriminate; reflexivity. Qed.

Lemma eval_Set (H : host) (sc : Scoping) (f : nat) (name value : node) (e : env) :
  eval H sc (S f) (Set_ name value) e =
  (let* nm := eval H sc f name e in
   let* v := eval H sc f value e in
   let* nv := lift (value_of nm) in
   let* k := lift (key_of nv) in
   let* _ := store e k v in
   ret v).
Proof. reflexivity. Qed.

Lemma eval_Suite (H : host) (sc : Scoping) (f : nat) (children : list node) (e : env) :
  eval H sc (S f) (Suite children) e = suite (fun c => eval H sc f c e) Nil children.
Proof. reflexivity. Qed.

Lemma eval_Var (H : host) (sc : Scoping) (f : nat) (name : string) (e : env) :
  eval H sc (S f) (Var name) e =
  except_KeyError (let* b := lookup e name in eval H sc f b e) (UnknownName (PStr name)).
Proof. reflexivity. Qed.

(** [Set.__call__] on a name token, once the value is evaluated. *)
Lemma eval_Set_binds (H : host) (sc : Scoping) (fuel : nat) (k : string)
    (value : node) (e : env) (s s1 : state) (v : node) (d : gmap string node) :
  let s2 := mkstate (<[target e := <[k := v]> d]> (frames s1)) (stdin s1) (stdout s1) in
  eval H sc fuel value e s = (s1, Ok v) ->
  frames s1 !! target e = Some d ->
  eval H sc (S fuel) (Set_ (Name (TStr k)) value) e s = (s2, Ok v)
  /\ (forall i, i <> target e -> frames s2 !! i = frames s1 !! i)
  /\ (forall l rest, e = EChain (EDict l) rest -> target e = l).
Proof.
  cbn zeta. intros Hv Hd.
  destruct (eval_Ok_fuel _ _ _ _ _ _ _ _ Hv) as [f ->].
  split; [|split].
  - rewrite eval_Set, eval_Name. unfold bind at 1. cbn [ret]. unfold bind at 1.
    rewrite Hv. unfold bind, lift, ret, store, setitem. cbn [value_of key_of].
    rewrite Hd. reflexivity.
  - intros i Hi. cbn [frames]. apply list_lookup_insert_ne. congruence.
  - intros l rest ->. reflexivity.
Qed.

(** X1: [set] evaluates its right-hand side, then binds the name in the
    dict that the environment writes through, the innermost frame of a
    chain, changes no other frame, and returns the value; an outer frame
    that binds the same name is shadowed, not updated. *)
Theorem Set_innermost_frame (H : host) (sc : Scoping) (fuel : nat) (k : string)
    (value : node) (e : env) (s s1 : state) (v : node) (d : gmap string node) :
  let s2 := mkstate (<[target e := <[k := v]> d]> (frames s1)) (stdin s1) (stdout s1) in
  eval H sc fuel value e s = (s1, Ok v) ->
  frames s1 !! target e = Some d ->
  eval H sc (S fuel) (Set_ (Name (TStr k)) value) e s = (s2, Ok v)
  /\ (forall i, i <> target e -> frames s2 !! i = frames s1 !! i)
  /\ (forall l rest, e = EChain (EDict l) rest -> target e = l).
Proof.
  apply eval_Set_binds.
Qed.

Lemma Set_innermost_frame_witness :
  eval bare_host LEXICAL 2 (Set_ (Name (TStr "x")) Nil) (EChain (EDict 1) [EDict 0])
    (mkstate [<["x" := True_]> ∅; ∅] [] [])
  = (mkstate [<["x" := True_]> ∅; <["x" := Nil]> ∅] [] [], Ok Nil).
Proof.
  exact (proj1 (Set_innermost_frame bare_host LEXICAL 1 "x" Nil (EChain (EDict 1) [EDict 0])
                  (mkstate [<["x" := True_]> ∅; ∅] [] []) _ Nil ∅ eq_refl eq_refl)).
Defined.

(** X2: [set] binds one name and does nothing else. Every other name
    reads afterwards as it did once the right-hand side was evaluated,
    through whatever mapping object it is looked up, and the form itself
    neither reads standard input nor writes standard output. *)
Theorem Set_other_names (H : host) (sc : Scoping) (fuel : nat) (k k' : string)
    (value : node) (e e' : env) (s s1 : state) (v : node) (d : gmap string node) :
  eval H sc fuel value e s = (s1, Ok v) ->
  frames s1 !! target e = Some d ->
  k' <> k ->
  exists s2,
    eval H sc (S fuel) (Set_ (Name (TStr k)) value) e s = (s2, Ok v)
    /\ getitem (frames s2) e' k' = getitem (frames s1) e' k'
    /\ stdin s2 = stdin s1 /\ stdout s2 = stdout s1.
Proof.
  intros Hv Hd Hk. eexists. split; [apply eval_Set_binds; eassumption|].
  cbn [frames stdin stdout]. split; [|split; reflexivity].
  apply (setitem_other_key (frames s1) _ e e' k k' v); [|exact Hk].
  unfold setitem. rewrite Hd. reflexivity.
Qed.

Lemma Set_other_names_witness :
  exists s2,
    eval bare_host LEXICAL 2 (Set_ (Name (TStr "x")) Nil) (EChain (EDict 1) [EDict 0])
      (mkstate [<["y" := True_]> ∅; ∅] [] []) = (s2, Ok Nil)
    /\ getitem (frames s2) (EChain (EDict 1) [EDict 0]) "y" = Ok True_.
Proof.
  destruct (Set_other_names bare_host LEXICAL 1 "x" "y" Nil (EChain (EDict 1) [EDict 0])
              (EChain (EDict 1) [EDict 0]) (mkstate [<["y" := True_]> ∅; ∅] [] []) _ Nil ∅
              eq_refl eq_refl ltac:(discriminate)) as (s2 & E & G & _).
  exists s2. split; [exact E | exact (eq_trans G eq_refl)].
Defined.

(** X3: write then read. After [(set k value)], a reference to [k] in the
    same environment evaluates to the value just bound, when that value is a
    node that evaluates to itself (an atom, nil, true, a pair). *)
Theorem set_then_Var (H : host) (sc : Scoping) (fuel : nat) (k : string)
    (value : node) (e : env) (s s1 : state) (v : node) (d : gmap string node) :
  eval H sc fuel value e s = (s1, Ok v) ->
  self_evaluating v = true ->
  frames s1 !! target e = Some d ->
  eval H sc (S (S fuel)) (Suite [Set_ (Name (TStr k)) value; Var k]) e s
  = (mkstate (<[target e := <[k := v]> d]> (frames s1)) (stdin s1) (stdout s1), Ok v).
Proof.
  intros Hv Hs Hd.
  destruct (eval_Set_binds H sc fuel k value e s s1 v d Hv Hd) as [HS _].
  destruct (eval_Ok_fuel _ _ _ _ _ _ _ _ Hv) as [f ->].
  rewrite eval_Suite. cbn [suite]. unfold bind at 1. rewrite HS.
  unfold bind at 1. rewrite eval_Var. unfold except_KeyError, bind, lookup. cbn [frames].
  erewrite setitem_then_getitem; [|unfold setitem; rewrite Hd; reflexivity].
  rewrite eval_self by exact Hs. reflexivity.
Qed.

Lemma set_then_Var_witness :
  eval bare_host LEXICAL 3 (Suite [Set_ (Name (TStr "x")) True_; Var "x"]) (EDict 0)
    (mkstate [∅] [] [])
  = (mkstate [<["x" := True_]> ∅] [] [], Ok True_).
Proof.
  exact (set_then_Var bare_host LEXICAL 1 "x" True_ (EDict 0) (mkstate [∅] [] []) _ True_ ∅
           eq_refl eq_refl eq_refl).
Defined.

Lemma suite_app (ev : node -> M node) (rv : node) (xs ys : list node) (s : state) :
  suite ev rv (xs ++ ys) s = bind (suite ev rv xs) (fun r => suite ev r ys) s.
Proof.
  revert rv s. induction xs as [|x xs IH]; intros rv s; [reflexivity|].
  cbn [app suite]. unfold bind. destruct (ev x s) as [s1 [v| | |]]; try reflexivity.
  rewrite IH. reflexivity.
Qed.

(** X4: sequencing composes. A suite split in two parts, the second not
    empty, runs the first part, drops its value, and runs the second part
    in the state the first one left; when the first part raises, the second
    is not run. The value of a suite is therefore that of its last child. *)
Theorem Suite_app (H : host) (sc : Scoping) (f : nat) (xs ys : list node)
    (e : env) (s : state) :
  ys <> [] ->
  eval H sc (S f) (Suite (xs ++ ys)) e s
  = bind (eval H sc (S f) (Suite xs) e) (fun _ => eval H sc (S f) (Suite ys) e) s.
Proof.
  intros Hy. rewrite !eval_Suite, suite_app.
  unfold bind. destruct (suite _ Nil xs s) as [s1 [r| | |]]; try reflexivity.
  destruct ys as [|y ys]; [contradiction|]. reflexivity.
Qed.

Lemma Suite_app_witness :
  eval bare_host LEXICAL 2 (Suite ([True_] ++ [Nil])) (EDict 0) (mkstate [∅] [] [])
  = (mkstate [∅] [] [], Ok Nil).
Proof.
  exact (eq_trans (Suite_app bare_host LEXICAL 1 [True_] [Nil] (EDict 0)
                     (mkstate [∅] [] []) ltac:(discriminate)) eq_refl).
Defined.

(** ** Pairs and lists *)

Lemma eval_Cons (H : host) (sc : Scoping) (f : nat) (a b : node) (e : env) :
  eval H sc (S f) (Cons a b) e =
  (let* x := eval H sc f a e in let* y := eval H sc f b e in ret (Cell x y)).
Proof. reflexivity. Qed.

Lemma eval_Car (H : host) (sc : Scoping) (f : nat) (c : node) (e : env) :
  eval H sc (S f) (Car c) e = (let* x := eval H sc f c e in lift (getattr_car x)).
Proof. reflexivity. Qed.

Lemma eval_Cdr (H : host) (sc : Scoping) (f : nat) (c : node) (e : env) :
  eval H sc (S f) (Cdr c) e = (let* x := eval H sc f c e in lift (getattr_cdr x)).
Proof. reflexivity. Qed.

Lemma eval_List (H : host) (sc : Scoping) (f : nat) (values : list node) (e : env) :
  eval H sc (S f) (List values) e =
  (let* vs := for_each (fun v => eval H sc f v e) values in build_list vs).
Proof. reflexivity. Qed.

(** X5: [car] and [cdr] undo [cons]. [(car (cons a b))] is the value of
    [a] and [(cdr (cons a b))] the value of [b]; both operands are
    evaluated, [a] first, and their effects are kept. *)
Theorem car_cdr_cons (H : host) (sc : Scoping) (f : nat) (a b : node) (e : env)
    (s s1 s2 : state) (x y : node) :
  eval H sc f a e s = (s1, Ok x) ->
  eval H sc f b e s1 = (s2, Ok y) ->
  eval H sc (S (S f)) (Car (Cons a b)) e s = (s2, Ok x)
  /\ eval H sc (S (S f)) (Cdr (Cons a b)) e s = (s2, Ok y).
Proof.
  intros Ha Hb. rewrite eval_Car, eval_Cdr, eval_Cons. unfold bind, ret, lift.
  rewrite Ha, Hb. split; reflexivity.
Qed.

Lemma car_cdr_cons_witness :
  eval bare_host LEXICAL 3 (Car (Cons True_ Nil)) (EDict 0) (mkstate [∅] [] [])
  = (mkstate [∅] [] [], Ok True_).
Proof.
  exact (proj1 (car_cdr_cons bare_host LEXICAL 1 True_ Nil (EDict 0) (mkstate [∅] [] [])
                  _ _ True_ Nil eq_refl eq_refl)).
Defined.

Lemma build_list_chain (vs : list node) (s : state) :
  vs <> [] -> build_list vs s = (s, Ok (fold_right Cell Nil vs)).
Proof.
  intros Hv. unfold build_list.
  rewrite <- (rev_involutive vs) at 2. rewrite fold_left_rev_right.
  destruct (rev vs) as [|x r] eqn:E.
  - apply (f_equal (@rev node)) in E. rewrite rev_involutive in E. contradiction.
  - reflexivity.
Qed.

Lemma Native_build_chain (ps : list pyval) :
  ps <> [] -> Native.build ps = Ok (fold_right PPair PNone ps).
Proof.
  intros Hp. unfold Native.build.
  rewrite <- (rev_involutive ps) at 2. rewrite fold_left_rev_right.
  destruct (rev ps) as [|x r] eqn:E.
  - apply (f_equal (@rev pyval)) in E. rewrite rev_involutive in E. contradiction.
  - reflexivity.
Qed.

(** X6: [(list v1 ... vn)] evaluates to the chain of pair cells
    [Cell(v1, Cell(v2, ... Cell(vn, Nil)))], in the order written, and the
    [value] of that chain is what the compiled path's [List.build] makes of
    the elements' values: the two ways of building a list agree. *)
Theorem List_chain (H : host) (sc : Scoping) (f : nat) (values : list node)
    (e : env) (s s' : state) (vs : list node) (ps : list pyval) :
  for_each (fun v => eval H sc f v e) values s = (s', Ok vs) ->
  vs <> [] ->
  Forall2 (fun v p => value_of v = Ok p) vs ps ->
  eval H sc (S f) (List values) e s = (s', Ok (fold_right Cell Nil vs))
  /\ value_of (fold_right Cell Nil vs) = Native.build ps.
Proof.
  intros Hv Hn Hp. split.
  - rewrite eval_List. unfold bind. rewrite Hv. apply build_list_chain, Hn.
  - rewrite Native_build_chain by (destruct Hp; [contradiction | discriminate]).
    clear Hv Hn. induction Hp as [|v p vs ps Hvp _ IH]; [reflexivity|].
    cbn [fold_right value_of]. rewrite Hvp, IH. reflexivity.
Qed.

Lemma List_chain_witness :
  eval bare_host LEXICAL 2 (List [True_; Nil]) (EDict 0) (mkstate [∅] [] [])
  = (mkstate [∅] [] [], Ok (Cell True_ (Cell Nil Nil))).
Proof.
  refine (proj1 (List_chain bare_host LEXICAL 1 [True_; Nil] (EDict 0) (mkstate [∅] [] [])
                   _ [True_; Nil] [PBool true; PNone] eq_refl ltac:(discriminate) _)).
  repeat constructor.
Defined.

(** ** Assertions *)

Lemma eval_Assert (H : host) (sc : Scoping) (f : nat) (cond msg : node) (e : env) :
  eval H sc (S f) (Assert cond msg) e =
  (let* c := eval H sc f cond e in
   let* cv := lift (value_of c) in
   if truthy cv then ret Nil
   else
     let* m := eval H sc f msg e in
     let* mv := lift (value_of m) in
     raise (ProgramError (Message mv))).
Proof. reflexivity. Qed.

(** X7: [Assert.__call__] and [check_assert], the function the compiled
    form calls, end the same way on the same operand values. The evaluator
    evaluates the message only when the condition fails, so a passing
    assertion keeps only the condition's effects. *)
Theorem Assert_check_assert (H : host) (sc : Scoping) (f : nat) (cond msg : node)
    (e : env) (s s1 s2 : state) (c m : node) (cv mv : pyval) :
  eval H sc f cond e s = (s1, Ok c) -> value_of c = Ok cv ->
  eval H sc f msg e s1 = (s2, Ok m) -> value_of m = Ok mv ->
  eval H sc (S f) (Assert cond msg) e s
  = (if truthy cv then s1 else s2, Native.check_assert cv mv).
Proof.
  intros Hc Hcv Hm Hmv. rewrite eval_Assert. unfold bind, lift, ret, raise.
  rewrite Hc, Hcv. unfold Native.check_assert. destruct (truthy cv); [reflexivity|].
  rewrite Hm, Hmv. reflexivity.
Qed.

Lemma Assert_check_assert_witness :
  eval bare_host LEXICAL 2 (Assert Nil (Atom (PStr "boom"))) (EDict 0) (mkstate [∅] [] [])
  = (mkstate [∅] [] [], Raise (ProgramError (Message (PStr "boom")))).
Proof.
  exact (Assert_check_assert bare_host LEXICAL 1 Nil (Atom (PStr "boom")) (EDict 0)
           (mkstate [∅] [] []) _ _ Nil (Atom (PStr "boom")) PNone (PStr "boom")
           eq_refl eq_refl eq_refl eq_refl).
Defined.

(** ** Loops *)

Lemma eval_While (H : host) (sc : Scoping) (f : nat) (cond body : node) (e : env) :
  eval H sc (S f) (While cond body) e
  = while_loop (fun c => eval H sc f c e) f cond body Nil.
Proof. reflexivity. Qed.

(** X8: a loop whose condition is false on entry returns nil, having
    evaluated the condition once and the body not at all; a loop whose
    condition holds once and then fails returns the value of its body. *)
Theorem While_iterations (H : host) (sc : Scoping) (f : nat) (cond body : node)
    (e : env) (s s1 : state) (c : node) (cv : pyval) :
  eval H sc (S (S f)) cond e s = (s1, Ok c) -> value_of c = Ok cv ->
  (truthy cv = false ->
     eval H sc (S (S (S f))) (While cond body) e s = (s1, Ok Nil))
  /\ (forall s2 s3 rv c' cv',
        truthy cv = true ->
        eval H sc (S (S f)) body e s1 = (s2, Ok rv) ->
        eval H sc (S (S f)) cond e s2 = (s3, Ok c') -> value_of c' = Ok cv' ->
        truthy cv' = false ->
        eval H sc (S (S (S f))) (While cond body) e s = (s3, Ok rv)).
Proof.
  intros Hc Hcv. split.
  - intros Ht. rewrite eval_While. cbn [while_loop]. unfold bind, lift, ret.
    rewrite Hc, Hcv, Ht. reflexivity.
  - intros s2 s3 rv c' cv' Ht Hb Hc' Hcv' Ht'.
    rewrite eval_While. cbn [while_loop]. unfold bind, lift, ret.
    rewrite Hc, Hcv, Ht, Hb, Hc', Hcv', Ht'. reflexivity.
Qed.

Lemma While_iterations_witness :
  eval bare_host LEXICAL 3 (While Nil True_) (EDict 0) (mkstate [∅] [] [])
  = (mkstate [∅] [] [], Ok Nil).
Proof.
  exact (proj1 (While_iterations bare_host LEXICAL 0 Nil True_ (EDict 0) (mkstate [∅] [] [])
                  _ Nil PNone eq_refl eq_refl) eq_refl).
Defined.

(** ** Reading input *)

Lemma eval_Read (H : host) (sc : Scoping) (f : nat) (e : env) :
  eval H sc (S f) Read e =
  (let* b := has_key e "--stdin" in
   if b then let* x := lookup e "--stdin" in eval H sc f x e
   else let* line := next_line in ret (Atom (PStr line))).
Proof. reflexivity. Qed.

(** X9: [read]. Where no frame binds [--stdin], it takes the first
    pending line of standard input and returns it as a string atom, and at
    end of input it raises [StopIteration] (no [ProgramError]). Where a frame
    binds [--stdin] to a self-evaluating node, that node is the result and
    standard input is not touched. *)
Theorem Read_line_or_override (H : host) (sc : Scoping) (f : nat) (e : env) (s : state) :
  (getitem (frames s) e "--stdin" = Raise KeyError ->
     eval H sc (S f) Read e s
     = match stdin s with
       | line :: rest => (mkstate (frames s) rest (stdout s), Ok (Atom (PStr line)))
       | [] => (s, Raise StopIteration)
       end)
  /\ (forall v, getitem (frames s) e "--stdin" = Ok v -> self_evaluating v = true ->
       eval H sc (S (S f)) Read e s = (s, Ok v)).
Proof.
  pose proof (contains_as_getitem (frames s) e "--stdin") as Hc. split.
  - intros Hg. rewrite Hg in Hc. rewrite eval_Read. unfold bind, has_key. rewrite Hc.
    unfold next_line, ret. destruct (stdin s); reflexivity.
  - intros v Hg Hs. rewrite Hg in Hc. rewrite eval_Read. unfold bind, has_key, lookup.
    rewrite Hc, Hg. apply eval_self, Hs.
Qed.

Lemma Read_line_or_override_witness :
  eval bare_host LEXICAL 1 Read (EDict 0) (mkstate [∅] ["a"; "b"] [])
  = (mkstate [∅] ["b"] [], Ok (Atom (PStr "a")))
  /\ eval bare_host LEXICAL 2 Read (EDict 0) (mkstate [<["--stdin" := Nil]> ∅] ["a"] [])
     = (mkstate [<["--stdin" := Nil]> ∅] ["a"] [], Ok Nil).
Proof.
  split.
  - exact (proj1 (Read_line_or_override bare_host LEXICAL 0 (EDict 0)
                    (mkstate [∅] ["a"; "b"] [])) eq_refl).
  - exact (proj2 (Read_line_or_override bare_host LEXICAL 0 (EDict 0)
                    (mkstate [<["--stdin" := Nil]> ∅] ["a"] [])) Nil eq_refl eq_refl).
Defined.

(** ** Calling a closure *)

(** [Call.__call__] when the callee name is bound to a Ufunc class. *)
Lemma eval_Call_closure (H : host) (sc : Scoping) (f : nat) (name : string)
    (args : list node) (e : env) (s s1 : state) (vs : list node)
    (ps body : node) (cl : list env) :
  for_each (fun a => eval H sc f a e) args s = (s1, Ok vs) ->
  getitem (frames s1) e name = Ok (UfuncClass ps body cl) ->
  eval H sc (S f) (Call (Name (TStr name)) args) e s
  = eval H sc f (Ufunc ps body cl vs) e s1.
Proof.
  intros Ha Hg. cbn [eval]. unfold bind at 1. rewrite Ha.
  cbn [value_of lift]. unfold bind at 1. unfold bind at 1.
  unfold except_KeyError, bind at 1. cbn [key_of lift]. unfold bind at 1, lookup.
  rewrite Hg. reflexivity.
Qed.

(** [Call.__call__] on a closure, down to the body. *)
Lemma eval_Call_body (H : host) (sc : Scoping) (f : nat) (name : string)
    (args : list node) (e : env) (s s1 : state) (vs : list node)
    (ks : list string) (body : node) (cl : list env) :
  let local := fold_left (fun m p => <[p.1 := p.2]> m) (zip ks vs) ∅ in
  for_each (fun a => eval H sc (S f) a e) args s = (s1, Ok vs) ->
  getitem (frames s1) e name = Ok (UfuncClass (Params (map TStr ks)) body cl) ->
  eval H sc (S (S f)) (Call (Name (TStr name)) args) e s
  = eval H sc f body (local_env sc (length (frames s1)) cl e)
      (mkstate (frames s1 ++ [local]) (stdin s1) (stdout s1)).
Proof.
  cbn zeta. intros Ha Hg. rewrite (eval_Call_closure _ _ _ _ _ _ _ _ _ _ _ _ Ha Hg).
  rewrite eval_Ufunc. cbn [value_of]. unfold bind at 1. cbn [lift].
  rewrite dict_zip_strings. unfold bind at 1. cbn [lift]. reflexivity.
Qed.

(** X10: calling a closure. The arguments are evaluated left to right in
    the caller's environment; the callee name is then resolved; the body
    runs in a fresh frame that binds the parameters to the argument values,
    chained under the frames the closure captured and the caller's
    environment (its global frame under lexical scoping); frames that
    existed before the call keep their index. The number of arguments is
    never checked against the number of parameters. *)
Theorem Call_closure (H : host) (sc : Scoping) (f : nat) (name : string)
    (args : list node) (e : env) (s s1 : state) (vs : list node)
    (ks : list string) (body : node) (cl : list env) :
  let local := fold_left (fun m p => <[p.1 := p.2]> m) (zip ks vs) ∅ in
  for_each (fun a => eval H sc (S f) a e) args s = (s1, Ok vs) ->
  getitem (frames s1) e name = Ok (UfuncClass (Params (map TStr ks)) body cl) ->
  eval H sc (S (S f)) (Call (Name (TStr name)) args) e s
  = eval H sc f body (local_env sc (length (frames s1)) cl e)
      (mkstate (frames s1 ++ [local]) (stdin s1) (stdout s1)).
Proof.
  apply eval_Call_body.
Qed.

Lemma Call_closure_witness :
  eval bare_host LEXICAL 4 (Call (Name (TStr "id")) [True_]) (EDict 0)
    (mkstate [<["id" := UfuncClass (Params [TStr "x"]) (Var "x") []]> ∅] [] [])
  = (mkstate [<["id" := UfuncClass (Params [TStr "x"]) (Var "x") []]> ∅; <["x" := True_]> ∅]
       [] [], Ok True_).
Proof.
  exact (eq_trans
           (Call_closure bare_host LEXICAL 2 "id" [True_] (EDict 0)
              (mkstate [<["id" := UfuncClass (Params [TStr "x"]) (Var "x") []]> ∅] [] [])
              (mkstate [<["id" := UfuncClass (Params [TStr "x"]) (Var "x") []]> ∅] [] [])
              [True_] ["x"] (Var "x") [] eq_refl eq_refl) eq_refl).
Defined.

Lemma fold_insert_notin (ks : list string) (vs : list node) (d : gmap string node)
    (k : string) :
  k ∉ ks -> fold_left (fun m p => <[p.1 := p.2]> m) (zip ks vs) d !! k = d !! k.
Proof.
  revert vs d. induction ks as [|k0 ks IH]; intros vs d Hk; [reflexivity|].
  destruct vs as [|v vs]; [reflexivity|]. cbn [zip zip_with fold_left fst snd].
  apply not_elem_of_cons in Hk as [Hk0 Hk]. rewrite IH by exact Hk.
  apply lookup_insert_ne. congruence.
Qed.






(** ** What the classifier returns *)

(** Induction on a token tree, with the hypothesis for every element of a
    list. *)
Lemma tree_nested_ind (P : tree -> Prop) :
  (forall s, P (TStr s)) ->
  (forall ts, Forall P ts -> P (TList ts)) ->
  forall t, P t.
Proof.
  intros Hs Hl. fix IH 1. intros [s | ts]; [apply Hs|].
  apply Hl. induction ts as [|x ts IHt]; constructor; [apply IH | exact IHt].
Qed.

Lemma outcome_bind {A B} (okA : A -> bool) (okB : B -> bool) (r : res A) (k : A -> res B) :
  outcome okA r = true ->
  (forall a, okA a = true -> outcome okB (k a) = true) ->
  outcome okB (res_bind r k) = true.
Proof. destruct r; cbn; auto. Qed.

Lemma parse_leaf_outcome (s : string) : outcome classified (parse_leaf s) = true.
Proof.
  unfold parse_leaf. destruct (Decimal.NUM_RE_fullmatch s).
  - unfold Decimal.of_string.
    destruct (Decimal.num_parts s) as [[[sg [i ni]] [f nf]]|]; [|reflexivity].
    destruct (ni + nf =? 0)%Z; reflexivity.
  - destruct (startswith dquote s && endswith dquote s).
    + unfold literal_eval. destruct s as [|c [|c' s']]; try reflexivity;
        destruct (all_chars plain_char _); reflexivity.
    + destruct (String.eqb s "nil"); [reflexivity|].
      destruct (String.eqb s "true"); reflexivity.
Qed.

Section Shape.
Variable p : tree -> tree * res node.


Lemma parse_each_outcome (args : list tree) :
  Forall (sound p) args ->
  outcome (fun ns => forallb classified ns && Nat.eqb (length ns) (length args))
    (snd (parse_each p args)) = true.
Proof.
  induction 1 as [|x args Hx _ IH]; [reflexivity|].
  cbn [parse_each]. unfold sound in Hx.
  destruct (p x) as [x' [n| | |]]; cbn [snd outcome] in *; try assumption.
  destruct (parse_each p args) as [args' [ms| | |]]; cbn [snd res_bind outcome] in *;
    try assumption.
  cbn. rewrite Hx. exact IH.
Qed.

Lemma parse_each_outcome' (args : list tree) :
  Forall (sound p) args -> outcome (forallb classified) (snd (parse_each p args)) = true.
Proof.
  intros Hs. pose proof (parse_each_outcome args Hs) as He.
  destruct (snd (parse_each p args)); cbn in *; auto.
  apply andb_true_iff in He as [He _]. exact He.
Qed.

Lemma parse1_outcome (cls : node -> node) (args : list tree) :
  (forall x, classified x = true -> classified (cls x) = true) ->
  Forall (sound p) args -> outcome classified (snd (parse1 p cls args)) = true.
Proof.
  intros Hcls Hs. unfold parse1. destruct args as [|x [|y args]]; try reflexivity.
  apply Forall_cons in Hs as [Hx _]. unfold sound in Hx.
  destruct (p x) as [x' r]. cbn [snd] in *. eapply outcome_bind; [exact Hx|].
  intros a Ha. cbn. auto.
Qed.

Lemma parse2_outcome (cls : node -> node -> node) (args : list tree) :
  (forall x y, classified x = true -> classified y = true -> classified (cls x y) = true) ->
  Forall (sound p) args -> outcome classified (snd (parse2 p cls args)) = true.
Proof.
  intros Hcls Hs. unfold parse2. destruct args as [|x [|y [|z args]]]; try reflexivity.
  pose proof (parse_each_outcome' [x; y] Hs) as He.
  destruct (parse_each p [x; y]) as [args' r]. cbn [snd] in *.
  eapply outcome_bind; [exact He|]. intros [|a [|b [|c ns]]] Hc; try reflexivity.
  cbn in Hc |- *. rewrite !andb_true_iff in Hc. apply Hcls; apply Hc.
Qed.

Lemma parse_binding_outcome (cls : node -> node -> node) (args : list tree) :
  (forall t x, classified x = true -> classified (cls (Name t) x) = true) ->
  Forall (sound p) args -> outcome classified (snd (parse_binding p cls args)) = true.
Proof.
  intros Hcls Hs. unfold parse_binding. destruct args as [|x [|y [|z args]]]; try reflexivity.
  apply Forall_cons in Hs as [_ Hs]. apply Forall_cons in Hs as [Hy _]. unfold sound in Hy.
  destruct (p y) as [y' r]. cbn [snd] in *. eapply outcome_bind; [exact Hy|].
  intros a Ha. cbn. auto.
Qed.

Lemma parse_op_outcome (c : opclass) (args : list tree) :
  Forall (sound p) args -> outcome classified (snd (parse_op p c args)) = true.
Proof.
  destruct c as [op | op]; cbn [parse_op].
  - apply parse1_outcome. auto.
  - apply parse2_outcome. intros x y Hx Hy. cbn. rewrite Hx, Hy. reflexivity.
Qed.

Lemma Lambda_parse_outcome (args : list tree) :
  Forall (sound p) args -> outcome classified (snd (Lambda_parse p args)) = true.
Proof.
  intros Hs. unfold Lambda_parse. destruct args as [|x [|y [|z args]]]; try reflexivity.
  apply Forall_cons in Hs as [_ Hs]. apply Forall_cons in Hs as [Hy _]. unfold sound in Hy.
  destruct (p y) as [y' r]. cbn [snd] in *. eapply outcome_bind; [exact Hy|].
  intros a Ha. destruct x; cbn; auto.
Qed.

Lemma List_parse_outcome (args : list tree) :
  Forall (sound p) args -> outcome classified (snd (List_parse p args)) = true.
Proof.
  intros Hs. unfold List_parse. pose proof (parse_each_outcome' args Hs) as He.
  destruct (parse_each p args) as [args' r]. cbn [snd] in *.
  eapply outcome_bind; [exact He|]. intros [|a ns] Hc; [reflexivity|]. exact Hc.
Qed.

Lemma IfElse_parse_outcome (args : list tree) :
  Forall (sound p) args -> outcome classified (snd (IfElse_parse p args)) = true.
Proof.
  intros Hs. unfold IfElse_parse. destruct args as [|c [|i els]]; try reflexivity.
  destruct els as [|x [|y els]].
  - pose proof (parse_each_outcome' [c; i] Hs) as He.
    destruct (parse_each p [c; i]) as [args' r]. cbn [snd] in *.
    eapply outcome_bind; [exact He|]. intros [|a [|b [|d ns]]] Hc; try reflexivity.
    cbn in Hc |- *. rewrite !andb_true_iff in *. repeat split; apply Hc.
  - pose proof (parse_each_outcome' [c; i; x] Hs) as He.
    destruct (parse_each p [c; i; x]) as [args' r]. cbn [snd] in *.
    eapply outcome_bind; [exact He|].
    intros [|a [|b [|d [|d' ns]]]] Hc; try reflexivity.
    cbn in Hc |- *. rewrite !andb_true_iff in *. repeat split; apply Hc.
  - assert (He : outcome (forallb classified) (snd (parse_each p [c; i])) = true).
    { apply parse_each_outcome'. apply Forall_cons in Hs as [Hc Hs].
      apply Forall_cons in Hs as [Hi _]. repeat constructor; assumption. }
    destruct (parse_each p [c; i]) as [args' r]. cbn [snd] in *.
    eapply outcome_bind; [exact He|]. reflexivity.
Qed.

Lemma While_parse_outcome (args : list tree) :
  Forall (sound p) args -> outcome classified (snd (While_parse p args)) = true.
Proof.
  intros Hs. unfold While_parse. destruct args as [|c body]; [reflexivity|].
  apply Forall_cons in Hs as [Hc Hs]. unfold sound in Hc.
  destruct (p c) as [c' [m| | |]]; cbn [snd outcome] in *; try assumption.
  destruct body as [|b [|b' body]]; [reflexivity| |].
  - apply Forall_cons in Hs as [Hb _]. unfold sound in Hb.
    destruct (p b) as [b1 r]. cbn [snd] in *. eapply outcome_bind; [exact Hb|].
    intros a Ha. cbn. rewrite Hc, Ha. reflexivity.
  - pose proof (parse_each_outcome' (b :: b' :: body) Hs) as He.
    destruct (parse_each p (b :: b' :: body)) as [args' r]. cbn [snd] in *.
    eapply outcome_bind; [exact He|]. intros ns Hn. cbn [outcome classified].
    rewrite Hc. exact Hn.
Qed.

Lemma quoted_parse_outcome (args : list tree) :
  Forall (sound p) args -> outcome classified (snd (quoted_parse p args)) = true.
Proof.
  intros Hs. unfold quoted_parse. destruct args as [|x args]; [reflexivity|].
  apply Forall_cons in Hs as [Hx _]. unfold sound in Hx.
  destruct (p x) as [x' r]. cbn [snd] in *. eapply outcome_bind; [exact Hx|].
  intros a Ha. exact Ha.
Qed.

Lemma call_or_tailcall_outcome (hd : string) (args : list tree) :
  Forall (sound p) args -> outcome classified (snd (call_or_tailcall p hd args)) = true.
Proof.
  intros Hs. unfold call_or_tailcall, Call_parse.
  pose proof (parse_each_outcome' args Hs) as He.
  destruct (startswith "^" hd); destruct (parse_each p args) as [args' r];
    cbn [snd] in *; (eapply outcome_bind; [exact He|]); intros ns Hn; exact Hn.
Qed.
End Shape.

Ltac head_cases hd :=
  repeat match goal with
         | |- context [if String.eqb hd ?k then _ else _] => destruct (String.eqb hd k)
         | |- context [match comparisons hd with _ => _ end] => destruct (comparisons hd)
         | |- context [match ops hd with _ => _ end] => destruct (ops hd)
         | |- context [match pyfuncs hd with _ => _ end] => destruct (pyfuncs hd)
         | |- context [match dict_get ?a ?b with _ => _ end] => destruct (dict_get a b)
         end.

Lemma snd_keep (h : tree) (r : list tree * res node) : snd (keep h r) = snd r.
Proof. reflexivity. Qed.

Lemma parse_outcome (t : tree) : outcome classified (snd (parse t)) = true.
Proof.
  induction t as [s | ts IH] using tree_nested_ind.
  - apply parse_leaf_outcome.
  - cbn [parse]. destruct (forallb is_list ts).
    + pose proof (parse_each_outcome' parse ts IH) as He.
      destruct (parse_each parse ts) as [ts' r]. cbn [snd] in *.
      eapply outcome_bind; [exact He|]. intros ns Hn. exact Hn.
    + destruct ts as [|[hd | l] args]; try reflexivity.
      apply Forall_cons in IH as [_ IH].
      head_cases hd; rewrite ?snd_keep; try reflexivity.
      all: try (apply parse_binding_outcome; [intros ? ? Hx; exact Hx | exact IH]).
      all: try (apply parse1_outcome; [intros ? Hx; exact Hx | exact IH]).
      all: try (apply parse2_outcome;
                [intros ? ? Hx Hy; cbn [classified]; rewrite Hx, Hy; reflexivity | exact IH]).
      all: try (apply Lambda_parse_outcome; exact IH).
      all: try (apply parse_op_outcome; exact IH).
      all: try (apply List_parse_outcome; exact IH).
      all: try (apply IfElse_parse_outcome; exact IH).
      all: try (apply While_parse_outcome; exact IH).
      all: try (apply quoted_parse_outcome; exact IH).
      all: try (pose proof (parse_each_outcome' parse args IH) as He;
                destruct (parse_each parse args) as [args' r]; cbn [snd] in *;
                (eapply outcome_bind; [exact He|]); intros ns Hn; exact Hn).
      all: destruct args.
      all: pose proof (call_or_tailcall_outcome parse hd _ IH) as Hc.
      all: destruct (call_or_tailcall _ hd _) as [ts' r]; exact Hc.
Qed.

Lemma parse_classified_all (t : tree) (n : node) :
  snd (parse t) = Ok n -> classified n = true.
Proof. intros E. pose proof (parse_outcome t) as Ho. rewrite E in Ho. exact Ho. Qed.

Lemma parse_leaf_modelled (s : string) :
  plain_literals (TStr s) = true -> parse_leaf s <> Unmodelled.
Proof.
  cbn [plain_literals]. unfold parse_leaf. intros Hp.
  destruct (Decimal.NUM_RE_fullmatch s).
  - destruct (Decimal.of_string s); discriminate.
  - destruct (startswith dquote s && endswith dquote s); cbn [negb orb] in Hp.
    + unfold literal_eval. destruct s as [|c [|c' s']]; [| discriminate |].
      * cbn in Hp |- *. discriminate.
      * rewrite Hp. discriminate.
    + destruct (String.eqb s "nil"); [discriminate|].
      destruct (String.eqb s "true"); discriminate.
Qed.

Section Modelled.
Variable p : tree -> tree * res node.

Lemma parse_each_modelled (args : list tree) :
  Forall (fun x => snd (p x) <> Unmodelled) args ->
  snd (parse_each p args) <> Unmodelled
  /\ forall ns, snd (parse_each p args) = Ok ns -> length ns = length args.
Proof.
  induction 1 as [|x args Hx _ [IH1 IH2]]; cbn [parse_each].
  - split; [discriminate|]. intros ns E. injection E as <-. reflexivity.
  - destruct (p x) as [x' [n| | |]]; cbn [snd] in *;
      try congruence; try (split; [discriminate | intros ? ?; discriminate]).
    destruct (parse_each p args) as [args' [ms| | |]]; cbn [snd res_bind] in *;
      try congruence; try (split; [discriminate | intros ? ?; discriminate]).
    split; [discriminate|]. intros ns E. injection E as <-. cbn [length].
    rewrite (IH2 ms eq_refl). reflexivity.
Qed.

Lemma bind_modelled {A B} (r : res A) (k : A -> res B) :
  r <> Unmodelled -> (forall a, r = Ok a -> k a <> Unmodelled) ->
  res_bind r k <> Unmodelled.
Proof. destruct r; cbn; auto; discriminate. Qed.

Lemma parse1_modelled (cls : node -> node) (args : list tree) :
  Forall (fun x => snd (p x) <> Unmodelled) args ->
  snd (parse1 p cls args) <> Unmodelled.
Proof.
  intros Hs. unfold parse1. destruct args as [|x [|y args]]; try discriminate.
  apply Forall_cons in Hs as [Hx _]. destruct (p x) as [x' r]. cbn [snd] in *.
  apply bind_modelled; [exact Hx | discriminate].
Qed.

Lemma parse2_modelled (cls : node -> node -> node) (args : list tree) :
  Forall (fun x => snd (p x) <> Unmodelled) args ->
  snd (parse2 p cls args) <> Unmodelled.
Proof.
  intros Hs. unfold parse2. destruct args as [|x [|y [|z args]]]; try discriminate.
  destruct (parse_each_modelled [x; y] Hs) as [H1 H2].
  destruct (parse_each p [x; y]) as [args' r]. cbn [snd] in *.
  apply bind_modelled; [exact H1|]. intros ns E. specialize (H2 ns E).
  destruct ns as [|a [|b [|c ns]]]; discriminate.
Qed.

Lemma parse_binding_modelled (cls : node -> node -> node) (args : list tree) :
  Forall (fun x => snd (p x) <> Unmodelled) args ->
  snd (parse_binding p cls args) <> Unmodelled.
Proof.
  intros Hs. unfold parse_binding. destruct args as [|x [|y [|z args]]]; try discriminate.
  apply Forall_cons in Hs as [_ Hs]. apply Forall_cons in Hs as [Hy _].
  destruct (p y) as [y' r]. cbn [snd] in *. apply bind_modelled; [exact Hy | discriminate].
Qed.

Lemma parse_op_modelled (c : opclass) (args : list tree) :
  Forall (fun x => snd (p x) <> Unmodelled) args ->
  snd (parse_op p c args) <> Unmodelled.
Proof.
  destruct c; cbn [parse_op]; [apply parse1_modelled | apply parse2_modelled].
Qed.

Lemma Lambda_parse_modelled (args : list tree) :
  Forall (fun x => snd (p x) <> Unmodelled) args ->
  snd (Lambda_parse p args) <> Unmodelled.
Proof.
  intros Hs. unfold Lambda_parse. destruct args as [|x [|y [|z args]]]; try discriminate.
  apply Forall_cons in Hs as [_ Hs]. apply Forall_cons in Hs as [Hy _].
  destruct (p y) as [y' r]. cbn [snd] in *. apply bind_modelled; [exact Hy | discriminate].
Qed.

Lemma List_parse_modelled (args : list tree) :
  Forall (fun x => snd (p x) <> Unmodelled) args ->
  snd (List_parse p args) <> Unmodelled.
Proof.
  intros Hs. unfold List_parse. destruct (parse_each_modelled args Hs) as [H1 _].
  destruct (parse_each p args) as [args' r]. cbn [snd] in *.
  apply bind_modelled; [exact H1|]. intros [|a ns] _; discriminate.
Qed.

Lemma IfElse_parse_modelled (args : list tree) :
  Forall (fun x => snd (p x) <> Unmodelled) args ->
  snd (IfElse_parse p args) <> Unmodelled.
Proof.
  intros Hs. unfold IfElse_parse. destruct args as [|c [|i els]]; try discriminate.
  destruct els as [|x [|y els]].
  - destruct (parse_each_modelled [c; i] Hs) as [H1 H2].
    destruct (parse_each p [c; i]) as [args' r]. cbn [snd] in *.
    apply bind_modelled; [exact H1|]. intros ns E. specialize (H2 ns E).
    destruct ns as [|a [|b [|d ns]]]; discriminate.
  - destruct (parse_each_modelled [c; i; x] Hs) as [H1 H2].
    destruct (parse_each p [c; i; x]) as [args' r]. cbn [snd] in *.
    apply bind_modelled; [exact H1|]. intros ns E. specialize (H2 ns E).
    destruct ns as [|a [|b [|d [|d' ns]]]]; discriminate.
  - assert (Hci : Forall (fun x => snd (p x) <> Unmodelled) [c; i]).
    { apply Forall_cons in Hs as [Hc Hs]. apply Forall_cons in Hs as [Hi _].
      repeat constructor; assumption. }
    destruct (parse_each_modelled [c; i] Hci) as [H1 _].
    destruct (parse_each p [c; i]) as [args' r]. cbn [snd] in *.
    apply bind_modelled; [exact H1 | discriminate].
Qed.

Lemma While_parse_modelled (args : list tree) :
  Forall (fun x => snd (p x) <> Unmodelled) args ->
  snd (While_parse p args) <> Unmodelled.
Proof.
  intros Hs. unfold While_parse. destruct args as [|c body]; [discriminate|].
  apply Forall_cons in Hs as [Hc Hs].
  destruct (p c) as [c' [m| | |]]; cbn [snd] in *; try discriminate; [|contradiction].
  destruct body as [|b [|b' body]]; [discriminate| |].
  - apply Forall_cons in Hs as [Hb _]. destruct (p b) as [b1 r]. cbn [snd] in *.
    apply bind_modelled; [exact Hb | discriminate].
  - destruct (parse_each_modelled (b :: b' :: body) Hs) as [H1 _].
    destruct (parse_each p (b :: b' :: body)) as [args' r]. cbn [snd] in *.
    apply bind_modelled; [exact H1 | discriminate].
Qed.

Lemma quoted_parse_modelled (args : list tree) :
  Forall (fun x => snd (p x) <> Unmodelled) args ->
  snd (quoted_parse p args) <> Unmodelled.
Proof.
  intros Hs. unfold quoted_parse. destruct args as [|x args]; [discriminate|].
  apply Forall_cons in Hs as [Hx _]. destruct (p x) as [x' r]. cbn [snd] in *.
  apply bind_modelled; [exact Hx | discriminate].
Qed.

Lemma call_or_tailcall_modelled (hd : string) (args : list tree) :
  Forall (fun x => snd (p x) <> Unmodelled) args ->
  snd (call_or_tailcall p hd args) <> Unmodelled.
Proof.
  intros Hs. unfold call_or_tailcall, Call_parse.
  destruct (parse_each_modelled args Hs) as [H1 _].
  destruct (startswith "^" hd); destruct (parse_each p args) as [args' r];
    cbn [snd] in *; (apply bind_modelled; [exact H1 | discriminate]).
Qed.
End Modelled.

Lemma parse_modelled (t : tree) :
  plain_literals t = true -> snd (parse t) <> Unmodelled.
Proof.
  induction t as [s | ts IH] using tree_nested_ind; intros Hp.
  - apply parse_leaf_modelled, Hp.
  - cbn [plain_literals] in Hp. rewrite forallb_forall in Hp.
    assert (Hs : Forall (fun x => snd (parse x) <> Unmodelled) ts).
    { rewrite List.Forall_forall in IH |- *. intros x Hx. apply (IH x Hx), Hp, Hx. }
    clear IH Hp. cbn [parse]. destruct (forallb is_list ts) eqn:Hl.
    + destruct (parse_each_modelled parse ts Hs) as [H1 _].
      destruct (parse_each parse ts) as [ts' r]. cbn [snd] in *.
      apply bind_modelled; [exact H1 | discriminate].
    + destruct ts as [|[hd | l] args]; [discriminate Hl | | discriminate].
      apply Forall_cons in Hs as [_ Hs].
      head_cases hd; rewrite ?snd_keep; try discriminate.
      all: try (apply parse_binding_modelled; exact Hs).
      all: try (apply parse1_modelled; exact Hs).
      all: try (apply parse2_modelled; exact Hs).
      all: try (apply Lambda_parse_modelled; exact Hs).
      all: try (apply parse_op_modelled; exact Hs).
      all: try (apply List_parse_modelled; exact Hs).
      all: try (apply IfElse_parse_modelled; exact Hs).
      all: try (apply While_parse_modelled; exact Hs).
      all: try (apply quoted_parse_modelled; exact Hs).
      all: try (destruct (parse_each_modelled parse args Hs) as [H1 _];
                destruct (parse_each parse args) as [args' r]; cbn [snd] in *;
                apply bind_modelled; [exact H1 | discriminate]).
      all: destruct args.
      all: pose proof (call_or_tailcall_modelled parse hd _ Hs) as Hc.
      all: destruct (call_or_tailcall _ hd _) as [ts' r]; exact Hc.
Qed.

(** X12: on every token tree whose string literals are plain (each token
    in double quotes holds printable ASCII without quote or backslash), the
    classifier either returns a node of the classified shape (the node
    classes of the priority rules, over classified operands) or raises one
    of Python's [ValueError], [KeyError], [TypeError], [IndexError],
    [SyntaxError] or the decimal [InvalidOperation]. It never raises
    [ProgramError], and it never returns the [False_] singleton, the
    unclassified marker [NotImplemented] (the last rule is shadowed: a list
    head is hashed into [comparisons] first, which raises [TypeError]) or an
    atom holding a boolean or [None]. *)
Theorem parse_classified (t : tree) :
  plain_literals t = true ->
  classifies classified (snd (parse t)) = true
  /\ (forall m, snd (parse t) <> Raise (ProgramError m))
  /\ snd (parse t) <> Ok False_
  /\ (forall u, snd (parse t) <> Ok (NotImplemented u))
  /\ (forall b, snd (parse t) <> Ok (Atom (PBool b)))
  /\ snd (parse t) <> Ok (Atom PNone).
Proof.
  intros Hp. pose proof (parse_outcome t) as Ho. pose proof (parse_modelled t Hp) as Hm.
  assert (Hc : classifies classified (snd (parse t)) = true).
  { destruct (snd (parse t)); cbn in *; try assumption; contradiction. }
  split; [exact Hc|].
  split; [intros m E; rewrite E in Hc; discriminate Hc|].
  split; [intros E; rewrite E in Hc; discriminate Hc|].
  split; [intros u E; rewrite E in Hc; discriminate Hc|].
  split; [intros b E; rewrite E in Hc; discriminate Hc|].
  intros E; rewrite E in Hc; discriminate Hc.
Qed.

Lemma parse_classified_witness :
  classifies classified
    (snd (parse (TList [TStr "print"; quoted "a b"; TList [TStr "+"; TStr "1"; TStr "x"]])))
  = true.
Proof.
  exact (proj1 (parse_classified
                  (TList [TStr "print"; quoted "a b"; TList [TStr "+"; TStr "1"; TStr "x"]])
                  eq_refl)).
Defined.

(** ** Compiling classified nodes *)

Lemma complete_yield (i : inst) :
  match i with Missing _ => False | _ => True end -> complete (yield i).
Proof. intros Hi. split; [reflexivity|]. destruct i; try contradiction; reflexivity. Qed.

Lemma complete_then (a b : emitted) : complete a -> complete b -> complete (then_ a b).
Proof.
  intros [Ha Fa] [Hb Fb]. destruct a as [la ra]. cbn [snd fst] in *. subst ra.
  split; [exact Hb|]. cbn [then_ fst]. rewrite forallb_app, Fa, Fb. reflexivity.
Qed.

Lemma complete_yield_all (L : list emitted) : Forall complete L -> complete (yield_all L).
Proof.
  induction 1 as [|x L Hx _ IH]; [split; reflexivity|].
  exact (complete_then x (yield_all L) Hx IH).
Qed.

Lemma complete_each_from (it : list nat -> node -> emitted) (pos : list nat) (i : nat)
    (cs : list node) :
  (forall c q, In c cs -> complete (it q c)) -> Forall complete (each_from it pos i cs).
Proof.
  revert i. induction cs as [|c cs IH]; intros i Hc; [constructor|].
  cbn [each_from]. constructor; [apply Hc; left; reflexivity|].
  apply IH. intros c' q Hc'. apply Hc. right. exact Hc'.
Qed.

Lemma forallb_In {A} (f : A -> bool) (l : list A) (x : A) :
  forallb f l = true -> In x l -> f x = true.
Proof. intros Hf Hx. rewrite forallb_forall in Hf. auto. Qed.

Ltac complete_step IH :=
  lazymatch goal with
  | |- complete (then_ _ _) => apply complete_then; [complete_step IH | complete_step IH]
  | |- complete (yield _) => apply complete_yield; exact I
  | |- complete (yield_with (value_of (Name ?t)) _) =>
      destruct t; cbn [value_of yield_with]; complete_step IH
  | |- complete (yield_with (value_of (Params _)) _) =>
      cbn [value_of yield_with]; complete_step IH
  | |- complete (yield_all (rev (each_from _ _ _ _))) =>
      apply complete_yield_all, Forall_rev, complete_each_from; intros; apply IH
  | |- complete (yield_all (each_from _ _ _ _)) =>
      apply complete_yield_all, complete_each_from; intros; apply IH
  | |- complete (iter _ _ _) => apply IH
  end.

Ltac name_cases Hc :=
  repeat match type of Hc with
         | classified (Set_ ?x _) = true => is_var x; destruct x; try discriminate Hc
         | classified (Setg ?x _) = true => is_var x; destruct x; try discriminate Hc
         | classified (Setc ?x _) = true => is_var x; destruct x; try discriminate Hc
         | classified (Lambda ?x _) = true => is_var x; destruct x; try discriminate Hc
         | classified (Call ?x _) = true => is_var x; destruct x; try discriminate Hc
         | classified (TailCall ?x _) = true => is_var x; destruct x; try discriminate Hc
         | classified (Call (Name ?t) _) = true => is_var t; destruct t; try discriminate Hc
         | classified (TailCall (Name ?t) _) = true =>
             is_var t; destruct t; try discriminate Hc
         | classified (IfElse _ _ ?o) = true => is_var o; destruct o
         end.

Lemma iter_complete (id : list nat -> N) (h : nat) :
  forall (n : node) (pos : list nat),
    height n <= h -> classified n = true -> complete (iter id pos n).
Proof.
  induction h as [|h IH]; intros n pos Hh Hc;
    destruct n; try discriminate Hc; cbn [height] in Hh; try lia;
    name_cases Hc; cbn [iter];
    cbn [classified] in Hc; rewrite ?andb_true_iff in Hc;
    complete_step IH; try lia;
    try (match goal with H : In _ _ |- _ <= _ => apply height_In in H end; lia);
    try (match goal with H : In ?c ?cs |- classified ?c = true =>
           apply (forallb_In classified cs c); [|exact H] end);
    intuition.
Qed.

(** X13: a token tree that classifies compiles completely. Iterating the
    node it classifies to runs to the end, wherever the nodes are placed,
    raises nothing, and yields no [Missing] placeholder: every class that
    the classifier instantiates in an operand position has an [__iter__] of
    its own. *)
Theorem parse_then_iter (t : tree) (n : node) (id : list nat -> N) (pos : list nat) :
  snd (parse t) = Ok n -> complete (iter id pos n).
Proof.
  intros Hp. apply (iter_complete id (height n)); [lia|].
  exact (parse_classified_all t n Hp).
Qed.

Lemma parse_then_iter_witness :
  complete (iter (fun _ => 16%N) []
              (While (Binop Op.Lt (Var "i") (Atom (PDec (int 5))))
                 (Set_ (Name (TStr "i")) (Binop Op.Add (Var "i") (Atom (PDec (int 1))))))).
Proof.
  exact (parse_then_iter
           (TList [TStr "while"; TList [TStr "<"; TStr "i"; TStr "5"];
                   TList [TStr "set"; TStr "i"; TList [TStr "+"; TStr "i"; TStr "1"]]])
           _ (fun _ => 16%N) [] eq_refl).
Defined.

(** ** Jump targets *)

Lemma then_ok (a b : emitted) :
  snd (then_ a b) = Ok tt -> snd a = Ok tt /\ snd b = Ok tt.
Proof. destruct a as [l [[]| | |]]; cbn; try discriminate. auto. Qed.

Lemma jumps_then (a b : emitted) :
  snd a = Ok tt -> jumps (then_ a b) = (jumps a ++ jumps b)%list.
Proof.
  destruct a as [l r]. cbn [snd]. intros ->. unfold jumps. cbn [then_ fst]. apply omap_app.
Qed.

Lemma labels_then_ok (a b : emitted) :
  snd a = Ok tt -> labels (then_ a b) = (labels a ++ labels b)%list.
Proof.
  destruct a as [l r]. cbn [snd]. intros ->. unfold labels. cbn [then_ fst]. apply omap_app.
Qed.

Lemma closed_then (a b : emitted) :
  snd a = Ok tt -> closed a -> closed b -> closed (then_ a b).
Proof.
  intros Ha Ca Cb l. rewrite jumps_then, labels_then_ok by exact Ha.
  rewrite !elem_of_app. intros [Hl | Hl]; [left; auto | right; auto].
Qed.

Lemma closed_yield_all (L : list emitted) :
  Forall (fun o => snd o = Ok tt -> closed o) L ->
  snd (yield_all L) = Ok tt -> closed (yield_all L).
Proof.
  induction 1 as [|x L Hx _ IH]; [intros _ l Hl; inversion Hl|].
  change (yield_all (x :: L)) with (then_ x (yield_all L)).
  intros Hok. apply then_ok in Hok as [Hxo Hlo]. apply closed_then; auto.
Qed.

Lemma closed_each_from (it : list nat -> node -> emitted) (pos : list nat) (i : nat)
    (cs : list node) :
  (forall c q, In c cs -> snd (it q c) = Ok tt -> closed (it q c)) ->
  Forall (fun o => snd o = Ok tt -> closed o) (each_from it pos i cs).
Proof.
  revert i. induction cs as [|c cs IH]; intros i Hc; [constructor|].
  cbn [each_from]. constructor; [apply Hc; left; reflexivity|].
  apply IH. intros c' q Hc'. apply Hc. right. exact Hc'.
Qed.

Ltac ok_parts :=
  repeat match goal with
         | H : snd (then_ _ _) = Ok tt |- _ => apply then_ok in H as [? ?]
         | H : snd (yield_with ?r _) = Ok tt |- _ =>
             destruct r; try discriminate H; cbn [yield_with] in *
         end.

Ltac closed_parts IH :=
  repeat match goal with
         | H : snd (iter ?id ?q ?c) = Ok tt |- _ =>
             lazymatch goal with
             | _ : closed (iter id q c) |- _ => fail
             | _ => assert (closed (iter id q c)) by (apply IH; [|exact H]; try lia)
             end
         | H : snd (yield_all (rev (each_from ?it ?pos ?i ?cs))) = Ok tt |- _ =>
             lazymatch goal with
             | _ : closed (yield_all (rev (each_from it pos i cs))) |- _ => fail
             | _ => assert (closed (yield_all (rev (each_from it pos i cs))))
                 by (apply closed_yield_all; [|exact H];
                     apply Forall_rev, closed_each_from; intros ? ? Hin ?;
                     apply IH; [apply height_In in Hin; lia | assumption])
             end
         end.

Lemma iter_closed (id : list nat -> N) (h : nat) :
  forall (n : node) (pos : list nat),
    height n <= h -> snd (iter id pos n) = Ok tt -> closed (iter id pos n).
Proof.
  induction h as [|h IH]; intros n pos Hh Hok;
    destruct n; cbn [height] in Hh; try lia; cbn [iter] in Hok |- *;
    try destruct elsebody; ok_parts; closed_parts IH.
  all: try (apply closed_yield_all; [|exact Hok];
            apply closed_each_from; intros ? ? Hin ?;
            apply IH; [apply height_In in Hin; lia | assumption]).
  all: intros l; rewrite ?jumps_then, ?labels_then_ok by assumption;
    unfold closed in *; cbn; set_solver.
Qed.

(** X14: no dangling jump. When iterating a node runs to its end, every
    label that a [JumpIfFalse] or [JumpAlways] of the result names is
    marked by a [Label] opcode of the same result, for every node and every
    placement in memory. *)
Theorem jumps_have_labels (id : list nat -> N) (n : node) (pos : list nat) :
  snd (iter id pos n) = Ok tt ->
  forall l, l ∈ jumps (iter id pos n) -> l ∈ labels (iter id pos n).
Proof. intros Hok. exact (iter_closed id (height n) n pos (le_n _) Hok). Qed.

Lemma jumps_have_labels_witness :
  "end-0x10" ∈ labels (iter (fun _ => 16%N) [] (IfElse True_ Nil (Some Nil))).
Proof.
  apply (jumps_have_labels (fun _ => 16%N) (IfElse True_ Nil (Some Nil)) [] eq_refl).
  apply list_elem_of_In. right. left. reflexivity.
Defined.

(** ** What the classifier leaves behind *)

Section Untouched.
Variable p : tree -> tree * res node.

Lemma parse_each_fst (args : list tree) :
  Forall (fun x => fst (p x) = x) args -> fst (parse_each p args) = args.
Proof.
  induction 1 as [|x args Hx _ IH]; [reflexivity|]. cbn [parse_each].
  destruct (p x) as [x' [n| | |]]; cbn [fst] in *; subst x'; try reflexivity.
  destruct (parse_each p args) as [args' r]. cbn [fst] in *. subst args'. reflexivity.
Qed.

Lemma parse1_fst (cls : node -> node) (args : list tree) :
  Forall (fun x => fst (p x) = x) args -> fst (parse1 p cls args) = args.
Proof.
  intros Hs. unfold parse1. destruct args as [|x [|y args]]; try reflexivity.
  apply Forall_cons in Hs as [Hx _]. destruct (p x) as [x' r]. cbn [fst] in *.
  subst x'. reflexivity.
Qed.

Lemma parse2_fst (cls : node -> node -> node) (args : list tree) :
  Forall (fun x => fst (p x) = x) args -> fst (parse2 p cls args) = args.
Proof.
  intros Hs. unfold parse2. destruct args as [|x [|y [|z args]]]; try reflexivity.
  pose proof (parse_each_fst [x; y] Hs) as He.
  destruct (parse_each p [x; y]) as [args' r]. exact He.
Qed.

Lemma parse_binding_fst (cls : node -> node -> node) (args : list tree) :
  Forall (fun x => fst (p x) = x) args -> fst (parse_binding p cls args) = args.
Proof.
  intros Hs. unfold parse_binding. destruct args as [|x [|y [|z args]]]; try reflexivity.
  apply Forall_cons in Hs as [_ Hs]. apply Forall_cons in Hs as [Hy _].
  destruct (p y) as [y' r]. cbn [fst] in *. subst y'. reflexivity.
Qed.

Lemma parse_op_fst (c : opclass) (args : list tree) :
  Forall (fun x => fst (p x) = x) args -> fst (parse_op p c args) = args.
Proof. destruct c; [apply parse1_fst | apply parse2_fst]. Qed.

Lemma Lambda_parse_fst (args : list tree) :
  Forall (fun x => fst (p x) = x) args -> fst (Lambda_parse p args) = args.
Proof.
  intros Hs. unfold Lambda_parse. destruct args as [|x [|y [|z args]]]; try reflexivity.
  apply Forall_cons in Hs as [_ Hs]. apply Forall_cons in Hs as [Hy _].
  destruct (p y) as [y' r]. cbn [fst] in *. subst y'. reflexivity.
Qed.

Lemma List_parse_fst (args : list tree) :
  Forall (fun x => fst (p x) = x) args -> fst (List_parse p args) = args.
Proof.
  intros Hs. unfold List_parse. pose proof (parse_each_fst args Hs) as He.
  destruct (parse_each p args) as [args' r]. exact He.
Qed.

Lemma IfElse_parse_fst (args : list tree) :
  Forall (fun x => fst (p x) = x) args -> fst (IfElse_parse p args) = args.
Proof.
  intros Hs. unfold IfElse_parse. destruct args as [|c [|i els]]; try reflexivity.
  destruct els as [|x [|y els]].
  - pose proof (parse_each_fst [c; i] Hs) as He.
    destruct (parse_each p [c; i]) as [args' r]. exact He.
  - pose proof (parse_each_fst [c; i; x] Hs) as He.
    destruct (parse_each p [c; i; x]) as [args' r]. exact He.
  - assert (He : fst (parse_each p [c; i]) = [c; i]).
    { apply parse_each_fst. apply Forall_cons in Hs as [Hc Hs].
      apply Forall_cons in Hs as [Hi _]. repeat constructor; assumption. }
    destruct (parse_each p [c; i]) as [args' r]. cbn [fst] in *. subst args'. reflexivity.
Qed.

Lemma While_parse_fst (args : list tree) :
  Forall (fun x => fst (p x) = x) args -> fst (While_parse p args) = args.
Proof.
  intros Hs. unfold While_parse. destruct args as [|c body]; [reflexivity|].
  apply Forall_cons in Hs as [Hc Hs]. destruct (p c) as [c' [m| | |]]; cbn [fst] in *;
    subst c'; try reflexivity.
  destruct body as [|b [|b' body]]; [reflexivity| |].
  - apply Forall_cons in Hs as [Hb _]. destruct (p b) as [b1 r]. cbn [fst] in *.
    subst b1. reflexivity.
  - pose proof (parse_each_fst (b :: b' :: body) Hs) as He.
    destruct (parse_each p (b :: b' :: body)) as [args' r]. cbn [fst] in *.
    subst args'. reflexivity.
Qed.

Lemma quoted_parse_fst (args : list tree) :
  Forall (fun x => fst (p x) = x) args -> fst (quoted_parse p args) = args.
Proof.
  intros Hs. unfold quoted_parse. destruct args as [|x args]; [reflexivity|].
  apply Forall_cons in Hs as [Hx _]. destruct (p x) as [x' r]. cbn [fst] in *.
  subst x'. reflexivity.
Qed.

Lemma call_or_tailcall_fst (hd : string) (args : list tree) :
  startswith "^" hd = false ->
  Forall (fun x => fst (p x) = x) args ->
  fst (call_or_tailcall p hd args) = TStr hd :: args.
Proof.
  intros Hm Hs. unfold call_or_tailcall, Call_parse. rewrite Hm.
  pose proof (parse_each_fst args Hs) as He.
  destruct (parse_each p args) as [args' r]. cbn [fst] in *. subst args'. reflexivity.
Qed.
End Untouched.

Lemma fst_keep (h : tree) (r : list tree * res node) : fst (keep h r) = TList (h :: fst r).
Proof. reflexivity. Qed.

(** X15: the only thing classification ever changes in its input is a
    tail-call marker. A token tree in which no list head starts with [^] is
    left as it was, whether it classifies or raises, so classifying it
    again gives the same outcome. *)
Theorem parse_unmarked (t : tree) :
  unmarked t = true -> fst (parse t) = t /\ parse (fst (parse t)) = parse t.
Proof.
  assert (G : unmarked t = true -> fst (parse t) = t).
  2:{ intros Hu. rewrite (G Hu). auto. }
  induction t as [s | ts IH] using tree_nested_ind; [reflexivity|].
  cbn [unmarked]. intros Hu. apply andb_true_iff in Hu as [Hh Hu].
  assert (Hs : Forall (fun x => fst (parse x) = x) ts).
  { rewrite forallb_forall in Hu. rewrite List.Forall_forall in IH |- *. auto. }
  clear IH Hu. cbn [parse]. destruct (forallb is_list ts).
  - pose proof (parse_each_fst parse ts Hs) as He.
    destruct (parse_each parse ts) as [ts' r]. cbn [fst] in *. subst ts'. reflexivity.
  - destruct ts as [|[hd | l] args]; try reflexivity.
    apply Forall_cons in Hs as [_ Hs]. apply negb_true_iff in Hh.
    head_cases hd; rewrite ?fst_keep; try reflexivity.
    all: try (rewrite parse_binding_fst by exact Hs; reflexivity).
    all: try (rewrite parse1_fst by exact Hs; reflexivity).
    all: try (rewrite parse2_fst by exact Hs; reflexivity).
    all: try (rewrite Lambda_parse_fst by exact Hs; reflexivity).
    all: try (rewrite parse_op_fst by exact Hs; reflexivity).
    all: try (rewrite List_parse_fst by exact Hs; reflexivity).
    all: try (rewrite IfElse_parse_fst by exact Hs; reflexivity).
    all: try (rewrite While_parse_fst by exact Hs; reflexivity).
    all: try (rewrite quoted_parse_fst by exact Hs; reflexivity).
    all: try (pose proof (parse_each_fst parse args Hs) as He;
              destruct (parse_each parse args) as [args' r]; cbn [fst] in *;
              subst args'; reflexivity).
    all: destruct args.
    all: pose proof (call_or_tailcall_fst parse hd _ Hh Hs) as Hc.
    all: destruct (call_or_tailcall _ hd _) as [ts' r]; cbn [fst] in *; subst ts';
      reflexivity.
Qed.

Lemma parse_unmarked_witness :
  fst (parse (TList [TStr "f"; TList [TStr "g"; TStr "1"]]))
  = TList [TStr "f"; TList [TStr "g"; TStr "1"]].
Proof.
  exact (proj1 (parse_unmarked (TList [TStr "f"; TList [TStr "g"; TStr "1"]]) eq_refl)).
Defined.

(** ** Malformed forms *)

Ltac head_known H :=
  repeat match type of H with
         | context [String.eqb ?hd ?k] =>
             let E := fresh "E" in
             destruct (String.eqb hd k) eqn:E;
             [apply String.eqb_eq in E; subst hd | clear E]
         end.

(** X16: the operator table is keyed by the number of operands. An
    operator token with a number of operands that its row does not list
    ([+] and [-] list one and two, [not] one, the others two) makes the
    classifier raise [KeyError], a plain dict miss and not a
    [ProgramError], and leaves the token tree as it was. *)
Theorem parse_operator_arity (hd : string) (row : list (nat * opclass)) (args : list tree) :
  ops hd = Some row ->
  dict_get row (length args) = None ->
  parse (TList (TStr hd :: args)) = (TList (TStr hd :: args), Raise KeyError).
Proof.
  intros Ho Hd. unfold ops in Ho. head_known Ho; try discriminate Ho;
    injection Ho as <-; cbn [parse forallb is_list andb String.eqb Ascii.eqb Bool.eqb
                               comparisons ops];
    rewrite Hd; reflexivity.
Qed.

Lemma parse_operator_arity_witness :
  parse (TList [TStr "*"; TStr "1"]) = (TList [TStr "*"; TStr "1"], Raise KeyError)
  /\ parse (TList [TStr "+"; TStr "1"; TStr "2"; TStr "3"])
     = (TList [TStr "+"; TStr "1"; TStr "2"; TStr "3"], Raise KeyError).
Proof.
  split.
  - exact (parse_operator_arity "*" _ [TStr "1"] eq_refl eq_refl).
  - exact (parse_operator_arity "+" _ [TStr "1"; TStr "2"; TStr "3"] eq_refl eq_refl).
Defined.

(** X17: the forms that unpack their list into a fixed number of names
    ([set], [setg], [setc], [lambda], the comparisons, [assert] and [cons]
    with two operands; [ret], [car], [cdr], [parse] and [eval] with one)
    raise [ValueError] on any other number of operands, before any operand
    is classified: the token tree is left as it was. *)
Theorem parse_unpack_arity (hd : string) (k : nat) (args : list tree) :
  unpacked hd = Some k ->
  length args <> k ->
  parse (TList (TStr hd :: args)) = (TList (TStr hd :: args), Raise ValueError).
Proof.
  intros Hu Hl. unfold unpacked in Hu.
  destruct (comparisons hd) as [op|] eqn:Hc.
  - unfold comparisons in Hc. head_known Hc; try discriminate Hc.
    all: cbn in Hu; injection Hu as <-.
    all: destruct args as [|x [|y [|z args]]]; try (cbn in Hl; lia); reflexivity.
  - cbn [is_some orb] in Hu. rewrite ?orb_false_r in Hu.
    head_known Hu; cbn in Hu; try discriminate Hu; injection Hu as <-.
    all: destruct args as [|x [|y [|z args]]]; try (cbn in Hl; lia); reflexivity.
Qed.

Lemma parse_unpack_arity_witness :
  parse (TList [TStr "set"; TStr "x"]) = (TList [TStr "set"; TStr "x"], Raise ValueError).
Proof. exact (parse_unpack_arity "set" 2 [TStr "x"] eq_refl ltac:(discriminate)). Defined.

(** ** Name resolution *)

Lemma getitem_chain (fs : list (gmap string node)) (l : nat) (rest : list nat) (k : string) :
  Forall (fun f => f < length fs) (l :: rest) ->
  getitem fs (EChain (EDict l) (map EDict rest)) k
  = match first_binding fs (l :: rest) k with
    | Some v => Ok v
    | None => Raise KeyError
    end.
Proof.
  intros Hv. apply Forall_cons in Hv as [Hl Hr]. unfold first_binding.
  cbn [getitem omap list_omap]. apply lookup_lt_is_Some_2 in Hl as [d Hd]. rewrite Hd.
  cbn [mbind option_bind]. destruct (d !! k) as [v|]; [reflexivity|].
  induction Hr as [|f rest Hf _ IH]; [reflexivity|].
  cbn [map omap list_omap getitem]. apply lookup_lt_is_Some_2 in Hf as [df Hdf].
  rewrite Hdf. cbn [mbind option_bind]. destruct (df !! k) as [v|]; [reflexivity|].
  exact IH.
Qed.

(** X18: a reference resolves innermost first, first match wins. In a
    chain of frames, a variable reference evaluates to what the first frame
    that binds the name holds (a self-evaluating node is returned as it is),
    whatever outer frames bind; it raises [ProgramError] exactly when no
    frame of the chain binds the name. *)
Theorem Var_innermost_binding (H : host) (sc : Scoping) (f : nat) (k : string)
    (l : nat) (rest : list nat) (s : state) :
  Forall (fun i => i < length (frames s)) (l :: rest) ->
  let e := EChain (EDict l) (map EDict rest) in
  (first_binding (frames s) (l :: rest) k = None ->
     eval H sc (S f) (Var k) e s = (s, Raise (ProgramError (UnknownName (PStr k)))))
  /\ (forall v, first_binding (frames s) (l :: rest) k = Some v ->
        self_evaluating v = true ->
        eval H sc (S (S f)) (Var k) e s = (s, Ok v)).
Proof.
  intros Hv. cbn zeta. pose proof (getitem_chain (frames s) l rest k Hv) as Hg. split.
  - intros Hn. rewrite Hn in Hg. apply Var_unbound. exact Hg.
  - intros v Hs Hself. rewrite Hs in Hg. rewrite eval_Var.
    unfold except_KeyError, bind, lookup. rewrite Hg, eval_self by exact Hself. reflexivity.
Qed.

Lemma Var_innermost_binding_witness :
  eval bare_host LEXICAL 2 (Var "x") (EChain (EDict 1) [EDict 0])
    (mkstate [<["x" := Nil]> ∅; <["x" := True_]> ∅] [] [])
  = (mkstate [<["x" := Nil]> ∅; <["x" := True_]> ∅] [] [], Ok True_).
Proof.
  refine (proj2 (Var_innermost_binding bare_host LEXICAL 0 "x" 1 [0]
                   (mkstate [<["x" := Nil]> ∅; <["x" := True_]> ∅] [] []) _)
            True_ eq_refl eq_refl).
  repeat constructor.
Defined.

(** ** A binding inside a call *)

(** X19: [set] in a function body is local to the call. When the body of
    a closure is a [set] form, calling the closure binds the name in the
    frame created for that call and in no frame that existed before, also
    when the caller's frames bind the same name. *)
Theorem Call_set_is_local (H : host) (sc : Scoping) (f : nat) (name k : string)
    (args : list node) (e : env) (s s1 s2 : state) (vs : list node)
    (ks : list string) (value : node) (cl : list env) (v : node)
    (d : gmap string node) :
  let local := fold_left (fun m p => <[p.1 := p.2]> m) (zip ks vs) ∅ in
  let a := length (frames s1) in
  for_each (fun x => eval H sc (S (S f)) x e) args s = (s1, Ok vs) ->
  getitem (frames s1) e name
  = Ok (UfuncClass (Params (map TStr ks)) (Set_ (Name (TStr k)) value) cl) ->
  eval H sc f value (local_env sc a cl e)
    (mkstate (frames s1 ++ [local]) (stdin s1) (stdout s1)) = (s2, Ok v) ->
  frames s2 !! a = Some d ->
  eval H sc (S (S (S f))) (Call (Name (TStr name)) args) e s
  = (mkstate (<[a := <[k := v]> d]> (frames s2)) (stdin s2) (stdout s2), Ok v)
  /\ forall i, i < a -> <[a := <[k := v]> d]> (frames s2) !! i = frames s2 !! i.
Proof.
  cbn zeta. intros Ha Hg Hv Hd. split.
  - rewrite (eval_Call_body H sc (S f) name args e s s1 vs ks _ cl Ha Hg).
    assert (Ht : target (local_env sc (length (frames s1)) cl e) = length (frames s1)).
    { unfold local_env. destruct (maps e), sc; reflexivity. }
    pose proof Hd as Hd'. rewrite <- Ht in Hd'.
    pose proof (proj1 (eval_Set_binds H sc f k value _ _ s2 v d Hv Hd')) as R.
    rewrite Ht in R. exact R.
  - intros i Hi. apply list_lookup_insert_ne. lia.
Qed.

Lemma Call_set_is_local_witness :
  eval bare_host LEXICAL 4 (Call (Name (TStr "f")) []) (EDict 0)
    (mkstate [<["f" := UfuncClass (Params []) (Set_ (Name (TStr "f")) Nil) []]> ∅] [] [])
  = (mkstate [<["f" := UfuncClass (Params []) (Set_ (Name (TStr "f")) Nil) []]> ∅;
              <["f" := Nil]> ∅] [] [], Ok Nil).
Proof.
  exact (proj1 (Call_set_is_local bare_host LEXICAL 1 "f" "f" [] (EDict 0)
                  (mkstate [<["f" := UfuncClass (Params []) (Set_ (Name (TStr "f")) Nil) []]> ∅] [] [])
                  (mkstate [<["f" := UfuncClass (Params []) (Set_ (Name (TStr "f")) Nil) []]> ∅] [] [])
                  (mkstate [<["f" := UfuncClass (Params []) (Set_ (Name (TStr "f")) Nil) []]> ∅; ∅] [] [])
                  [] [] Nil [] Nil ∅ eq_refl eq_refl eq_refl eq_refl)).
Defined.

(** ** Numeric tokens without a digit *)

Lemma take_digits_count (s : string) (acc : N) (cnt : Z) :
  let '(_, c, r) := Decimal.take_digits acc cnt s in
  (cnt <= c)%Z /\ (c = cnt -> r = s).
Proof.
  revert acc cnt. induction s as [|ch s IH]; intros acc cnt; cbn [Decimal.take_digits].
  - split; [lia | reflexivity].
  - destruct (Decimal.is_digit ch); [|split; [lia | reflexivity]].
    specialize (IH (10 * acc + Decimal.digit_val ch)%N (cnt + 1)%Z).
    destruct (Decimal.take_digits _ _ s) as [[a c] r]. destruct IH as [IH1 IH2].
    split; [lia | intros ->; lia].
Qed.

(** X20: the numeric grammar [NUM_RE] also matches tokens that hold no
    digit. A leaf makes the classifier raise the decimal [InvalidOperation]
    exactly when it is one of those: the empty token, a bare sign, a bare
    dot, or a sign followed by a dot. *)
Theorem parse_leaf_digitless (s : string) :
  parse_leaf s = Raise (DecimalException Decimal.InvalidOperation)
  <-> In s [""; "+"; "-"; "."; "+."; "-."].
Proof.
  split.
  - unfold parse_leaf. destruct (Decimal.NUM_RE_fullmatch s) eqn:Hm.
    + unfold Decimal.of_string, Decimal.num_parts.
      unfold Decimal.NUM_RE_fullmatch, Decimal.num_parts in Hm.
      destruct (Decimal.split_sign s) as [sg s1] eqn:Hsg.
      pose proof (take_digits_count s1 0 0) as H1.
      destruct (Decimal.take_digits 0 0 s1) as [[i ni] s2].
      pose proof (take_digits_count (Decimal.skip_dot s2) 0 0) as H2.
      destruct (Decimal.take_digits 0 0 (Decimal.skip_dot s2)) as [[f nf] s3].
      destruct s3; [|discriminate Hm].
      destruct (ni + nf =? 0)%Z eqn:Hz; [|discriminate].
      intros _. apply Z.eqb_eq in Hz. destruct H1 as [H1 H1'], H2 as [H2 H2'].
      assert (ni = 0%Z) as -> by lia. assert (nf = 0%Z) as -> by lia.
      specialize (H1' eq_refl). specialize (H2' eq_refl). subst s2.
      assert (Hs1 : s1 = "" \/ s1 = ".").
      { destruct s1 as [|c s1]; [auto|]. unfold Decimal.skip_dot in H2'.
        destruct (Ascii.eqb c ".") eqn:Ec.
        - apply Ascii.eqb_eq in Ec. subst c. cbn in H2'. subst s1. auto.
        - destruct c as [[] [] [] [] [] [] [] []]; try discriminate H2'. vm_compute in Ec. discriminate Ec. }
      unfold Decimal.split_sign in Hsg.
      destruct s as [|c s]; [cbn; auto 10|].
      destruct (Ascii.eqb c "+") eqn:Ep; [apply Ascii.eqb_eq in Ep; subst c|].
      { injection Hsg as <- <-. destruct Hs1 as [-> | ->]; cbn; auto 10. }
      destruct (Ascii.eqb c "-") eqn:Em; [apply Ascii.eqb_eq in Em; subst c|].
      { injection Hsg as <- <-. destruct Hs1 as [-> | ->]; cbn; auto 10. }
      assert (s1 = String c s) as E.
      { destruct c as [[] [] [] [] [] [] [] []];
          try (vm_compute in Ep; discriminate Ep); try (vm_compute in Em; discriminate Em);
          injection Hsg as <- <-; reflexivity. }
      rewrite E in Hs1. destruct Hs1 as [Hs1 | Hs1]; [discriminate|].
      injection Hs1 as -> ->. cbn. auto 10.
    + destruct (startswith dquote s && endswith dquote s).
      * unfold literal_eval. destruct s as [|c [|c' s']]; try discriminate;
          destruct (all_chars plain_char _); discriminate.
      * destruct (String.eqb s "nil"); [discriminate|].
        destruct (String.eqb s "true"); discriminate.
  - cbn [In]. intros [<- | [<- | [<- | [<- | [<- | [<- | []]]]]]]; reflexivity.
Qed.

(** ** Quoting and evaluating *)

(** X21: [eval] undoes [quoted]. When a token tree classifies to a node,
    the form [(eval (quoted tree))] classifies too, and evaluating it is
    evaluating that node in the same environment and state. *)
Theorem eval_quoted (H : host) (sc : Scoping) (f : nat) (t : tree) (n : node)
    (e : env) (s : state) :
  snd (parse t) = Ok n ->
  snd (parse (TList [TStr "eval"; TList [TStr "quoted"; t]])) = Ok (Eval (Atom (PNode n)))
  /\ eval H sc (S (S f)) (Eval (Atom (PNode n))) e s = eval H sc (S f) n e s.
Proof.
  intros Hp. split; [|reflexivity].
  cbn. destruct (parse t) as [t' r]. cbn [snd] in Hp. subst r. reflexivity.
Qed.

Lemma eval_quoted_witness :
  eval bare_host LEXICAL 3 (Eval (Atom (PNode (Cons True_ Nil)))) (EDict 0) (mkstate [∅] [] [])
  = (mkstate [∅] [] [], Ok (Cell True_ Nil)).
Proof.
  exact (eq_trans
           (proj2 (eval_quoted bare_host LEXICAL 1
                     (TList [TStr "cons"; TStr "true"; TStr "nil"]) _ (EDict 0)
                     (mkstate [∅] [] []) eq_refl)) eq_refl).
Defined.

(** ** Closures as values *)

(** X22: a closure cannot be passed on by name. A reference to a name
    bound to a closure does not evaluate to the closure: [env[name](env)]
    instantiates the class on the environment. A name bound to such an
    instance cannot be called with an argument value: the [debug] wrapper
    of [Ufunc.__call__] takes the argument for an environment and fails with
    [AttributeError] on [env.items()]; with no or several arguments the call
    fails with [TypeError]. *)
Theorem closure_by_name (H : host) (sc : Scoping) (f : nat) (name : string)
    (e : env) (s : state) (ps body : node) (cl : list env) :
  (getitem (frames s) e name = Ok (UfuncClass ps body cl) ->
     eval H sc (S (S f)) (Var name) e s = (s, Ok (Ufunc ps body cl [Mapping e])))
  /\ (forall args s1 vs xs,
        for_each (fun a => eval H sc f a e) args s = (s1, Ok vs) ->
        getitem (frames s1) e name = Ok (Ufunc ps body cl xs) ->
        Forall (fun v => match v with Mapping _ => False | _ => True end) vs ->
        eval H sc (S f) (Call (Name (TStr name)) args) e s
        = (s1, Raise (if Nat.eqb (length vs) 1 then AttributeError else TypeError))).
Proof.
  split.
  - intros Hg. rewrite eval_Var. unfold except_KeyError, bind, lookup. rewrite Hg. reflexivity.
  - intros args s1 vs xs Ha Hg Hv. cbn [eval]. unfold bind at 1. rewrite Ha.
    cbn [value_of lift]. unfold bind at 1. unfold bind at 1.
    unfold except_KeyError, bind at 1. cbn [key_of lift]. unfold bind at 1, lookup.
    rewrite Hg. destruct vs as [|v [|v' vs]]; [reflexivity| |destruct v; reflexivity].
    apply Forall_cons in Hv as [Hv _]. destruct v; try contradiction; reflexivity.
Qed.

Lemma closure_by_name_witness :
  eval bare_host LEXICAL 2 (Var "f") (EDict 0)
    (mkstate [<["f" := UfuncClass (Params []) Nil []]> ∅] [] [])
  = (mkstate [<["f" := UfuncClass (Params []) Nil []]> ∅] [] [],
     Ok (Ufunc (Params []) Nil [] [Mapping (EDict 0)]))
  /\ eval bare_host LEXICAL 2 (Call (Name (TStr "g")) [True_]) (EDict 0)
       (mkstate [<["g" := Ufunc (Params []) Nil [] [Mapping (EDict 0)]]> ∅] [] [])
     = (mkstate [<["g" := Ufunc (Params []) Nil [] [Mapping (EDict 0)]]> ∅] [] [],
        Raise AttributeError).
Proof.
  split.
  - exact (proj1 (closure_by_name bare_host LEXICAL 0 "f" (EDict 0)
                    (mkstate [<["f" := UfuncClass (Params []) Nil []]> ∅] [] [])
                    (Params []) Nil []) eq_refl).
  - exact (proj2 (closure_by_name bare_host LEXICAL 1 "g" (EDict 0)
                    (mkstate [<["g" := Ufunc (Params []) Nil [] [Mapping (EDict 0)]]> ∅] [] [])
                    (Params []) Nil [])
             [True_] _ [True_] [Mapping (EDict 0)] eq_refl eq_refl
             (@List.Forall_cons node _ True_ [] I (@List.Forall_nil node _))).
Defined.

(** ** Scoping *)

Lemma last_map_EDict (rest : list nat) (l : nat) (d : env) :
  List.last (EDict l :: map EDict rest) d = EDict (List.last rest l).
Proof.
  rewrite last_cons. revert l. induction rest as [|g rest IH]; intros l; [reflexivity|].
  cbn [map]. rewrite !last_cons. apply IH.
Qed.

Lemma last_valid (rest : list nat) (l n : nat) :
  Forall (fun i => i < n) (l :: rest) -> List.last rest l < n.
Proof.
  revert l. induction rest as [|g rest IH]; intros l Hv.
  - apply Forall_cons in Hv as [Hl _]. exact Hl.
  - apply Forall_cons in Hv as [_ Hv]. rewrite last_cons. apply IH. exact Hv.
Qed.

Lemma first_binding_app (fs extra : list (gmap string node)) (ids : list nat) (k : string) :
  Forall (fun i => i < length fs) ids ->
  first_binding (fs ++ extra)%list ids k = first_binding fs ids k.
Proof.
  unfold first_binding. intros Hv. f_equal.
  induction Hv as [|i ids Hi _ IH]; [reflexivity|].
  cbn [omap list_omap]. rewrite lookup_app_l by exact Hi. rewrite IH. reflexivity.
Qed.

(** What the body of a call reads for a name that is no parameter. *)
Lemma getitem_local_env (sc : Scoping) (fs : list (gmap string node))
    (local : gmap string node) (l : nat) (rest : list nat) (k : string) :
  Forall (fun i => i < length fs) (l :: rest) ->
  local !! k = None ->
  getitem (fs ++ [local])%list
    (local_env sc (length fs) [] (EChain (EDict l) (map EDict rest))) k
  = match first_binding fs (visible sc l rest) k with
    | Some v => Ok v
    | None => Raise KeyError
    end.
Proof.
  intros Hv Hl.
  assert (Ha : (fs ++ [local])%list !! length fs = Some local).
  { rewrite lookup_app_r by lia. rewrite Nat.sub_diag. reflexivity. }
  assert (Hv' : Forall (fun i => i < length (fs ++ [local])%list) (l :: rest)).
  { eapply Forall_impl; [exact Hv|]. intros i Hi. cbn beta in *. rewrite length_app. lia. }
  destruct sc; unfold local_env, visible; cbn [maps app].
  - cbn [getitem]. rewrite Ha, Hl.
    change (match getitem (fs ++ [local])%list (EChain (EDict l) (map EDict rest)) k with
            | Raise KeyError => Raise KeyError
            | x => x
            end
            = match first_binding fs (l :: rest) k with
              | Some v => Ok v
              | None => Raise KeyError
              end).
    rewrite (getitem_chain _ l rest k Hv'), first_binding_app by exact Hv.
    destruct (first_binding fs (l :: rest) k); reflexivity.
  - rewrite last_map_EDict.
    pose proof (last_valid rest l _ Hv) as Hg.
    assert (Hc : Forall (fun i => i < length (fs ++ [local])%list)
                   [length fs; List.last rest l]).
    { constructor; [rewrite length_app; cbn; lia|].
      constructor; [rewrite length_app; lia | constructor]. }
    pose proof (getitem_chain (fs ++ [local])%list (length fs) [List.last rest l] k Hc) as G.
    cbn [map] in G. rewrite G. clear G.
    unfold first_binding at 1. cbn [omap list_omap]. rewrite Ha. cbn [mbind option_bind].
    rewrite Hl, lookup_app_l by exact Hg. reflexivity.
Qed.

(** X23: which of the caller's names a function body can read. When a
    function that captured no frame is called from inside a chain of
    frames, a name in its body that is no parameter resolves, under lexical
    scoping, in the last map of the caller's chain only (the global frame):
    the caller's local bindings are invisible to the callee. Under dynamic
    scoping it resolves through the caller's whole chain, innermost first.
    Where no visible frame binds the name the call raises [ProgramError]. *)
Theorem scoping_of_free_names (H : host) (sc : Scoping) (f : nat) (name k : string)
    (args : list node) (l : nat) (rest : list nat) (s s1 : state) (vs : list node)
    (ks : list string) :
  let e := EChain (EDict l) (map EDict rest) in
  let local := fold_left (fun m p => <[p.1 := p.2]> m) (zip ks vs) ∅ in
  let s' := mkstate (frames s1 ++ [local])%list (stdin s1) (stdout s1) in
  for_each (fun x => eval H sc (S (S (S f))) x e) args s = (s1, Ok vs) ->
  getitem (frames s1) e name = Ok (UfuncClass (Params (map TStr ks)) (Var k) []) ->
  Forall (fun i => i < length (frames s1)) (l :: rest) ->
  k ∉ ks ->
  (first_binding (frames s1) (visible sc l rest) k = None ->
     eval H sc (S (S (S (S f)))) (Call (Name (TStr name)) args) e s
     = (s', Raise (ProgramError (UnknownName (PStr k)))))
  /\ (forall v, first_binding (frames s1) (visible sc l rest) k = Some v ->
        self_evaluating v = true ->
        eval H sc (S (S (S (S f)))) (Call (Name (TStr name)) args) e s = (s', Ok v)).
Proof.
  cbn zeta. intros Ha Hg Hv Hk.
  rewrite (eval_Call_body H sc (S (S f)) name args _ s s1 vs ks (Var k) [] Ha Hg).
  pose proof (getitem_local_env sc (frames s1) _ l rest k Hv
                (eq_trans (fold_insert_notin ks vs ∅ k Hk) (lookup_empty k))) as G.
  split.
  - intros Hn. rewrite Hn in G. apply Var_unbound. exact G.
  - intros v Hs Hself. rewrite Hs in G. rewrite eval_Var.
    unfold except_KeyError, bind, lookup. cbn [frames]. rewrite G.
    rewrite eval_self by exact Hself. reflexivity.
Qed.

Lemma scoping_of_free_names_witness :
  let fn := UfuncClass (Params (map TStr [])) (Var "x") [] in
  let s := mkstate [<["g" := fn]> ∅; <["x" := True_]> ∅] [] [] in
  let s' := mkstate [<["g" := fn]> ∅; <["x" := True_]> ∅; ∅] [] [] in
  eval bare_host LEXICAL 4 (Call (Name (TStr "g")) []) (EChain (EDict 1) [EDict 0]) s
  = (s', Raise (ProgramError (UnknownName (PStr "x"))))
  /\ eval bare_host DYNAMIC 4 (Call (Name (TStr "g")) []) (EChain (EDict 1) [EDict 0]) s
     = (s', Ok True_).
Proof.
  cbn zeta. split.
  - refine (proj1 (scoping_of_free_names bare_host LEXICAL 0 "g" "x" [] 1 [0]
                     (mkstate [<["g" := UfuncClass (Params (map TStr [])) (Var "x") []]> ∅;
                               <["x" := True_]> ∅] [] []) _ [] [] eq_refl eq_refl _ _) eq_refl).
    + repeat constructor.
    + apply not_elem_of_nil.
  - refine (proj2 (scoping_of_free_names bare_host DYNAMIC 0 "g" "x" [] 1 [0]
                     (mkstate [<["g" := UfuncClass (Params (map TStr [])) (Var "x") []]> ∅;
                               <["x" := True_]> ∅] [] []) _ [] [] eq_refl eq_refl _ _)
              True_ eq_refl eq_refl).
    + repeat constructor.
    + apply not_elem_of_nil.
Defined.

(** ** Operators *)

Lemma eval_Binop (H : host) (sc : Scoping) (f : nat) (op : Op.binary) (lhs rhs : node)
    (e : env) :
  eval H sc (S f) (Binop op lhs rhs) e =
  (let* l := eval H sc f lhs e in
   let* r := eval H sc f rhs e in
   let* lv := lift (value_of l) in
   let* rv := lift (value_of r) in
   let* x := lift (binop op lv rv) in
   ret (Atom x)).
Proof. reflexivity. Qed.

(** X24: the binary operators are strict, [and] and [or] included:
    nothing short-circuits. The left operand is evaluated first; when it
    raises, the right one is not evaluated; when it returns, the right
    operand is evaluated whatever the left value is, so its exception is the
    exception of the whole form, also for [(and false-value failing)] and
    [(or true-value failing)]. On two booleans [and], [or] and [xor] return
    the boolean atom, in the state the right operand left. *)
Theorem Binop_strict (H : host) (sc : Scoping) (f : nat) (op : Op.binary)
    (lhs rhs : node) (e : env) (s s1 : state) :
  (forall x, eval H sc f lhs e s = (s1, Raise x) ->
     eval H sc (S f) (Binop op lhs rhs) e s = (s1, Raise x))
  /\ (forall l s2 x, eval H sc f lhs e s = (s1, Ok l) ->
        eval H sc f rhs e s1 = (s2, Raise x) ->
        eval H sc (S f) (Binop op lhs rhs) e s = (s2, Raise x))
  /\ (forall l r s2 a b, eval H sc f lhs e s = (s1, Ok l) ->
        eval H sc f rhs e s1 = (s2, Ok r) ->
        value_of l = Ok (PBool a) -> value_of r = Ok (PBool b) ->
        eval H sc (S f) (Binop Op.And lhs rhs) e s = (s2, Ok (Atom (PBool (a && b))))
        /\ eval H sc (S f) (Binop Op.Or lhs rhs) e s = (s2, Ok (Atom (PBool (a || b))))
        /\ eval H sc (S f) (Binop Op.Xor lhs rhs) e s = (s2, Ok (Atom (PBool (xorb a b))))).
Proof.
  split; [|split].
  - intros x Hl. rewrite eval_Binop. unfold bind at 1. rewrite Hl. reflexivity.
  - intros l s2 x Hl Hr. rewrite eval_Binop. unfold bind at 1. rewrite Hl.
    unfold bind at 1. rewrite Hr. reflexivity.
  - intros l r s2 a b Hl Hr Ha Hb. rewrite !eval_Binop. unfold bind, lift, ret.
    rewrite Hl, Hr, Ha, Hb. repeat split; reflexivity.
Qed.

Lemma Binop_strict_witness :
  eval bare_host LEXICAL 3
    (Binop Op.Or True_ (Assert (Var "undefined") Nil)) (EDict 0) (mkstate [∅] [] [])
  = (mkstate [∅] [] [], Raise (ProgramError (UnknownName (PStr "undefined")))).
Proof.
  exact (proj1 (proj2 (Binop_strict bare_host LEXICAL 2 Op.Or True_
                         (Assert (Var "undefined") Nil) (EDict 0)
                         (mkstate [∅] [] []) (mkstate [∅] [] [])))
           True_ _ _ eq_refl eq_refl).
Defined.
